(** * fs-system, planning_trees: the bounded tree search over cone waypoints

    A shallow embedding of [tree_search.cpp] and [path_queue.cpp], and the
    properties of the search engine stated over it.

    Conventions of the embedding.

    - A C++ [float] that holds a coordinate, an angle or a distance is read
      as a real number ([R]); [sqrt], [cos], [sin], [fabs] are the functions
      of the real analysis library, [M_PI] is [PI], and [atan2] is defined
      below with the value table of the C library.  Rounding is not
      modelled.  A statement that depends on which side of a threshold a
      distance falls takes the comparison, on the distance as computed
      here, as its hypothesis.
    - A [float] that can hold [std::numeric_limits<float>::infinity()] (a
      cost, a running minimum) is an [xfloat]: a real or plus infinity.
    - [std::vector] is [list]; [operator[]], [front], [back] and
      [erase(begin())] past the end are faults of the [result] monad.
    - [getPath] reads [waypoints.back()] of the path it dequeues, and the
      first path it dequeues is the root, which has no waypoint.
      [Strict.expand], [Strict.round] and [Strict.getPath] take that read
      for the fault it is.  [expand], [round] and [getPath] give it a value
      instead, the parameter [root_pose] of [PathExternals]: they serve the
      statements on the loop over the candidates, which reads nothing of
      the kind, and, through [strict_expand_sound], the proofs about
      [Strict.expand].
    - The frontier stores [Path *]; here an entry is the path it was
      given.  In [getPath] the address given for a branch is that of
      [new_path], an object of the body of the loop over [k]: the entry
      outlives it.  The lifetime of objects is not modelled.  The
      statements on the body of the loop over the frontier start from a
      state whose entries are live paths, and read through an entry only
      where it is one of that state; of an entry written on the way they
      say what it was given and where it was put.
    - The classes [Path] and [Waypoint] and the record [TreeSearchParams] are
      declared in headers that are not part of the two source files.  Their
      models below follow the specification, and what it leaves open (the
      cost metric, the heading given to an appended waypoint, the pose read
      from a path without waypoints) is the interface [PathExternals].
    - The three counting parameters ([path_queue_limit],
      [max_search_iterations], [max_waypoints_per_path]) are natural
      numbers. *)

From Stdlib Require Import Reals Lra Lia.
From stdpp Require Import base decidable option list.

Open Scope R_scope.

(** ** Numbers *)

#[global] Instance Rle_decision : RelDecision Rle := Rle_dec.
#[global] Instance Rlt_decision : RelDecision Rlt := Rlt_dec.
#[global] Instance Rgt_decision : RelDecision Rgt := Rgt_dec.
#[global] Instance Req_decision : EqDecision R := Req_dec_T.

Definition M_PI : R := PI.

(** [atan2 y x] of <cmath>: the angle of the vector [(x, y)], in
    [(-PI, PI]]; [atan2 0 0 = 0]. *)
Definition atan2 (y x : R) : R :=
  if decide (0 < x) then atan (y / x)
  else if decide (x < 0) then
    (if decide (0 <= y) then atan (y / x) + PI else atan (y / x) - PI)
  else if decide (0 < y) then PI / 2
  else if decide (y < 0) then - (PI / 2)
  else 0.

Definition fabs (a : R) : R := Rabs a.

(** A float that may be plus infinity. *)
Inductive xfloat : Type :=
| finite (r : R)
| infinity.

(** [a < b] on [xfloat]; [a > b] in the source is [xlt b a]. *)
Definition xlt (a b : xfloat) : Prop :=
  match a, b with
  | finite u, finite v => u < v
  | finite _, infinity => True
  | infinity, _ => False
  end.

Definition xgt (a b : xfloat) : Prop := xlt b a.

Definition xle (a b : xfloat) : Prop := ~ xlt b a.

#[global] Instance xlt_decision : RelDecision xlt.
Proof. intros [u|] [v|]; simpl; apply _. Defined.

#[global] Instance xgt_decision : RelDecision xgt := fun a b => xlt_decision b a.

(** ** Faults and the two monads *)

Inductive fault : Type :=
| IndexOutOfRange   (* operator[] past the end *)
| FrontOfEmpty      (* front() or erase(begin()) on an empty vector *)
| BackOfEmpty.      (* back() on an empty vector *)

Inductive result (A : Type) : Type :=
| Ok (a : A)
| Fault (f : fault).
Arguments Ok {A} a.
Arguments Fault {A} f.

#[global] Instance result_ret : MRet result := fun A a => Ok a.
#[global] Instance result_bind : MBind result := fun A B k m =>
  match m with
  | Ok a => k a
  | Fault f => Fault f
  end.

(** [v[i]] *)
Definition at_ {A} (v : list A) (i : nat) : result A :=
  match v !! i with
  | Some a => Ok a
  | None => Fault IndexOutOfRange
  end.

(** [v[i] = a] *)
Definition set_at {A} (v : list A) (i : nat) (a : A) : result (list A) :=
  if decide (i < length v)%nat then Ok (<[i := a]> v) else Fault IndexOutOfRange.

(** [v.front()] followed by [v.erase(v.begin())] *)
Definition pop_front {A} (v : list A) : result (A * list A) :=
  match v with
  | a :: v' => Ok (a, v')
  | [] => Fault FrontOfEmpty
  end.

(** [for (int i = 0; i < n; i++) acc = body(i, acc)] *)
Definition for_range {A} (n : nat) (body : nat -> A -> result A) (init : A)
  : result A :=
  foldl (fun acc i => a ← acc; body i a) (Ok init) (seq 0 n).

(** ** Data *)

Module Cone.
Record t : Type := make { x : R; y : R }.
End Cone.

(** A [Point] is indexed with [[0]] and [[1]] and built as [{x, y}]. *)
Definition Point : Type := (R * R)%type.

Module Waypoint.
Record t : Type := make3 { x : R; y : R; heading : R }.

(** Modelled from the spec: the class [Waypoint] (constructor,
    [getDistanceTo], [getDistNearestCone]) is not among the sources.  A
    waypoint is a position and a heading; the two-argument constructor is
    only used for temporaries whose position alone is read. *)
Definition make (x y : R) : t := make3 x y 0.

Definition getDistanceTo (w : t) (px py : R) : R :=
  sqrt ((x w - px) * (x w - px) + (y w - py) * (y w - py)).

(** Modelled from the spec: "the minimum distance to any cone". *)
Definition getDistNearestCone (w : t) (cones : list Cone.t) : xfloat :=
  foldl (fun closest c =>
           let dist := getDistanceTo w (Cone.x c) (Cone.y c) in
           if decide (xlt (finite dist) closest) then finite dist else closest)
        infinity cones.
End Waypoint.

Module Path.
(** Modelled from the spec: the class [Path] is not among the sources.
    "Ordered sequence of Waypoints (root is the empty sequence); supports
    cost evaluation, membership test by position, and deep copy". *)
Record t : Type := make { waypoints : list Waypoint.t }.

Definition new : t := make [].

Definition createCopy (p : t) : t := make (waypoints p).

Definition same_position (a b : Waypoint.t) : Prop :=
  Waypoint.x a = Waypoint.x b /\ Waypoint.y a = Waypoint.y b.

#[global] Instance same_position_dec : RelDecision same_position.
Proof. intros a b; unfold same_position; apply _. Defined.

Definition hasWaypoint (p : t) (w : Waypoint.t) : bool :=
  bool_decide (Exists (fun v => same_position v w) (waypoints p)).
End Path.

(** What the specification leaves to the [Path] collaborator. *)
Class PathExternals : Type := {
  (** the cost metric, "an opaque, deterministic scoring oracle" *)
  getCost : Path.t -> xfloat;
  (** the heading [addWaypoint] gives to the waypoint it appends *)
  heading_of : Path.t -> R -> R -> R;
  (** the pose read through [waypoints.back()] on the root path *)
  root_pose : Waypoint.t
}.

Section PathOps.
Context `{PathExternals}.

(** Modelled from the spec: [Path::addWaypoint(x, y)] appends a waypoint
    at that position. *)
Definition addWaypoint (p : Path.t) (x y : R) : Path.t :=
  Path.make (Path.waypoints p ++ [Waypoint.make3 x y (heading_of p x y)]).

(** [p.waypoints.back()] *)
Definition back (p : Path.t) : Waypoint.t :=
  List.last (Path.waypoints p) root_pose.
End PathOps.

Record TreeSearchParams : Type := {
  field_of_view : R;
  distance : R;
  triangulation_radius : R;
  triangulation_min_cone_dist : R;
  triangulation_min_waypoint_dist : R;
  path_queue_limit : nat;
  max_search_iterations : nat;
  max_waypoints_per_path : nat;
  waypoint_field_of_view : R;
  waypoint_distance : R
}.

(** ** path_queue.cpp *)

Module PathQueue.
Record t : Type := make {
  paths : list Path.t;
  costs : list xfloat;
  PATH_QUEUE_LIMIT : nat
}.

(** [PathQueue(limit)] *)
Definition new (limit : nat) : t := make [] [] limit.

Definition getWorstPath (q : t) : result nat :=
  for_range (length (costs q))
    (fun i worst_path_index =>
       ci ← at_ (costs q) i;
       cw ← at_ (costs q) worst_path_index;
       mret (if decide (xgt ci cw) then i else worst_path_index))
    0%nat.

Definition getBestPath (q : t) : result nat :=
  for_range (length (costs q))
    (fun i best_path_index =>
       ci ← at_ (costs q) i;
       cb ← at_ (costs q) best_path_index;
       mret (if decide (xlt ci cb) then i else best_path_index))
    0%nat.

Definition addNewPath (new_path : Path.t) (new_cost : xfloat) (q : t)
  : result (bool * t) :=
  if decide (PATH_QUEUE_LIMIT q <= length (paths q))%nat then
    worst_path_index ← getWorstPath q;
    cw ← at_ (costs q) worst_path_index;
    if decide (xgt cw new_cost) then
      paths' ← set_at (paths q) worst_path_index new_path;
      costs' ← set_at (costs q) worst_path_index new_cost;
      mret (true, make paths' costs' (PATH_QUEUE_LIMIT q))
    else mret (false, q)
  else
    mret (true, make (paths q ++ [new_path]) (costs q ++ [new_cost])
                     (PATH_QUEUE_LIMIT q)).

(** The four statements that take the front entry off both vectors. *)
Definition dequeue (q : t) : result (Path.t * xfloat * t) :=
  '(curr_path, paths') ← pop_front (paths q);
  '(curr_cost, costs') ← pop_front (costs q);
  mret (curr_path, curr_cost, make paths' costs' (PATH_QUEUE_LIMIT q)).

Definition size (q : t) : nat := length (paths q).
End PathQueue.

(** ** tree_search.cpp *)

(** The two corrections [filterLocal] applies to the angle, one after the
    other. *)
Definition normalize_angle (angle : R) : R :=
  let angle := if decide (angle < - M_PI) then angle + 2 * M_PI else angle in
  let angle := if decide (angle > M_PI) then angle - 2 * M_PI else angle in
  angle.

(** The test both overloads of [filterLocal] apply to a point. *)
Definition in_view (field_of_view distance x y heading : R) (px py : R) : bool :=
  let dx := px - x in
  let dy := py - y in
  let dist := sqrt (dx * dx + dy * dy) in
  let angle := normalize_angle (atan2 dy dx - heading) in
  bool_decide (fabs angle <= field_of_view / 2) && bool_decide (dist <= distance).

Definition filterLocal_cones (points : list Cone.t)
    (field_of_view distance x y heading : R) : list Cone.t :=
  foldl (fun filtered_points point =>
           if in_view field_of_view distance x y heading
                      (Cone.x point) (Cone.y point)
           then filtered_points ++ [point] else filtered_points)
        [] points.

Definition filterLocal (points : list Point)
    (field_of_view distance x y heading : R) : list Point :=
  foldl (fun filtered_points point =>
           if in_view field_of_view distance x y heading point.1 point.2
           then filtered_points ++ [(point.1, point.2)] else filtered_points)
        [] points.

(** The candidate inspected at step [i] around [cone], against the
    waypoints accepted so far. *)
Definition triangulate_candidate (params : TreeSearchParams)
    (cones : list Cone.t) (cone : Cone.t) (waypoints : list Point) (i : nat)
  : list Point :=
  let angle := INR i * M_PI / 4 in
  let x := Cone.x cone + triangulation_radius params * cos angle in
  let y := Cone.y cone + triangulation_radius params * sin angle in
  let w := Waypoint.make x y in
  let closest_cone_dist := Waypoint.getDistNearestCone w cones in
  let closest_waypoint_dist :=
    foldl (fun closest p =>
             let dist := Waypoint.getDistanceTo w p.1 p.2 in
             if decide (xlt (finite dist) closest) then finite dist else closest)
          infinity waypoints in
  if bool_decide (xgt closest_cone_dist
                      (finite (triangulation_min_cone_dist params)))
     && bool_decide (xgt closest_waypoint_dist
                         (finite (triangulation_min_waypoint_dist params)))
  then waypoints ++ [(x, y)]
  else waypoints.

Definition triangulate (params : TreeSearchParams) (cones : list Cone.t)
  : list Point :=
  foldl (fun waypoints cone =>
           foldl (triangulate_candidate params cones cone) waypoints (seq 0 8))
        [] cones.

Module TreeSearch.
Record t : Type := make {
  params : TreeSearchParams;
  cones : list Cone.t;
  waypoints : list Point
}.

(** The constructor. *)
Definition new (cones : list Cone.t) (params : TreeSearchParams) : t :=
  let cones := filterLocal_cones cones (field_of_view params)
                                 (distance params) 0 0 0 in
  make params cones (triangulate params cones).
End TreeSearch.

(** *** The search *)

(** What the search did to the frontier, in program order. *)
Inductive event : Type :=
| RoundStart (snapshot : PathQueue.t)
| Dequeued (before : PathQueue.t) (p : Path.t) (c : xfloat) (after : PathQueue.t)
| Offered (before : PathQueue.t) (p : Path.t) (c : xfloat) (accepted : bool)
          (after : PathQueue.t)
| Selected (frontier : PathQueue.t) (best_path_index : nat).

Record search_state : Type := {
  path_queue : PathQueue.t;
  history : list event   (* ghost: not in the source *)
}.

Definition search (A : Type) : Type := search_state -> result (A * search_state).

#[global] Instance search_ret : MRet search := fun A a s => Ok (a, s).
#[global] Instance search_bind : MBind search := fun A B k m s =>
  match m s with
  | Ok (a, s') => k a s'
  | Fault f => Fault f
  end.

Definition lift {A} (r : result A) : search A := fun s =>
  match r with
  | Ok a => Ok (a, s)
  | Fault f => Fault f
  end.

Definition record (e : event) : search unit := fun s =>
  Ok (tt, {| path_queue := path_queue s; history := history s ++ [e] |}).

Definition get_queue : search PathQueue.t := fun s => Ok (path_queue s, s).

Definition put_queue (q : PathQueue.t) : search unit := fun s =>
  Ok (tt, {| path_queue := q; history := history s |}).

(** [path_queue.addNewPath(p, c)] *)
Definition addNewPath (p : Path.t) (c : xfloat) : search bool :=
  q ← get_queue;
  '(accepted, q') ← lift (PathQueue.addNewPath p c q);
  _ ← put_queue q';
  _ ← record (Offered q p c accepted q');
  mret accepted.

(** [front()] and [erase(begin())] on both vectors *)
Definition dequeue : search (Path.t * xfloat) :=
  q ← get_queue;
  '(p, c, q') ← lift (PathQueue.dequeue q);
  _ ← put_queue q';
  _ ← record (Dequeued q p c q');
  mret (p, c).

(** [for (int i = 0; i < n; i++) acc = body(i, acc)] in the search monad *)
Definition for_each {A} (n : nat) (body : nat -> A -> search A) (init : A)
  : search A :=
  foldl (fun acc i => a ← acc; body i a) (mret init) (seq 0 n).

(** The last two statements of [getPath]: the index of the best entry, and
    a copy of the path it addresses.  The call is spelled
    [getBestPathIndex] in tree_search.cpp; path_queue.cpp defines the scan
    as [getBestPath]. *)
Definition select_best : search Path.t :=
  q ← get_queue;
  best_path_index ← lift (PathQueue.getBestPath q);
  _ ← record (Selected q best_path_index);
  best ← lift (at_ (PathQueue.paths q) best_path_index);
  mret (Path.createCopy best).

Section Search.
Context `{PathExternals}.
Variable ts : TreeSearch.t.

Let params := TreeSearch.params ts.

(** The body of the loop over [k]; the flags are
    [(no_new_paths, added_point)]. *)
Definition branch (curr_path : Path.t) (possible_next_waypoints : list Point)
    (k : nat) (flags : bool * bool) : search (bool * bool) :=
  candidate ← lift (at_ possible_next_waypoints k);
  if Path.hasWaypoint curr_path (Waypoint.make candidate.1 candidate.2)
  then mret flags
  else
    let new_path := Path.createCopy curr_path in
    appended ← lift (at_ (TreeSearch.waypoints ts) k);
    let new_path := addWaypoint new_path appended.1 appended.2 in
    let new_cost := getCost new_path in
    added_path ← addNewPath new_path new_cost;
    if added_path : bool then mret (false, true) else mret flags.

(** The body of the loop over [j]. *)
Definition expand (no_new_paths : bool) : search bool :=
  '(curr_path, curr_cost) ← dequeue;
  if decide (max_waypoints_per_path params
             < length (Path.waypoints curr_path))%nat
  then
    _ ← addNewPath curr_path curr_cost;
    mret no_new_paths
  else
    let last_waypoint := back curr_path in
    let possible_next_waypoints :=
      filterLocal (TreeSearch.waypoints ts)
                  (waypoint_field_of_view params) (waypoint_distance params)
                  (Waypoint.x last_waypoint) (Waypoint.y last_waypoint)
                  (Waypoint.heading last_waypoint) in
    '(no_new_paths, added_point) ←
      for_each (length possible_next_waypoints)
               (branch curr_path possible_next_waypoints)
               (no_new_paths, false);
    if negb added_point then
      _ ← addNewPath curr_path curr_cost;
      mret no_new_paths
    else mret no_new_paths.

(** One pass of the loop over [i]; returns [no_new_paths]. *)
Definition round : search bool :=
  q ← get_queue;
  _ ← record (RoundStart q);
  let size := length (PathQueue.paths q) in
  for_each size (fun _ => expand) true.

(** The loop over [i], with its [break]. *)
Fixpoint rounds (remaining : nat) : search unit :=
  match remaining with
  | O => mret tt
  | S remaining' =>
      no_new_paths ← round;
      if no_new_paths : bool then mret tt else rounds remaining'
  end.

(** The body of [getPath]. *)
Definition getPath_search : search Path.t :=
  let start_path := Path.new in
  _ ← addNewPath start_path infinity;
  _ ← rounds (max_search_iterations params);
  select_best.

Definition initial_state : search_state :=
  {| path_queue := PathQueue.new (path_queue_limit params); history := [] |}.

(** [TreeSearch::getPath], with the history of the frontier. *)
Definition getPath_run : result (Path.t * list event) :=
  '(p, s) ← getPath_search initial_state;
  mret (p, history s).

(** [TreeSearch::getPath] *)
Definition getPath : result Path.t :=
  '(p, _) ← getPath_run;
  mret p.
End Search.

(** *** The search, with [back()] of an empty vector a fault

    [expand] above gives the read of [waypoints.back()] on a path without
    waypoints a value, the parameter [root_pose].  The source reads past
    the end of an empty vector there, like [front()] on an empty frontier.
    The definitions of this module take that read for the fault it is;
    everything else is as above. *)

Module Strict.

(** [p.waypoints.back()] *)
Definition back (p : Path.t) : result Waypoint.t :=
  match last (Path.waypoints p) with
  | Some w => Ok w
  | None => Fault BackOfEmpty
  end.

Section Search.
Context `{PathExternals}.
Variable ts : TreeSearch.t.

Let params := TreeSearch.params ts.

(** The body of the loop over [j]. *)
Definition expand (no_new_paths : bool) : search bool :=
  '(curr_path, curr_cost) ← dequeue;
  if decide (max_waypoints_per_path params
             < length (Path.waypoints curr_path))%nat
  then
    _ ← addNewPath curr_path curr_cost;
    mret no_new_paths
  else
    last_waypoint ← lift (back curr_path);
    let possible_next_waypoints :=
      filterLocal (TreeSearch.waypoints ts)
                  (waypoint_field_of_view params) (waypoint_distance params)
                  (Waypoint.x last_waypoint) (Waypoint.y last_waypoint)
                  (Waypoint.heading last_waypoint) in
    '(no_new_paths, added_point) ←
      for_each (length possible_next_waypoints)
               (branch ts curr_path possible_next_waypoints)
               (no_new_paths, false);
    if negb added_point then
      _ ← addNewPath curr_path curr_cost;
      mret no_new_paths
    else mret no_new_paths.

(** One pass of the loop over [i]; returns [no_new_paths]. *)
Definition round : search bool :=
  q ← get_queue;
  _ ← record (RoundStart q);
  let size := length (PathQueue.paths q) in
  for_each size (fun _ => expand) true.

(** The loop over [i], with its [break]. *)
Fixpoint rounds (remaining : nat) : search unit :=
  match remaining with
  | O => mret tt
  | S remaining' =>
      no_new_paths ← round;
      if no_new_paths : bool then mret tt else rounds remaining'
  end.

(** The body of [getPath]. *)
Definition getPath_search : search Path.t :=
  let start_path := Path.new in
  _ ← addNewPath start_path infinity;
  _ ← rounds (max_search_iterations params);
  select_best.

(** [TreeSearch::getPath] *)
Definition getPath : result Path.t :=
  '(p, _) ← getPath_search (initial_state ts);
  mret p.
End Search.
End Strict.

(** * Definitions for the statements *)

(** ** filterLocal *)

(** The acceptance test in the words of the specification: the angle to the
    point minus the heading, brought into the half-open turn by one
    addition or subtraction of a full turn. *)
Definition spec_normalize (a : R) : R :=
  if decide (a <= - PI) then a + 2 * PI
  else if decide (PI < a) then a - 2 * PI
  else a.

Definition spec_accepts (fov maxDist originX originY heading : R)
    (px py : R) : Prop :=
  Rabs (spec_normalize (atan2 (py - originY) (px - originX) - heading))
    <= fov / 2
  /\ sqrt ((px - originX) * (px - originX) + (py - originY) * (py - originY))
     <= maxDist.

#[global] Instance spec_accepts_dec fov maxDist ox oy h px py :
  Decision (spec_accepts fov maxDist ox oy h px py).
Proof. unfold spec_accepts. apply _. Defined.

(** [p] is at most [D] away from the origin given. *)
Definition within_distance (originX originY D : R) (p : Point) : Prop :=
  sqrt ((p.1 - originX) * (p.1 - originX) + (p.2 - originY) * (p.2 - originY))
  <= D.

#[global] Instance within_distance_dec ox oy D p :
  Decision (within_distance ox oy D p).
Proof. unfold within_distance. apply _. Defined.

(** ** triangulate *)

(** The running minimum both distance scans compute. *)
Definition running_min (init : xfloat) (dists : list R) : xfloat :=
  foldl (fun closest dist =>
           if decide (xlt (finite dist) closest) then finite dist else closest)
        init dists.

(** The position inspected at step [i] around [cone]. *)
Definition candidate_position (params : TreeSearchParams) (cone : Cone.t)
    (i : nat) : Point :=
  (Cone.x cone + triangulation_radius params * cos (INR i * M_PI / 4),
   Cone.y cone + triangulation_radius params * sin (INR i * M_PI / 4)).

Definition distance_between (p q : Point) : R :=
  sqrt ((p.1 - q.1) * (p.1 - q.1) + (p.2 - q.2) * (p.2 - q.2)).

Definition cone_point (c : Cone.t) : Point := (Cone.x c, Cone.y c).

(** [m] is the least of the distances from [p] to the cones. *)
Definition min_cone_distance (p : Point) (cones : list Cone.t) (m : R) : Prop :=
  (forall c, c ∈ cones -> m <= distance_between p (cone_point c))
  /\ (exists c, c ∈ cones /\ distance_between p (cone_point c) = m).

(** The two tests of a candidate, as propositions. *)
Definition clear_of_cones (params : TreeSearchParams) (cones : list Cone.t)
    (p : Point) : Prop :=
  xgt (Waypoint.getDistNearestCone (Waypoint.make p.1 p.2) cones)
      (finite (triangulation_min_cone_dist params)).

Definition clear_of_waypoints (params : TreeSearchParams)
    (waypoints : list Point) (p : Point) : Prop :=
  xgt (running_min infinity (distance_between p <$> waypoints))
      (finite (triangulation_min_waypoint_dist params)).

#[global] Instance clear_of_cones_dec params cones p :
  Decision (clear_of_cones params cones p).
Proof. unfold clear_of_cones. apply _. Defined.

#[global] Instance clear_of_waypoints_dec params waypoints p :
  Decision (clear_of_waypoints params waypoints p).
Proof. unfold clear_of_waypoints. apply _. Defined.

(** Parameters for the examples: unit ring, both thresholds as given. *)
Definition ring_params (min_cone_dist min_waypoint_dist : R)
  : TreeSearchParams :=
  {| field_of_view := 2 * PI; distance := 10;
     triangulation_radius := 1;
     triangulation_min_cone_dist := min_cone_dist;
     triangulation_min_waypoint_dist := min_waypoint_dist;
     path_queue_limit := 8; max_search_iterations := 2;
     max_waypoints_per_path := 5;
     waypoint_field_of_view := 2 * PI; waypoint_distance := 9 / 2 |}.

(** ** The frontier *)

(** [w] is where the linear scan for an extreme of [costs] stops: no entry
    beats the one at [w], and every entry before [w] is strictly beaten by
    it (the first index wins ties).  [beats a b] is [a > b] for the worst
    entry and [a < b] for the best. *)
Definition first_extreme (beats : relation xfloat) (costs : list xfloat)
    (w : nat) : Prop :=
  exists cw, costs !! w = Some cw
    /\ (forall i ci, costs !! i = Some ci -> ~ beats ci cw)
    /\ (forall i ci, (i < w)%nat -> costs !! i = Some ci -> beats cw ci).

(** The body both scans of [costs] share; [beats] is [>] or [<]. *)
Definition scan_body (beats : relation xfloat) `{!RelDecision beats}
    (costs : list xfloat) (i extreme : nat) : result nat :=
  ci ← at_ costs i;
  ce ← at_ costs extreme;
  mret (if decide (beats ci ce) then i else extreme).

(** A frontier whose two vectors run in parallel. *)
Definition parallel (q : PathQueue.t) : Prop :=
  length (PathQueue.paths q) = length (PathQueue.costs q).

(** A frontier at its capacity of two. *)
Definition full_frontier : PathQueue.t :=
  PathQueue.make [Path.new; Path.new] [finite 1; finite 3] 2.

(** ** The search *)

(** [triple P m Q]: from a state satisfying [P], [m] runs without fault and
    ends in a state satisfying [Q] with its result. *)
Definition triple {A} (P : search_state -> Prop) (m : search A)
    (Q : A -> search_state -> Prop) : Prop :=
  forall s, P s -> exists a s', m s = Ok (a, s') /\ Q a s'.

(** A frontier in good shape for capacity [K]. *)
Definition frontier_ok (K : nat) (q : PathQueue.t) : Prop :=
  parallel q /\ (PathQueue.size q <= K)%nat.

(** What every recorded step must satisfy for a frontier of capacity [K]:
    frontiers in good shape, a front entry wherever one is taken, and an
    existing entry selected at the end. *)
Definition event_ok (K : nat) (e : event) : Prop :=
  match e with
  | RoundStart snapshot =>
      frontier_ok K snapshot /\ (1 <= PathQueue.size snapshot)%nat
  | Dequeued before p c after =>
      frontier_ok K before /\ (1 <= PathQueue.size before)%nat
      /\ frontier_ok K after
      /\ PathQueue.paths before = p :: PathQueue.paths after
      /\ PathQueue.costs before = c :: PathQueue.costs after
  | Offered before _ _ _ after =>
      frontier_ok K before /\ frontier_ok K after
  | Selected frontier best_path_index =>
      frontier_ok K frontier
      /\ (best_path_index < PathQueue.size frontier)%nat
  end.

(** The invariant of the search: a frontier in good shape and a history of
    steps that were. *)
Definition frontier_inv (K : nat) (s : search_state) : Prop :=
  parallel (path_queue s)
  /\ PathQueue.PATH_QUEUE_LIMIT (path_queue s) = K
  /\ (PathQueue.size (path_queue s) <= K)%nat
  /\ Forall (event_ok K) (history s).

Definition size_at_least (n : nat) (s : search_state) : Prop :=
  (n <= PathQueue.size (path_queue s))%nat.

(** The frontiers an event shows. *)
Definition frontiers_of (e : event) : list PathQueue.t :=
  match e with
  | RoundStart snapshot => [snapshot]
  | Dequeued before _ _ after => [before; after]
  | Offered before _ _ _ after => [before; after]
  | Selected frontier _ => [frontier]
  end.

(** Every frontier the search went through. *)
Definition observed (log : list event) : list PathQueue.t :=
  log ≫= frontiers_of.

(** Cost is the number of waypoints, every heading is 0, and the search
    starts from the origin of the vehicle frame. *)
Definition plain_externals : PathExternals :=
  {| getCost := fun p => finite (INR (length (Path.waypoints p)));
     heading_of := fun _ _ _ => 0;
     root_pose := Waypoint.make 0 0 |}.

(** [ptriple P m Q]: when [m] runs from a state satisfying [P] and returns,
    the result and the final state satisfy [Q].  Used next to [triple],
    which gives the return. *)
Definition ptriple {A} (P : search_state -> Prop) (m : search A)
    (Q : A -> search_state -> Prop) : Prop :=
  forall s a s', P s -> m s = Ok (a, s') -> Q a s'.

(** ** Scenes *)

(** Unit rings, a waypoint threshold above their diameter, full-turn
    windows; the capacity and the reach of the waypoint filter as given. *)
Definition scene_params (limit : nat) (reach : R) : TreeSearchParams :=
  {| field_of_view := 2 * PI; distance := 10;
     triangulation_radius := 1;
     triangulation_min_cone_dist := 1 / 2;
     triangulation_min_waypoint_dist := 11 / 5;
     path_queue_limit := limit; max_search_iterations := 2;
     max_waypoints_per_path := 5;
     waypoint_field_of_view := 2 * PI; waypoint_distance := reach |}.

(** Three cones in a row ahead of the vehicle, two and a half apart. *)
Definition row_cones : list Cone.t :=
  [Cone.make 0 0; Cone.make (5 / 2) 0; Cone.make 5 0].

(** The waypoints triangulate makes of them, and the search object. *)
Definition row_pool : list Point := [(1, 0); (7 / 2, 0); (6, 0)].

Definition row_scene : TreeSearch.t :=
  TreeSearch.make (scene_params 2 10) row_cones row_pool.

(** The cost falls with every waypoint added. *)
Definition eager_externals : PathExternals :=
  {| getCost := fun p => finite (- INR (length (Path.waypoints p)));
     heading_of := fun _ _ _ => 0;
     root_pose := Waypoint.make 0 0 |}.

(** A path through the given points, all headings 0. *)
Definition through (points : list Point) : Path.t :=
  Path.make ((fun p : Point => Waypoint.make3 p.1 p.2 0) <$> points).

(** Three cones ahead of the vehicle, the farthest listed first. *)
Definition lane_cones : list Cone.t :=
  [Cone.make 8 0; Cone.make 3 0; Cone.make (1 / 2) 0].

(** The waypoints triangulate makes of them, and the search object. *)
Definition lane_pool : list Point := [(9, 0); (4, 0); (3 / 2, 0)].

Definition lane_scene : TreeSearch.t :=
  TreeSearch.make (scene_params 8 (9 / 2)) lane_cones lane_pool.

(** The positions a path goes through. *)
Definition positions (p : Path.t) : list Point :=
  (fun w => (Waypoint.x w, Waypoint.y w)) <$> Path.waypoints p.

(** The paths the search builds on the lane: to (9,0), to (4,0), and to
    (4,0) a second time. *)
Definition to_far `{PathExternals} : Path.t := addWaypoint Path.new 9 0.

Definition to_near `{PathExternals} : Path.t := addWaypoint Path.new 4 0.

Definition near_twice `{PathExternals} : Path.t := addWaypoint to_near 4 0.

(** The frontier at the end of the second round on the lane. *)
Definition lane_frontier `{PathExternals} : PathQueue.t :=
  PathQueue.make [to_far; near_twice] [getCost to_far; getCost near_twice] 8.

(** ** The loop body on a frontier of two *)

(** The row of cones with a frontier of capacity two, at the start of a
    round: the paths to (1,0) and to (7/2,0), one waypoint each. *)
Definition row_start : PathQueue.t :=
  PathQueue.make [through [(1, 0)]; through [(7 / 2, 0)]]
                 [finite (- (1)); finite (- (1))] 2.

(** The state in which the round begins its expansions. *)
Definition row_before : search_state :=
  {| path_queue := row_start; history := [RoundStart row_start] |}.

(** The lane with two paths that end on (9,0), from where no other point
    of the pool is in reach. *)
Definition lane_settled : PathQueue.t :=
  PathQueue.make [through [(9, 0)]; through [(4, 0); (9, 0)]]
                 [finite 1; finite 2] 8.

(** ** Frontiers for the selection and the idle search *)

(** Three paths of the row, the last two at the same, least cost. *)
Definition tied_frontier : PathQueue.t :=
  PathQueue.make [through [(1, 0)]; through [(7 / 2, 0)]; through [(6, 0)]]
                 [finite 3; finite 1; finite 1] 8.

(** The row of cones, searched for no round at all. *)
Definition idle_scene : TreeSearch.t :=
  TreeSearch.make
    {| field_of_view := 2 * PI; distance := 10;
       triangulation_radius := 1;
       triangulation_min_cone_dist := 1 / 2;
       triangulation_min_waypoint_dist := 11 / 5;
       path_queue_limit := 2; max_search_iterations := 0;
       max_waypoints_per_path := 5;
       waypoint_field_of_view := 2 * PI; waypoint_distance := 10 |}
    row_cones row_pool.

(** ** What an expansion offers *)

(** Every offer among [events] gave a path and a cost that are [good]. *)
Definition offers_all (good : Path.t -> xfloat -> Prop)
    (events : list event) : Prop :=
  forall before p c accepted after,
    Offered before p c accepted after ∈ events -> good p c.

(** The history is [h0] and then events whose offers are [good]. *)
Definition offered_since (good : Path.t -> xfloat -> Prop) (h0 : list event)
    (s : search_state) : Prop :=
  exists events, history s = h0 ++ events /\ offers_all good events.

(** Every waypoint of [p] stands on a point of [pool]. *)
Definition on_pool (pool : list Point) (p : Path.t) : Prop :=
  forall pt, pt ∈ positions p -> pt ∈ pool.

(** ** A round that finds nothing new *)

(** [q] is [q0] after [j] of its entries went from the front to the back. *)
Definition rotated (q0 : PathQueue.t) (j : nat) (q : PathQueue.t) : Prop :=
  PathQueue.paths q = drop j (PathQueue.paths q0) ++ take j (PathQueue.paths q0)
  /\ PathQueue.costs q
     = drop j (PathQueue.costs q0) ++ take j (PathQueue.costs q0)
  /\ PathQueue.PATH_QUEUE_LIMIT q = PathQueue.PATH_QUEUE_LIMIT q0.

(** A frontier of capacity [K] that holds at least [m] entries and no more
    than [K]. *)
Definition holds_at_least (K m : nat) (s : search_state) : Prop :=
  PathQueue.PATH_QUEUE_LIMIT (path_queue s) = K
  /\ (m <= PathQueue.size (path_queue s) <= K)%nat.

(** The same after a dequeue: one entry may be missing, until a branch is
    added. *)
Definition holds_all_but_one (K m : nat) (added_point : bool)
    (s : search_state) : Prop :=
  PathQueue.PATH_QUEUE_LIMIT (path_queue s) = K
  /\ (m <= S (PathQueue.size (path_queue s)))%nat
  /\ (PathQueue.size (path_queue s) <= K)%nat
  /\ (m <= K)%nat
  /\ (added_point = true -> (m <= PathQueue.size (path_queue s))%nat).

(** ** A path over the cap *)

(** The row of cones, with paths capped at one waypoint. *)
Definition capped_scene : TreeSearch.t :=
  TreeSearch.make
    {| field_of_view := 2 * PI; distance := 10;
       triangulation_radius := 1;
       triangulation_min_cone_dist := 1 / 2;
       triangulation_min_waypoint_dist := 11 / 5;
       path_queue_limit := 2; max_search_iterations := 2;
       max_waypoints_per_path := 1;
       waypoint_field_of_view := 2 * PI; waypoint_distance := 10 |}
    row_cones row_pool.

(** * Properties *)

(** ** Numbers *)

Lemma atan_nonpos (t : R) : t <= 0 -> atan t <= 0.
Proof.
  intros [Hlt | ->].
  - left. rewrite <- atan_0. now apply atan_increasing.
  - rewrite atan_0. lra.
Qed.

Lemma atan_pos (t : R) : 0 < t -> 0 < atan t.
Proof. intros Ht. rewrite <- atan_0. now apply atan_increasing. Qed.

Lemma atan2_range (y x : R) : - PI < atan2 y x <= PI.
Proof.
  pose proof PI_RGT_0 as Hpi.
  unfold atan2.
  destruct (decide (0 < x)) as [Hx | Hx].
  { pose proof (atan_bound (y / x)). lra. }
  destruct (decide (x < 0)) as [Hx' | Hx'].
  - destruct (decide (0 <= y)) as [Hy | Hy].
    + pose proof (atan_bound (y / x)).
      assert (atan (y / x) <= 0).
      { apply atan_nonpos. unfold Rdiv.
        assert (/ x < 0) by now apply Rinv_lt_0_compat. nra. }
      lra.
    + pose proof (atan_bound (y / x)).
      assert (0 < atan (y / x)).
      { apply atan_pos. unfold Rdiv.
        assert (/ x < 0) by now apply Rinv_lt_0_compat. nra. }
      lra.
  - repeat case_decide; lra.
Qed.

Lemma atan2_neg_axis (x : R) : x < 0 -> atan2 0 x = PI.
Proof.
  intros Hx. unfold atan2.
  rewrite decide_False by lra.
  rewrite decide_True by lra.
  rewrite decide_True by lra.
  replace (0 / x) with 0 by (unfold Rdiv; ring).
  rewrite atan_0. ring.
Qed.

Lemma normalize_angle_id (a : R) : - PI <= a <= PI -> normalize_angle a = a.
Proof.
  intros Ha. unfold normalize_angle, M_PI. cbv zeta.
  destruct (decide (a < - PI)) as [Hlt | _]; [lra |].
  now rewrite decide_False by lra.
Qed.

(** After one turn the angle is back in the closed half-turn, as soon as the
    raw angle is within one and a half turns. *)
Lemma normalize_angle_range (a : R) :
  - (3 * PI) <= a <= 3 * PI -> - PI <= normalize_angle a <= PI.
Proof.
  pose proof PI_RGT_0 as Hpi.
  intros Ha. unfold normalize_angle, M_PI. cbv zeta.
  repeat case_decide; lra.
Qed.

(** ** filterLocal *)

Lemma spec_normalize_range (a : R) :
  - (3 * PI) < a <= 3 * PI -> - PI < spec_normalize a <= PI.
Proof.
  pose proof PI_RGT_0 as Hpi.
  intros Ha. unfold spec_normalize.
  repeat case_decide; lra.
Qed.

Lemma normalize_angle_abs (a : R) :
  Rabs (normalize_angle a) = Rabs (spec_normalize a).
Proof.
  pose proof PI_RGT_0 as Hpi.
  unfold normalize_angle, spec_normalize, M_PI. cbv zeta.
  destruct (decide (a < - PI)) as [Hlt | Hge].
  - rewrite decide_False by lra. now rewrite decide_True by lra.
  - destruct (decide (a > PI)) as [Hgt | Hle].
    + rewrite decide_False by lra. now rewrite decide_True by lra.
    + destruct (decide (a <= - PI)) as [Heq | Hne].
      * assert (a = - PI) as -> by lra.
        replace (- PI + 2 * PI) with PI by ring.
        now rewrite Rabs_Ropp.
      * now rewrite decide_False by lra.
Qed.

Lemma in_view_spec (fov maxDist x y heading px py : R) :
  in_view fov maxDist x y heading px py
  = bool_decide (spec_accepts fov maxDist x y heading px py).
Proof.
  unfold in_view, spec_accepts, fabs. cbv zeta.
  rewrite normalize_angle_abs.
  rewrite <- bool_decide_and.
  apply bool_decide_ext. tauto.
Qed.

(** A loop that pushes the accepted elements is a filter. *)
Lemma foldl_push_filter {A} (P : A -> Prop) `{!forall a, Decision (P a)}
    (test : A -> bool) (rebuild : A -> A) (l acc : list A) :
  (forall a, test a = bool_decide (P a)) ->
  (forall a, rebuild a = a) ->
  foldl (fun out a => if test a then out ++ [rebuild a] else out) acc l
  = acc ++ filter P l.
Proof.
  intros Htest Hre. revert acc.
  induction l as [| a l IH]; intros acc; simpl.
  - now rewrite app_nil_r.
  - rewrite IH, Htest, Hre.
    destruct (decide (P a)) as [Ha | Ha].
    + rewrite bool_decide_eq_true_2 by assumption.
      rewrite filter_cons_True by assumption.
      now rewrite <- app_assoc.
    + rewrite bool_decide_eq_false_2 by assumption.
      now rewrite filter_cons_False by assumption.
Qed.

Lemma filterLocal_filter (points : list Point) (fov maxDist x y heading : R) :
  filterLocal points fov maxDist x y heading
  = filter (fun p => spec_accepts fov maxDist x y heading p.1 p.2) points.
Proof.
  unfold filterLocal.
  rewrite (foldl_push_filter
             (fun p : Point => spec_accepts fov maxDist x y heading p.1 p.2)
             (fun p => in_view fov maxDist x y heading p.1 p.2)
             (fun p => (p.1, p.2))).
  - reflexivity.
  - intros p. apply in_view_spec.
  - now intros [a b].
Qed.

Lemma filterLocal_cones_filter (points : list Cone.t)
    (fov maxDist x y heading : R) :
  filterLocal_cones points fov maxDist x y heading
  = filter (fun c => spec_accepts fov maxDist x y heading (Cone.x c) (Cone.y c))
           points.
Proof.
  unfold filterLocal_cones.
  rewrite (foldl_push_filter
             (fun c => spec_accepts fov maxDist x y heading (Cone.x c) (Cone.y c))
             (fun c => in_view fov maxDist x y heading (Cone.x c) (Cone.y c))
             (fun c => c)).
  - reflexivity.
  - intros c. apply in_view_spec.
  - reflexivity.
Qed.

(** C8: both overloads of filterLocal return, in input order, exactly the
    points whose angle from the origin minus the heading, normalized by one
    addition or subtraction of a full turn, is at most fov/2 in absolute
    value and whose distance to the origin is at most maxDist.  The function
    of the embedding is pure: the result is the filtered list and nothing
    else. *)
Theorem C8_filterLocal_is_the_filter :
  (forall (points : list Point) (fov maxDist x y heading : R),
      filterLocal points fov maxDist x y heading
      = filter (fun p => spec_accepts fov maxDist x y heading p.1 p.2) points)
  /\ (forall (points : list Cone.t) (fov maxDist x y heading : R),
      filterLocal_cones points fov maxDist x y heading
      = filter (fun c => spec_accepts fov maxDist x y heading
                                      (Cone.x c) (Cone.y c)) points).
Proof.
  split.
  - apply filterLocal_filter.
  - apply filterLocal_cones_filter.
Qed.

(** *** The boundary test of the specification *)

(** With a window of a full turn the angular test accepts every direction,
    whatever the pose, as long as the heading is itself an angle of the
    closed half-turn. *)
Lemma spec_accepts_full_turn (D x y heading px py : R) :
  - PI <= heading <= PI ->
  spec_accepts (2 * PI) D x y heading px py
  <-> within_distance x y D (px, py).
Proof.
  intros Hh. unfold spec_accepts, within_distance. simpl.
  pose proof PI_RGT_0 as Hpi.
  pose proof (atan2_range (py - y) (px - x)) as Ha.
  assert (Rabs (spec_normalize (atan2 (py - y) (px - x) - heading))
          <= 2 * PI / 2) as Hang.
  { pose proof (spec_normalize_range (atan2 (py - y) (px - x) - heading)) as Hn.
    apply Rabs_le. lra. }
  tauto.
Qed.

Lemma filterLocal_full_turn (points : list Point) (D x y heading : R) :
  - PI <= heading <= PI ->
  filterLocal points (2 * PI) D x y heading
  = filter (within_distance x y D) points.
Proof.
  intros Hh. rewrite filterLocal_filter.
  apply list_filter_iff. intros [px py]. simpl.
  now apply spec_accepts_full_turn.
Qed.

Lemma sqrt_axis (a : R) : sqrt (a * a + 0 * 0) = Rabs a.
Proof.
  replace (a * a + 0 * 0) with (Rsqr a) by (unfold Rsqr; ring).
  apply sqrt_Rsqr_abs.
Qed.

(** C7, counterexample: with fov = PI the point (-1, 0), at distance 1 from
    the origin and on the wrap boundary, is within the distance bound 2 and
    is nevertheless rejected: its angle PI exceeds fov/2. *)
Lemma C7_half_turn_rejects_behind :
  filterLocal [(-1, 0)] PI 2 0 0 0 = []
  /\ filter (within_distance 0 0 2) [(-1, 0)] = [(-1, 0)].
Proof.
  pose proof PI_RGT_0 as Hpi.
  split.
  - rewrite filterLocal_filter.
    rewrite filter_cons_False; [reflexivity |].
    unfold spec_accepts. simpl.
    intros [Hangle _].
    replace (0 - 0) with 0 in Hangle by ring.
    rewrite atan2_neg_axis in Hangle by lra.
    unfold spec_normalize in Hangle.
    rewrite decide_False in Hangle by lra.
    rewrite decide_False in Hangle by lra.
    rewrite Rabs_pos_eq in Hangle by lra.
    lra.
  - rewrite filter_cons_True; [reflexivity |].
    unfold within_distance. simpl.
    replace (0 - 0) with 0 by ring.
    rewrite sqrt_axis.
    apply Rabs_le. lra.
Qed.

(** C7, as amended: with a window of a full turn, fov = 2 PI, origin (0,0)
    and heading 0, filterLocal returns exactly the points whose distance
    from the origin is at most D, for every angle, the wrap boundary
    included. *)
Theorem C7_full_turn_filters_by_distance (points : list Point) (D : R) :
  filterLocal points (2 * PI) D 0 0 0 = filter (within_distance 0 0 D) points.
Proof.
  apply filterLocal_full_turn.
  pose proof PI_RGT_0. lra.
Qed.

(** ** triangulate *)

Lemma xlt_irrefl (a : xfloat) : ~ xlt a a.
Proof. destruct a; simpl; [lra | tauto]. Qed.

Lemma xlt_trans (a b c : xfloat) : xlt a b -> xlt b c -> xlt a c.
Proof. destruct a, b, c; simpl; try tauto; lra. Qed.

Lemma xle_trans (a b c : xfloat) : xle a b -> xle b c -> xle a c.
Proof. unfold xle. destruct a, b, c; simpl; try tauto; lra. Qed.

Lemma xle_refl (a : xfloat) : xle a a.
Proof. apply xlt_irrefl. Qed.

Lemma xlt_xle (a b : xfloat) : xlt a b -> xle a b.
Proof. unfold xle. destruct a, b; simpl; try tauto; lra. Qed.

Lemma running_min_cons (init : xfloat) (d : R) (dists : list R) :
  running_min init (d :: dists)
  = running_min (if decide (xlt (finite d) init) then finite d else init) dists.
Proof. reflexivity. Qed.

Lemma running_min_le_init (dists : list R) (init : xfloat) :
  xle (running_min init dists) init.
Proof.
  revert init. induction dists as [| d dists IH]; intros init.
  - apply xle_refl.
  - rewrite running_min_cons.
    eapply xle_trans; [apply IH |].
    case_decide; [now apply xlt_xle | apply xle_refl].
Qed.

Lemma running_min_le_each (dists : list R) (init : xfloat) (d : R) :
  d ∈ dists -> xle (running_min init dists) (finite d).
Proof.
  revert init. induction dists as [| e dists IH]; intros init Hin.
  - inversion Hin.
  - rewrite running_min_cons.
    apply elem_of_cons in Hin as [-> | Hin].
    + eapply xle_trans; [apply running_min_le_init |].
      case_decide as Hlt; [apply xle_refl | exact Hlt].
    + now apply IH.
Qed.

Lemma running_min_attained (dists : list R) (init : xfloat) :
  running_min init dists = init
  \/ exists d, d ∈ dists /\ running_min init dists = finite d.
Proof.
  revert init. induction dists as [| e dists IH]; intros init.
  - now left.
  - rewrite running_min_cons.
    destruct (IH (if decide (xlt (finite e) init) then finite e else init))
      as [Heq | (d & Hd & Heq)].
    + rewrite Heq. case_decide.
      * right. exists e. split; [apply list_elem_of_here | reflexivity].
      * now left.
    + right. exists d. split; [now apply list_elem_of_further | exact Heq].
Qed.

Lemma getDistNearestCone_running_min (w : Waypoint.t) (cones : list Cone.t) :
  Waypoint.getDistNearestCone w cones
  = running_min infinity
      ((fun c => Waypoint.getDistanceTo w (Cone.x c) (Cone.y c)) <$> cones).
Proof.
  unfold Waypoint.getDistNearestCone, running_min.
  now rewrite foldl_fmap.
Qed.

Lemma closest_waypoint_running_min (w : Waypoint.t) (waypoints : list Point) :
  foldl (fun closest (p : Point) =>
           let dist := Waypoint.getDistanceTo w p.1 p.2 in
           if decide (xlt (finite dist) closest) then finite dist else closest)
        infinity waypoints
  = running_min infinity
      ((fun p : Point => Waypoint.getDistanceTo w p.1 p.2) <$> waypoints).
Proof. unfold running_min. now rewrite foldl_fmap. Qed.

Lemma triangulate_candidate_unfold params cones cone waypoints i :
  triangulate_candidate params cones cone waypoints i
  = if bool_decide (clear_of_cones params cones (candidate_position params cone i))
       && bool_decide (clear_of_waypoints params waypoints
                                          (candidate_position params cone i))
    then waypoints ++ [candidate_position params cone i]
    else waypoints.
Proof.
  unfold triangulate_candidate. cbv zeta.
  rewrite closest_waypoint_running_min. reflexivity.
Qed.

Lemma nearest_cone_is_min (p : Point) (cones : list Cone.t) (m : R) :
  min_cone_distance p cones m ->
  Waypoint.getDistNearestCone (Waypoint.make p.1 p.2) cones = finite m.
Proof.
  intros [Hlow (c & Hc & Hm)].
  rewrite getDistNearestCone_running_min.
  set (ds := (fun c0 => Waypoint.getDistanceTo (Waypoint.make p.1 p.2)
                          (Cone.x c0) (Cone.y c0)) <$> cones).
  assert (m ∈ ds) as Hin.
  { subst ds. apply list_elem_of_fmap. exists c. split; [| exact Hc].
    rewrite <- Hm. reflexivity. }
  pose proof (running_min_le_each ds infinity m Hin) as Hle.
  destruct (running_min_attained ds infinity) as [Heq | (d & Hd & Heq)].
  - rewrite Heq in Hle. unfold xle in Hle. simpl in Hle. tauto.
  - rewrite Heq in Hle |- *. unfold xle in Hle. simpl in Hle.
    subst ds. apply list_elem_of_fmap in Hd as (c' & -> & Hc').
    specialize (Hlow c' Hc').
    unfold distance_between, cone_point in Hlow. simpl in Hlow.
    unfold Waypoint.getDistanceTo in *. simpl in *.
    f_equal. lra.
Qed.

(** C9: a candidate whose least distance to the cones is exactly
    triangulation_min_cone_dist, or that lies at exactly
    triangulation_min_waypoint_dist from a waypoint accepted before it, is
    not appended: both comparisons are strict. *)
Theorem C9_boundary_candidate_excluded
    (params : TreeSearchParams) (cones : list Cone.t) (cone : Cone.t)
    (waypoints : list Point) (i : nat) :
  min_cone_distance (candidate_position params cone i) cones
                    (triangulation_min_cone_dist params)
  \/ (exists p, p ∈ waypoints
                /\ distance_between (candidate_position params cone i) p
                   = triangulation_min_waypoint_dist params) ->
  triangulate_candidate params cones cone waypoints i = waypoints.
Proof.
  intros Hboundary. rewrite triangulate_candidate_unfold.
  destruct Hboundary as [Hmin | (p & Hp & Hd)].
  - rewrite (bool_decide_eq_false_2 (clear_of_cones _ _ _)); [reflexivity |].
    unfold clear_of_cones. rewrite (nearest_cone_is_min _ _ _ Hmin).
    apply xlt_irrefl.
  - rewrite (bool_decide_eq_false_2 (clear_of_waypoints _ _ _)).
    { now rewrite andb_false_r. }
    unfold clear_of_waypoints, xgt. rewrite <- Hd.
    apply (running_min_le_each _ infinity).
    apply list_elem_of_fmap. now exists p.
Qed.

Lemma candidate_position_0 (params : TreeSearchParams) (cone : Cone.t) :
  candidate_position params cone 0
  = (Cone.x cone + triangulation_radius params, Cone.y cone).
Proof.
  unfold candidate_position, M_PI. simpl INR.
  replace (0 * PI / 4) with 0 by (unfold Rdiv; ring).
  rewrite cos_0, sin_0. f_equal; ring.
Qed.

Lemma distance_between_axis (a b c : R) :
  distance_between (a, c) (b, c) = Rabs (a - b).
Proof.
  unfold distance_between. simpl.
  replace (c - c) with 0 by ring. apply sqrt_axis.
Qed.

(** C9 at a cone in the origin: the first candidate, (1, 0), is at exactly
    the cone threshold 1; and with (3, 0) accepted before, at exactly the
    waypoint threshold 2. *)
Lemma C9_boundary_candidate_excluded_witness :
  triangulate_candidate (ring_params 1 2) [Cone.make 0 0] (Cone.make 0 0) [] 0
  = []
  /\ triangulate_candidate (ring_params (1 / 2) 2) [Cone.make 0 0]
                           (Cone.make 0 0) [(3, 0)] 0
     = [(3, 0)].
Proof.
  split.
  - apply C9_boundary_candidate_excluded. left.
    rewrite candidate_position_0. simpl.
    split.
    + intros c Hc. apply list_elem_of_singleton in Hc as ->.
      unfold cone_point. simpl. rewrite distance_between_axis.
      rewrite Rabs_pos_eq; lra.
    + exists (Cone.make 0 0). split; [apply list_elem_of_here |].
      unfold cone_point. simpl. rewrite distance_between_axis.
      rewrite Rabs_pos_eq; lra.
  - apply C9_boundary_candidate_excluded. right.
    rewrite candidate_position_0. simpl.
    exists (3, 0). split; [apply list_elem_of_here |].
    rewrite distance_between_axis.
    replace (0 + 1 - 3) with (- (2)) by ring.
    rewrite Rabs_Ropp. rewrite Rabs_pos_eq; lra.
Defined.

(** ** The frontier *)

Lemma for_range_0 {A} (body : nat -> A -> result A) (init : A) :
  for_range 0 body init = Ok init.
Proof. reflexivity. Qed.

Lemma for_range_S {A} (n : nat) (body : nat -> A -> result A) (init : A) :
  for_range (S n) body init = (a ← for_range n body init; body n a).
Proof.
  unfold for_range. rewrite seq_S, foldl_app. reflexivity.
Qed.

Lemma at_Some {A} (v : list A) (i : nat) (a : A) :
  v !! i = Some a -> at_ v i = Ok a.
Proof. unfold at_. now intros ->. Qed.

Lemma at_lt {A} (v : list A) (i : nat) :
  (i < length v)%nat -> exists a, v !! i = Some a /\ at_ v i = Ok a.
Proof.
  intros Hi. destruct (lookup_lt_is_Some_2 v i Hi) as [a Ha].
  exists a. split; [exact Ha | now apply at_Some].
Qed.

Section Scan.
Variable beats : relation xfloat.
Context `{!RelDecision beats}.
Hypothesis beats_irrefl : forall a, ~ beats a a.
Hypothesis beats_trans : forall a b c, beats a b -> beats b c -> beats a c.
Hypothesis beats_total : forall a b c, ~ beats a b -> beats c b -> beats c a.

Variable costs : list xfloat.

(** After [k] steps the scan holds the first extreme of the first [k]
    entries. *)
Lemma scan_prefix (k : nat) :
  (0 < k <= length costs)%nat ->
  exists w, for_range k (scan_body beats costs) 0%nat = Ok w
            /\ (w < k)%nat
            /\ exists cw, costs !! w = Some cw
                 /\ (forall i ci, (i < k)%nat -> costs !! i = Some ci ->
                                  ~ beats ci cw)
                 /\ (forall i ci, (i < w)%nat -> costs !! i = Some ci ->
                                  beats cw ci).
Proof.
  induction k as [| k IH]; intros Hk; [lia |].
  rewrite for_range_S.
  destruct (at_lt costs k ltac:(lia)) as (ck & Hck & Hatk).
  destruct k as [| k'].
  - rewrite for_range_0. simpl. unfold scan_body. rewrite Hatk. simpl.
    rewrite decide_False by apply beats_irrefl.
    exists 0%nat. split; [reflexivity |]. split; [lia |].
    exists ck. split; [exact Hck |]. split.
    + intros i ci Hi Hci. assert (i = 0%nat) as -> by lia.
      rewrite Hck in Hci. injection Hci as <-. apply beats_irrefl.
    + intros i ci Hi. lia.
  - destruct IH as (w & Hrun & Hw & cw & Hcw & Hmax & Hfirst); [lia |].
    rewrite Hrun. simpl. unfold scan_body.
    rewrite Hatk. simpl. rewrite (at_Some _ _ _ Hcw). simpl.
    destruct (decide (beats ck cw)) as [Hb | Hb].
    + exists (S k'). split; [reflexivity |]. split; [lia |].
      exists ck. split; [exact Hck |]. split.
      * intros i ci Hi Hci.
        destruct (decide (i = S k')) as [-> | Hne].
        -- rewrite Hck in Hci. injection Hci as <-. apply beats_irrefl.
        -- intros Hbi. apply (Hmax i ci ltac:(lia) Hci).
           eauto using beats_trans.
      * intros i ci Hi Hci.
        eapply beats_total; [apply (Hmax i ci Hi Hci) | exact Hb].
    + exists w. split; [reflexivity |]. split; [lia |].
      exists cw. split; [exact Hcw |]. split.
      * intros i ci Hi Hci.
        destruct (decide (i = S k')) as [-> | Hne].
        -- rewrite Hck in Hci. now injection Hci as <-.
        -- apply (Hmax i ci ltac:(lia) Hci).
      * exact Hfirst.
Qed.

Lemma scan_first_extreme :
  costs <> [] ->
  exists w, for_range (length costs) (scan_body beats costs) 0%nat = Ok w
            /\ (w < length costs)%nat
            /\ first_extreme beats costs w.
Proof.
  intros Hne.
  assert (0 < length costs)%nat as Hlen.
  { destruct costs; [congruence | simpl; lia]. }
  destruct (scan_prefix (length costs) ltac:(lia))
    as (w & Hrun & Hw & cw & Hcw & Hmax & Hfirst).
  exists w. split; [exact Hrun |]. split; [exact Hw |].
  exists cw. split; [exact Hcw |]. split; [| exact Hfirst].
  intros i ci Hci. apply (Hmax i ci); [| exact Hci].
  apply lookup_lt_is_Some_1. now exists ci.
Qed.

End Scan.

Lemma xgt_irrefl (a : xfloat) : ~ xgt a a.
Proof. apply xlt_irrefl. Qed.

Lemma xgt_trans (a b c : xfloat) : xgt a b -> xgt b c -> xgt a c.
Proof. unfold xgt. eauto using xlt_trans. Qed.

Lemma xgt_total (a b c : xfloat) : ~ xgt a b -> xgt c b -> xgt c a.
Proof. unfold xgt. destruct a, b, c; simpl; try tauto; lra. Qed.

Lemma xlt_total (a b c : xfloat) : ~ xlt a b -> xlt c b -> xlt c a.
Proof. destruct a, b, c; simpl; try tauto; lra. Qed.

Lemma getWorstPath_spec (q : PathQueue.t) :
  PathQueue.costs q <> [] ->
  exists w, PathQueue.getWorstPath q = Ok w
            /\ (w < length (PathQueue.costs q))%nat
            /\ first_extreme xgt (PathQueue.costs q) w.
Proof.
  intros Hne.
  apply (scan_first_extreme xgt xgt_irrefl xgt_trans xgt_total _ Hne).
Qed.

Lemma getBestPath_spec (q : PathQueue.t) :
  PathQueue.costs q <> [] ->
  exists b, PathQueue.getBestPath q = Ok b
            /\ (b < length (PathQueue.costs q))%nat
            /\ first_extreme xlt (PathQueue.costs q) b.
Proof.
  intros Hne.
  apply (scan_first_extreme xlt xlt_irrefl xlt_trans xlt_total _ Hne).
Qed.

Lemma set_at_lt {A} (v : list A) (i : nat) (a : A) :
  (i < length v)%nat -> set_at v i a = Ok (<[i := a]> v).
Proof. intros Hi. unfold set_at. now rewrite decide_True. Qed.

Lemma addNewPath_below (q : PathQueue.t) (p : Path.t) (c : xfloat) :
  (PathQueue.size q < PathQueue.PATH_QUEUE_LIMIT q)%nat ->
  PathQueue.addNewPath p c q
  = Ok (true, PathQueue.make (PathQueue.paths q ++ [p])
                             (PathQueue.costs q ++ [c])
                             (PathQueue.PATH_QUEUE_LIMIT q)).
Proof.
  unfold PathQueue.size, PathQueue.addNewPath. intros Hlt.
  now rewrite decide_False by lia.
Qed.

Lemma addNewPath_full (q : PathQueue.t) (p : Path.t) (c : xfloat) :
  parallel q ->
  PathQueue.costs q <> [] ->
  (PathQueue.PATH_QUEUE_LIMIT q <= PathQueue.size q)%nat ->
  exists w cw,
    first_extreme xgt (PathQueue.costs q) w
    /\ PathQueue.costs q !! w = Some cw
    /\ (w < PathQueue.size q)%nat
    /\ PathQueue.addNewPath p c q
       = if decide (xlt c cw)
         then Ok (true, PathQueue.make (<[w := p]> (PathQueue.paths q))
                                       (<[w := c]> (PathQueue.costs q))
                                       (PathQueue.PATH_QUEUE_LIMIT q))
         else Ok (false, q).
Proof.
  unfold PathQueue.size. intros Hpar Hne Hfull.
  destruct (getWorstPath_spec q Hne) as (w & Hrun & Hw & Hext).
  pose proof Hext as (cw & Hcw & _).
  exists w, cw. split; [exact Hext |]. split; [exact Hcw |].
  split; [unfold parallel in Hpar; lia |].
  unfold PathQueue.addNewPath.
  rewrite decide_True by lia.
  rewrite Hrun. simpl. rewrite (at_Some _ _ _ Hcw). simpl.
  unfold xgt.
  destruct (decide (xlt c cw)) as [Hlt | Hge]; [| reflexivity].
  unfold parallel in Hpar.
  rewrite (set_at_lt (PathQueue.paths q)) by lia. simpl.
  rewrite (set_at_lt (PathQueue.costs q)) by lia. reflexivity.
Qed.

(** C4: below capacity addNewPath appends the entry and accepts.  At
    capacity it finds the entry of maximum cost, the first one on ties; if
    the new cost is strictly less it overwrites that entry's path and cost
    and accepts, otherwise it rejects and returns the frontier as it was.
    The frontier is taken with its two vectors in parallel and a capacity
    of at least one. *)
Theorem C4_addNewPath_appends_or_replaces_worst
    (q : PathQueue.t) (p : Path.t) (c : xfloat) :
  parallel q ->
  (1 <= PathQueue.PATH_QUEUE_LIMIT q)%nat ->
  ((PathQueue.size q < PathQueue.PATH_QUEUE_LIMIT q)%nat ->
   PathQueue.addNewPath p c q
   = Ok (true, PathQueue.make (PathQueue.paths q ++ [p])
                              (PathQueue.costs q ++ [c])
                              (PathQueue.PATH_QUEUE_LIMIT q)))
  /\ ((PathQueue.PATH_QUEUE_LIMIT q <= PathQueue.size q)%nat ->
      exists w cw,
        first_extreme xgt (PathQueue.costs q) w
        /\ PathQueue.costs q !! w = Some cw
        /\ (xlt c cw ->
            PathQueue.addNewPath p c q
            = Ok (true, PathQueue.make (<[w := p]> (PathQueue.paths q))
                                       (<[w := c]> (PathQueue.costs q))
                                       (PathQueue.PATH_QUEUE_LIMIT q)))
        /\ (~ xlt c cw -> PathQueue.addNewPath p c q = Ok (false, q))).
Proof.
  intros Hpar Hcap. split.
  - apply addNewPath_below.
  - intros Hfull.
    assert (PathQueue.costs q <> []) as Hne.
    { unfold parallel, PathQueue.size in *.
      destruct (PathQueue.costs q); [simpl in *; lia | discriminate]. }
    destruct (addNewPath_full q p c Hpar Hne Hfull)
      as (w & cw & Hext & Hcw & _ & Hrun).
    exists w, cw. split; [exact Hext |]. split; [exact Hcw |].
    split; intros Hc; rewrite Hrun.
    + now rewrite decide_True.
    + now rewrite decide_False.
Qed.

(** C4 on a full frontier of capacity two holding costs 1 and 3, offered a
    path at cost 2. *)
Lemma C4_addNewPath_witness :
  parallel full_frontier
  /\ (1 <= PathQueue.PATH_QUEUE_LIMIT full_frontier)%nat
  /\ exists w cw,
      first_extreme xgt (PathQueue.costs full_frontier) w
      /\ PathQueue.costs full_frontier !! w = Some cw
      /\ (xlt (finite 2) cw ->
          PathQueue.addNewPath Path.new (finite 2) full_frontier
          = Ok (true,
                PathQueue.make
                  (<[w := Path.new]> (PathQueue.paths full_frontier))
                  (<[w := finite 2]> (PathQueue.costs full_frontier))
                  (PathQueue.PATH_QUEUE_LIMIT full_frontier)))
      /\ (~ xlt (finite 2) cw ->
          PathQueue.addNewPath Path.new (finite 2) full_frontier
          = Ok (false, full_frontier)).
Proof.
  assert (parallel full_frontier) as Hpar by reflexivity.
  assert (1 <= PathQueue.PATH_QUEUE_LIMIT full_frontier)%nat as Hcap
    by (simpl; lia).
  split; [exact Hpar |]. split; [exact Hcap |].
  apply (C4_addNewPath_appends_or_replaces_worst
           full_frontier Path.new (finite 2) Hpar Hcap).
  unfold PathQueue.size. simpl. lia.
Defined.

(** ** The search: total-correctness triples *)

Lemma triple_ret {A} (P : search_state -> Prop) (a : A)
    (Q : A -> search_state -> Prop) :
  (forall s, P s -> Q a s) -> triple P (mret a) Q.
Proof. intros HQ s Hs. exists a, s. split; [reflexivity | now apply HQ]. Qed.

Lemma triple_bind {A B} (P : search_state -> Prop) (m : search A)
    (Q : A -> search_state -> Prop) (k : A -> search B)
    (R : B -> search_state -> Prop) :
  triple P m Q -> (forall a, triple (Q a) (k a) R) -> triple P (m ≫= k) R.
Proof.
  intros Hm Hk s Hs.
  destruct (Hm s Hs) as (a & s1 & Hrun & Hq).
  destruct (Hk a s1 Hq) as (b & s2 & Hrun2 & Hr).
  exists b, s2. split; [| exact Hr].
  unfold mbind, search_bind. now rewrite Hrun.
Qed.

Lemma triple_weaken {A} (P P' : search_state -> Prop) (m : search A)
    (Q Q' : A -> search_state -> Prop) :
  triple P' m Q' -> (forall s, P s -> P' s) -> (forall a s, Q' a s -> Q a s) ->
  triple P m Q.
Proof.
  intros Hm HP HQ s Hs.
  destruct (Hm s (HP s Hs)) as (a & s' & Hrun & Hq). eauto.
Qed.

Lemma triple_lift {A} (P : search_state -> Prop) (r : result A) (a : A)
    (Q : A -> search_state -> Prop) :
  r = Ok a -> (forall s, P s -> Q a s) -> triple P (lift r) Q.
Proof.
  intros -> HQ s Hs. exists a, s. split; [reflexivity | now apply HQ].
Qed.

Lemma for_each_S {A} (n : nat) (body : nat -> A -> search A) (init : A) :
  for_each (S n) body init = (a ← for_each n body init; body n a).
Proof. unfold for_each. rewrite seq_S, foldl_app. reflexivity. Qed.

(** The loop rule: [I i a] holds before step [i] with accumulator [a]. *)
Lemma triple_for_each {A} (n : nat) (body : nat -> A -> search A) (init : A)
    (I : nat -> A -> search_state -> Prop) :
  (forall i a, (i < n)%nat -> triple (I i a) (body i a) (I (S i))) ->
  triple (I 0%nat init) (for_each n body init) (I n).
Proof.
  induction n as [| n IH]; intros Hbody.
  - apply triple_ret. auto.
  - rewrite for_each_S.
    eapply triple_bind.
    + apply IH. intros i a Hi. apply Hbody. lia.
    + intros a. apply Hbody. lia.
Qed.

(** *** The invariant of the frontier *)

Lemma addNewPath_pure_size (q q' : PathQueue.t) (p : Path.t) (c : xfloat)
    (accepted : bool) :
  PathQueue.addNewPath p c q = Ok (accepted, q') ->
  PathQueue.PATH_QUEUE_LIMIT q' = PathQueue.PATH_QUEUE_LIMIT q
  /\ (parallel q -> parallel q')
  /\ (PathQueue.size q <= PathQueue.size q')%nat
  /\ ((PathQueue.size q <= PathQueue.PATH_QUEUE_LIMIT q)%nat ->
      (PathQueue.size q' <= PathQueue.PATH_QUEUE_LIMIT q)%nat)
  /\ ((PathQueue.size q < PathQueue.PATH_QUEUE_LIMIT q)%nat ->
      accepted = true /\ PathQueue.size q' = S (PathQueue.size q))
  /\ (accepted = true ->
      (PathQueue.PATH_QUEUE_LIMIT q <= PathQueue.size q)%nat ->
      PathQueue.size q' = PathQueue.size q).
Proof.
  unfold PathQueue.addNewPath, PathQueue.size, parallel.
  destruct (decide (PathQueue.PATH_QUEUE_LIMIT q <= length (PathQueue.paths q))%nat)
    as [Hfull | Hroom].
  - destruct (PathQueue.getWorstPath q) as [w |]; simpl; [| discriminate].
    destruct (at_ (PathQueue.costs q) w) as [cw |]; simpl; [| discriminate].
    destruct (decide (xgt cw c)) as [Hgt | Hle].
    + unfold set_at.
      destruct (decide (w < length (PathQueue.paths q))%nat); simpl;
        [| discriminate].
      destruct (decide (w < length (PathQueue.costs q))%nat); simpl;
        [| discriminate].
      intros [= <- <-]. simpl. rewrite !length_insert.
      repeat split; try lia.
    + intros [= <- <-]. repeat split; try lia; discriminate.
  - intros [= <- <-]. simpl. rewrite !length_app. simpl.
    repeat split; try lia.
Qed.

Lemma addNewPath_pure_ok (q : PathQueue.t) (p : Path.t) (c : xfloat) :
  parallel q ->
  (1 <= PathQueue.PATH_QUEUE_LIMIT q)%nat ->
  exists accepted q', PathQueue.addNewPath p c q = Ok (accepted, q').
Proof.
  intros Hpar Hcap.
  destruct (decide (PathQueue.size q < PathQueue.PATH_QUEUE_LIMIT q)%nat)
    as [Hroom | Hfull].
  - rewrite addNewPath_below by exact Hroom. eauto.
  - assert (PathQueue.costs q <> []) as Hne.
    { unfold parallel, PathQueue.size in *.
      destruct (PathQueue.costs q); [simpl in *; lia | discriminate]. }
    destruct (addNewPath_full q p c Hpar Hne ltac:(lia))
      as (w & cw & _ & _ & _ & Hrun).
    rewrite Hrun. case_decide; eauto.
Qed.

Lemma filterLocal_length (points : list Point) (fov maxDist x y heading : R) :
  (length (filterLocal points fov maxDist x y heading) <= length points)%nat.
Proof. rewrite filterLocal_filter. apply length_filter. Qed.

Section Invariant.
Context `{PathExternals}.
Variable ts : TreeSearch.t.
Variable K : nat.
Hypothesis capacity_positive : (1 <= K)%nat.

Lemma addNewPath_triple (p : Path.t) (c : xfloat) :
  triple (frontier_inv K) (addNewPath p c)
         (fun _ s' => frontier_inv K s' /\ size_at_least 1 s').
Proof.
  intros [q h] (Hpar & HK & Hsize & Hhist). simpl in *.
  destruct (addNewPath_pure_ok q p c Hpar ltac:(lia)) as (acc & q' & Hrun).
  destruct (addNewPath_pure_size q q' p c acc Hrun)
    as (HK' & Hpar' & Hmono & Hbound & Hroom & _).
  exists acc, {| path_queue := q'; history := h ++ [Offered q p c acc q'] |}.
  split.
  - unfold addNewPath, mbind, search_bind, get_queue, lift. simpl.
    rewrite Hrun. reflexivity.
  - unfold frontier_inv, size_at_least. simpl.
    assert (PathQueue.size q' <= K)%nat by lia.
    repeat split; try tauto; try lia.
    apply Forall_app. split; [exact Hhist |].
    apply Forall_singleton. unfold frontier_ok. simpl.
    repeat split; try tauto; lia.
Qed.

Lemma dequeue_triple :
  triple (fun s => frontier_inv K s /\ size_at_least 1 s) dequeue
         (fun _ s' => frontier_inv K s').
Proof.
  intros [[ps cs L] h] ((Hpar & HK & Hsize & Hhist) & Hone).
  unfold size_at_least, parallel, PathQueue.size in *. simpl in *.
  destruct ps as [| p ps]; [simpl in Hone; lia |].
  destruct cs as [| c cs]; [discriminate |].
  exists (p, c),
    {| path_queue := PathQueue.make ps cs L;
       history := h ++ [Dequeued (PathQueue.make (p :: ps) (c :: cs) L) p c
                                 (PathQueue.make ps cs L)] |}.
  split; [reflexivity |].
  unfold frontier_inv, parallel, PathQueue.size. simpl in *.
  repeat split; try lia.
  apply Forall_app. split; [exact Hhist |].
  apply Forall_singleton. simpl.
  unfold frontier_ok, parallel, PathQueue.size. simpl.
  repeat split; lia.
Qed.

Lemma branch_triple (curr_path : Path.t) (possible : list Point) (k : nat)
    (flags : bool * bool) :
  (k < length possible)%nat ->
  (length possible <= length (TreeSearch.waypoints ts))%nat ->
  triple (fun s => frontier_inv K s
                   /\ (flags.2 = true -> size_at_least 1 s))
         (branch ts curr_path possible k flags)
         (fun flags' s' => frontier_inv K s'
                           /\ (flags'.2 = true -> size_at_least 1 s')).
Proof.
  intros Hk Hlen. unfold branch.
  destruct (at_lt possible k Hk) as (cand & _ & Hcand).
  destruct (at_lt (TreeSearch.waypoints ts) k ltac:(lia)) as (w & _ & Hw).
  eapply triple_bind.
  { apply (triple_lift _ _ _ _ Hcand). intros s Hs. exact Hs. }
  intros cand'. cbv beta.
  destruct (Path.hasWaypoint curr_path _).
  { apply triple_ret. auto. }
  eapply triple_bind.
  { apply (triple_lift _ _ _ _ Hw). intros s Hs. exact Hs. }
  intros w'. cbv beta zeta.
  eapply triple_bind.
  { eapply triple_weaken; [apply addNewPath_triple | |].
    - intros s [Hs _]. exact Hs.
    - intros a s Hs. exact Hs. }
  intros [|]; apply triple_ret; intros s [Hinv Hone]; simpl; tauto.
Qed.

Lemma expand_triple (no_new_paths : bool) :
  triple (fun s => frontier_inv K s /\ size_at_least 1 s)
         (expand ts no_new_paths)
         (fun _ s' => frontier_inv K s' /\ size_at_least 1 s').
Proof.
  unfold expand.
  eapply triple_bind; [apply dequeue_triple |].
  intros [curr_path curr_cost]. cbv beta iota.
  case_decide.
  { eapply triple_bind; [apply addNewPath_triple |].
    intros ?. apply triple_ret. auto. }
  cbv zeta.
  set (possible := filterLocal _ _ _ _ _ _).
  eapply triple_bind.
  { eapply triple_weaken.
    - apply (triple_for_each (length possible)
               (branch ts curr_path possible) (no_new_paths, false)
               (fun _ flags s => frontier_inv K s
                                 /\ (flags.2 = true -> size_at_least 1 s))).
      intros k flags Hk. apply branch_triple; [exact Hk |].
      apply filterLocal_length.
    - intros s Hs. simpl. split; [exact Hs | discriminate].
    - intros a s Hs. exact Hs. }
  intros [no_new added]. cbv beta iota.
  destruct added; simpl.
  - apply triple_ret. intros s [Hinv Hone]. auto.
  - eapply triple_bind.
    + eapply triple_weaken; [apply addNewPath_triple | |].
      * intros s [Hs _]. exact Hs.
      * intros a s Hs. exact Hs.
    + intros ?. apply triple_ret. auto.
Qed.

Lemma round_triple :
  triple (fun s => frontier_inv K s /\ size_at_least 1 s) (round ts)
         (fun _ s' => frontier_inv K s' /\ size_at_least 1 s').
Proof.
  intros [q h] (Hinv & Hone).
  pose proof Hinv as (Hpar & HK & Hsize & Hhist).
  unfold round, mbind, search_bind, get_queue, record. simpl in *.
  apply (triple_for_each (length (PathQueue.paths q)) (fun _ => expand ts) true
           (fun _ _ s => frontier_inv K s /\ size_at_least 1 s)).
  - intros i a _. apply expand_triple.
  - unfold frontier_inv, size_at_least in *. simpl in *.
    repeat split; try tauto.
    apply Forall_app. split; [exact Hhist |].
    apply Forall_singleton. unfold frontier_ok. simpl.
    repeat split; try tauto; lia.
Qed.

Lemma rounds_triple (n : nat) :
  triple (fun s => frontier_inv K s /\ size_at_least 1 s) (rounds ts n)
         (fun _ s' => frontier_inv K s' /\ size_at_least 1 s').
Proof.
  induction n as [| n IH]; simpl.
  - apply triple_ret. auto.
  - eapply triple_bind; [apply round_triple |].
    intros [|]; [apply triple_ret; auto | exact IH].
Qed.

Lemma select_best_triple :
  triple (fun s => frontier_inv K s /\ size_at_least 1 s) select_best
         (fun _ s' => frontier_inv K s'
                      /\ exists q b, last (history s') = Some (Selected q b)).
Proof.
  intros [q h] (Hinv & Hone).
  pose proof Hinv as (Hpar & HK & Hsize & Hhist).
  unfold size_at_least, parallel, PathQueue.size in *. simpl in *.
  assert (PathQueue.costs q <> []) as Hne.
  { destruct (PathQueue.costs q); [simpl in *; lia | discriminate]. }
  destruct (getBestPath_spec q Hne) as (b & Hb & Hlt & _).
  destruct (at_lt (PathQueue.paths q) b ltac:(lia)) as (best & _ & Hbest).
  exists (Path.createCopy best),
    {| path_queue := q; history := h ++ [Selected q b] |}.
  split.
  - unfold select_best, mbind, search_bind, get_queue, lift, record. simpl.
    rewrite Hb. simpl. rewrite Hbest. reflexivity.
  - unfold frontier_inv. simpl. split.
    + repeat split; try tauto.
      apply Forall_app. split; [exact Hhist |].
      apply Forall_singleton. simpl.
      unfold frontier_ok, parallel, PathQueue.size. lia.
    + exists q, b. apply last_snoc.
Qed.
End Invariant.

Lemma initial_state_inv `{PathExternals} (ts : TreeSearch.t) :
  frontier_inv (path_queue_limit (TreeSearch.params ts)) (initial_state ts).
Proof.
  unfold frontier_inv, initial_state, parallel, PathQueue.size. simpl.
  repeat split; [lia | constructor].
Qed.

(** The search runs to its end without fault, every step it records
    respects the capacity and takes the front of a non-empty frontier, and
    its last step selects an entry. *)
Lemma getPath_run_ok `{PathExternals} (ts : TreeSearch.t) :
  (1 <= path_queue_limit (TreeSearch.params ts))%nat ->
  exists p log,
    getPath_run ts = Ok (p, log)
    /\ Forall (event_ok (path_queue_limit (TreeSearch.params ts))) log
    /\ exists q b, last log = Some (Selected q b).
Proof.
  intros HK.
  set (K := path_queue_limit (TreeSearch.params ts)) in *.
  assert (triple (frontier_inv K) (getPath_search ts)
                 (fun _ s' => frontier_inv K s'
                    /\ exists q b, last (history s') = Some (Selected q b)))
    as Hrun.
  { unfold getPath_search. cbv zeta.
    eapply triple_bind; [apply addNewPath_triple; exact HK |].
    intros ?.
    eapply triple_bind; [apply rounds_triple; exact HK |].
    intros ?. apply select_best_triple. exact HK. }
  destruct (Hrun (initial_state ts) (initial_state_inv ts))
    as (p & s' & Hp & Hinv & Hlast).
  exists p, (history s'). split; [| split].
  - unfold getPath_run. rewrite Hp. reflexivity.
  - apply Hinv.
  - exact Hlast.
Qed.

(** *** The frontiers of an event *)

Lemma event_ok_frontiers (K : nat) (e : event) (q : PathQueue.t) :
  event_ok K e -> q ∈ frontiers_of e -> frontier_ok K q.
Proof.
  destruct e; simpl; intros Hok Hq;
    repeat (apply elem_of_cons in Hq as [-> | Hq]); try tauto;
    inversion Hq.
Qed.

(** ** Running the search on given data *)

Lemma bind_run {A B} (m : search A) (k : A -> search B)
    (s s' : search_state) (a : A) :
  m s = Ok (a, s') -> (m ≫= k) s = k a s'.
Proof. intros Hm. unfold mbind, search_bind. now rewrite Hm. Qed.

Lemma addNewPath_run (p : Path.t) (c : xfloat) (q q' : PathQueue.t)
    (h : list event) (accepted : bool) :
  PathQueue.addNewPath p c q = Ok (accepted, q') ->
  addNewPath p c {| path_queue := q; history := h |}
  = Ok (accepted,
        {| path_queue := q'; history := h ++ [Offered q p c accepted q'] |}).
Proof.
  intros Hrun.
  unfold addNewPath, mbind, search_bind, get_queue, lift. simpl.
  now rewrite Hrun.
Qed.

Lemma dequeue_run (p : Path.t) (ps : list Path.t) (c : xfloat)
    (cs : list xfloat) (L : nat) (h : list event) :
  dequeue {| path_queue := PathQueue.make (p :: ps) (c :: cs) L; history := h |}
  = Ok ((p, c),
        {| path_queue := PathQueue.make ps cs L;
           history := h ++ [Dequeued (PathQueue.make (p :: ps) (c :: cs) L) p c
                                     (PathQueue.make ps cs L)] |}).
Proof. reflexivity. Qed.

Lemma getBestPath_single (p : Path.t) (c : xfloat) (L : nat) :
  PathQueue.getBestPath (PathQueue.make [p] [c] L) = Ok 0%nat.
Proof.
  unfold PathQueue.getBestPath. simpl.
  unfold for_range. simpl.
  now rewrite decide_False by apply xlt_irrefl.
Qed.

(** ** The search: triples for the runs that return *)

Lemma ptriple_ret {A} (P : search_state -> Prop) (a : A)
    (Q : A -> search_state -> Prop) :
  (forall s, P s -> Q a s) -> ptriple P (mret a) Q.
Proof. intros HQ s a' s' Hs [= <- <-]. now apply HQ. Qed.

Lemma ptriple_bind {A B} (P : search_state -> Prop) (m : search A)
    (Q : A -> search_state -> Prop) (k : A -> search B)
    (R : B -> search_state -> Prop) :
  ptriple P m Q -> (forall a, ptriple (Q a) (k a) R) -> ptriple P (m ≫= k) R.
Proof.
  intros Hm Hk s b s2 Hs Hrun.
  unfold mbind, search_bind in Hrun.
  destruct (m s) as [[a s1] |] eqn:Hms; [| discriminate].
  apply (Hk a s1 b s2); [| exact Hrun].
  apply (Hm s a s1 Hs Hms).
Qed.

Lemma ptriple_lift {A} (P : search_state -> Prop) (r : result A) :
  ptriple P (lift r) (fun _ s => P s).
Proof.
  intros s a s' Hs Hrun. unfold lift in Hrun.
  destruct r; [| discriminate]. now injection Hrun as <- <-.
Qed.

Lemma ptriple_for_each {A} (n : nat) (body : nat -> A -> search A) (init : A)
    (I : nat -> A -> search_state -> Prop) :
  (forall i a, (i < n)%nat -> ptriple (I i a) (body i a) (I (S i))) ->
  ptriple (I 0%nat init) (for_each n body init) (I n).
Proof.
  induction n as [| n IH]; intros Hbody.
  - apply ptriple_ret. auto.
  - rewrite for_each_S.
    eapply ptriple_bind.
    + apply IH. intros i a Hi. apply Hbody. lia.
    + intros a. apply Hbody. lia.
Qed.

Lemma triple_ptriple {A} (P P' : search_state -> Prop) (m : search A)
    (Q Q' : A -> search_state -> Prop) :
  triple P m Q -> ptriple P' m Q' ->
  triple (fun s => P s /\ P' s) m (fun a s => Q a s /\ Q' a s).
Proof.
  intros Ht Hp s [Hs Hs'].
  destruct (Ht s Hs) as (a & s' & Hrun & Hq).
  exists a, s'. split; [exact Hrun |]. split; [exact Hq |].
  apply (Hp s a s' Hs' Hrun).
Qed.

(** The two state changes, read backwards. *)
Lemma addNewPath_run_inv (p : Path.t) (c : xfloat) (s s' : search_state)
    (accepted : bool) :
  addNewPath p c s = Ok (accepted, s') ->
  PathQueue.addNewPath p c (path_queue s) = Ok (accepted, path_queue s')
  /\ history s'
     = history s ++ [Offered (path_queue s) p c accepted (path_queue s')].
Proof.
  unfold addNewPath, mbind, search_bind, get_queue, lift. simpl.
  destruct (PathQueue.addNewPath p c (path_queue s)) as [[acc q'] |];
    [| discriminate].
  simpl. intros [= <- <-]. simpl. auto.
Qed.

Lemma dequeue_run_inv (s s' : search_state) (p : Path.t) (c : xfloat) :
  dequeue s = Ok ((p, c), s') ->
  PathQueue.paths (path_queue s) = p :: PathQueue.paths (path_queue s')
  /\ history s' = history s ++ [Dequeued (path_queue s) p c (path_queue s')].
Proof.
  destruct s as [[ps cs L] h].
  unfold dequeue, mbind, search_bind, get_queue, lift. simpl.
  destruct ps as [| p0 ps]; [discriminate |].
  destruct cs as [| c0 cs]; [discriminate |].
  simpl. intros [= <- <- <-]. simpl. auto.
Qed.

(** What addNewPath can have done to the paths. *)
Lemma addNewPath_pure_cases (q q' : PathQueue.t) (p : Path.t) (c : xfloat)
    (accepted : bool) :
  PathQueue.addNewPath p c q = Ok (accepted, q') ->
  (accepted = true /\ PathQueue.paths q' = PathQueue.paths q ++ [p]
   /\ (PathQueue.size q < PathQueue.PATH_QUEUE_LIMIT q)%nat)
  \/ (accepted = true /\ PathQueue.size q' = PathQueue.size q)
  \/ (accepted = false /\ q' = q).
Proof.
  intros Hrun.
  destruct (addNewPath_pure_size q q' p c accepted Hrun)
    as (_ & _ & _ & _ & _ & Hrepl).
  revert Hrun. unfold PathQueue.addNewPath.
  destruct (decide (PathQueue.PATH_QUEUE_LIMIT q <= length (PathQueue.paths q))%nat)
    as [Hfull | Hroom].
  - destruct accepted.
    + intros _. right. left. split; [reflexivity |]. now apply Hrepl.
    + destruct (PathQueue.getWorstPath q) as [w |]; simpl; [| discriminate].
      destruct (at_ (PathQueue.costs q) w) as [cw |]; simpl; [| discriminate].
      destruct (decide (xgt cw c)).
      * destruct (set_at (PathQueue.paths q) w p); simpl; [| discriminate].
        destruct (set_at (PathQueue.costs q) w c); simpl; discriminate.
      * intros [= <-]. right. right. auto.
  - intros [= <- <-]. left. unfold PathQueue.size. simpl.
    repeat split. lia.
Qed.

(** ** Running the search step by step *)

Lemma for_each_run_0 {A} (body : nat -> A -> search A) (init : A)
    (s : search_state) :
  for_each 0 body init s = Ok (init, s).
Proof. reflexivity. Qed.

Lemma for_each_run_S {A} (n : nat) (body : nat -> A -> search A) (init a : A)
    (s s1 : search_state) (r : result (A * search_state)) :
  for_each n body init s = Ok (a, s1) ->
  body n a s1 = r ->
  for_each (S n) body init s = r.
Proof. intros Hn <-. rewrite for_each_S. now apply bind_run. Qed.

Lemma within_distance_axis (x y D px : R) :
  within_distance x y D (px, y) <-> - D <= px - x <= D.
Proof.
  unfold within_distance. simpl.
  replace (y - y) with 0 by ring. rewrite sqrt_axis.
  split; [| apply Rabs_le].
  unfold Rabs. destruct (Rcase_abs (px - x)); lra.
Qed.

Lemma hasWaypoint_nil (w : Waypoint.t) : Path.hasWaypoint (Path.make []) w = false.
Proof.
  unfold Path.hasWaypoint. apply bool_decide_eq_false_2.
  simpl. intros Hex. inversion Hex.
Qed.

Lemma hasWaypoint_cons (v : Waypoint.t) (vs : list Waypoint.t) (w : Waypoint.t) :
  Path.hasWaypoint (Path.make (v :: vs)) w
  = bool_decide (Path.same_position v w) || Path.hasWaypoint (Path.make vs) w.
Proof.
  unfold Path.hasWaypoint. simpl.
  destruct (decide (Path.same_position v w)) as [Hv | Hv].
  - rewrite (bool_decide_eq_true_2 (Path.same_position v w)) by exact Hv.
    simpl. apply bool_decide_eq_true_2. now constructor.
  - rewrite (bool_decide_eq_false_2 (Path.same_position v w)) by exact Hv.
    simpl. apply bool_decide_ext. rewrite Exists_cons. tauto.
Qed.

Section Stepping.
Context `{PathExternals}.
Variable ts : TreeSearch.t.

Lemma round_unfold (q : PathQueue.t) (h : list event) :
  round ts {| path_queue := q; history := h |}
  = for_each (length (PathQueue.paths q)) (fun _ => expand ts) true
      {| path_queue := q; history := h ++ [RoundStart q] |}.
Proof. reflexivity. Qed.

Lemma expand_run (no_new_paths : bool) (p : Path.t) (ps : list Path.t)
    (c : xfloat) (cs : list xfloat) (L : nat) (h : list event)
    (possible : list Point) (flags : bool * bool) (s2 : search_state)
    (r : result (bool * search_state)) :
  ~ (max_waypoints_per_path (TreeSearch.params ts)
     < length (Path.waypoints p))%nat ->
  filterLocal (TreeSearch.waypoints ts)
              (waypoint_field_of_view (TreeSearch.params ts))
              (waypoint_distance (TreeSearch.params ts))
              (Waypoint.x (back p)) (Waypoint.y (back p))
              (Waypoint.heading (back p)) = possible ->
  for_each (length possible) (branch ts p possible) (no_new_paths, false)
    {| path_queue := PathQueue.make ps cs L;
       history := h ++ [Dequeued (PathQueue.make (p :: ps) (c :: cs) L) p c
                                 (PathQueue.make ps cs L)] |}
  = Ok (flags, s2) ->
  (if negb flags.2
   then (_ ← addNewPath p c; mret flags.1)
   else mret flags.1) s2 = r ->
  expand ts no_new_paths
    {| path_queue := PathQueue.make (p :: ps) (c :: cs) L; history := h |}
  = r.
Proof.
  intros Hcap Hvis Hloop <-. unfold expand.
  erewrite bind_run by apply dequeue_run. cbv beta iota.
  rewrite decide_False by exact Hcap. cbv zeta.
  rewrite Hvis.
  erewrite bind_run by exact Hloop.
  destruct flags as [nn added]. reflexivity.
Qed.

Lemma branch_skip (curr_path : Path.t) (possible : list Point) (k : nat)
    (flags : bool * bool) (s : search_state) (candidate : Point) :
  possible !! k = Some candidate ->
  Path.hasWaypoint curr_path (Waypoint.make candidate.1 candidate.2) = true ->
  branch ts curr_path possible k flags s = Ok (flags, s).
Proof.
  intros Hk Hhas. unfold branch.
  erewrite bind_run by (unfold lift; rewrite (at_Some _ _ _ Hk); reflexivity).
  now rewrite Hhas.
Qed.

Lemma branch_offer (curr_path : Path.t) (possible : list Point) (k : nat)
    (flags : bool * bool) (q q' : PathQueue.t) (h : list event)
    (candidate appended : Point) (accepted : bool) :
  possible !! k = Some candidate ->
  Path.hasWaypoint curr_path (Waypoint.make candidate.1 candidate.2) = false ->
  TreeSearch.waypoints ts !! k = Some appended ->
  let new_path :=
    addWaypoint (Path.createCopy curr_path) appended.1 appended.2 in
  PathQueue.addNewPath new_path (getCost new_path) q = Ok (accepted, q') ->
  branch ts curr_path possible k flags {| path_queue := q; history := h |}
  = Ok (if accepted then (false, true) else flags,
        {| path_queue := q';
           history := h ++ [Offered q new_path (getCost new_path) accepted q'] |}).
Proof.
  intros Hk Hhas Hw new_path Hadd. unfold branch.
  erewrite bind_run by (unfold lift; rewrite (at_Some _ _ _ Hk); reflexivity).
  rewrite Hhas.
  erewrite bind_run by (unfold lift; rewrite (at_Some _ _ _ Hw); reflexivity).
  cbv zeta. fold new_path.
  erewrite bind_run by (apply addNewPath_run; exact Hadd).
  now destruct accepted.
Qed.
End Stepping.

(** ** triangulate on given cones *)

Lemma running_min_gt (dists : list R) (init : xfloat) (t : R) :
  xgt (running_min init dists) (finite t)
  <-> xgt init (finite t) /\ forall d, d ∈ dists -> t < d.
Proof.
  revert init. induction dists as [| e dists IH]; intros init.
  - simpl. split; [intros Hgt; split; [exact Hgt |] | tauto].
    intros d Hd. inversion Hd.
  - rewrite running_min_cons, IH. unfold xgt.
    split.
    + intros [Hinit Hall]. case_decide as Hlt.
      * split; [eapply xlt_trans; eassumption |].
        intros d Hd. apply elem_of_cons in Hd as [-> | Hd]; auto.
      * split; [exact Hinit |].
        intros d Hd. apply elem_of_cons in Hd as [-> | Hd]; [| auto].
        destruct init as [v |]; simpl in *; [lra | tauto].
    + intros [Hinit Hall]. split.
      * case_decide; [simpl; apply Hall, list_elem_of_here | exact Hinit].
      * intros d Hd. apply Hall. now apply list_elem_of_further.
Qed.

Lemma clear_of_cones_iff (params : TreeSearchParams) (cones : list Cone.t)
    (p : Point) :
  clear_of_cones params cones p
  <-> forall c, c ∈ cones ->
        triangulation_min_cone_dist params < distance_between p (cone_point c).
Proof.
  unfold clear_of_cones.
  rewrite getDistNearestCone_running_min, running_min_gt.
  split.
  - intros [_ Hall] c Hc. apply Hall.
    apply list_elem_of_fmap. now exists c.
  - intros Hall. split; [exact I |].
    intros d Hd. apply list_elem_of_fmap in Hd as (c & -> & Hc).
    now apply Hall.
Qed.

Lemma clear_of_waypoints_iff (params : TreeSearchParams)
    (waypoints : list Point) (p : Point) :
  clear_of_waypoints params waypoints p
  <-> forall w, w ∈ waypoints ->
        triangulation_min_waypoint_dist params < distance_between p w.
Proof.
  unfold clear_of_waypoints. rewrite running_min_gt.
  split.
  - intros [_ Hall] w Hw. apply Hall.
    apply list_elem_of_fmap. now exists w.
  - intros Hall. split; [exact I |].
    intros d Hd. apply list_elem_of_fmap in Hd as (w & -> & Hw).
    now apply Hall.
Qed.

Lemma sqrt_le_of_square (a b : R) : 0 <= b -> a <= b * b -> sqrt a <= b.
Proof.
  intros Hb Hab. rewrite <- (sqrt_square b Hb).
  now apply sqrt_le_1_alt.
Qed.

(** Every candidate of a ring is within its diameter of the first one. *)
Lemma candidate_near_first (params : TreeSearchParams) (cone : Cone.t)
    (i : nat) :
  0 <= triangulation_radius params ->
  distance_between (candidate_position params cone i)
                   (candidate_position params cone 0)
  <= 2 * triangulation_radius params.
Proof.
  intros Hr. rewrite candidate_position_0.
  unfold candidate_position, distance_between. simpl.
  set (r := triangulation_radius params) in *.
  set (a := INR i * M_PI / 4).
  pose proof (sin2_cos2 a) as Hunit. unfold Rsqr in Hunit.
  pose proof (COS_bound a) as [Hlow _].
  apply sqrt_le_of_square; [lra |].
  replace ((Cone.x cone + r * cos a - (Cone.x cone + r))
           * (Cone.x cone + r * cos a - (Cone.x cone + r))
           + (Cone.y cone + r * sin a - Cone.y cone)
             * (Cone.y cone + r * sin a - Cone.y cone))
    with (r * r * (sin a * sin a + cos a * cos a + 1 - 2 * cos a)) by ring.
  rewrite Hunit. nra.
Qed.

(** With the first candidate accepted and a waypoint threshold of at least
    the diameter, the seven others of the ring are turned down. *)
Lemma ring_rest_rejected (params : TreeSearchParams) (cones : list Cone.t)
    (cone : Cone.t) (waypoints : list Point) (steps : list nat) :
  0 <= triangulation_radius params ->
  2 * triangulation_radius params <= triangulation_min_waypoint_dist params ->
  candidate_position params cone 0 ∈ waypoints ->
  foldl (triangulate_candidate params cones cone) waypoints steps = waypoints.
Proof.
  intros Hr Hwide Hin.
  induction steps as [| i steps IH]; [reflexivity |].
  simpl. rewrite triangulate_candidate_unfold.
  rewrite (bool_decide_eq_false_2 (clear_of_waypoints _ _ _)).
  - rewrite andb_false_r. exact IH.
  - rewrite clear_of_waypoints_iff. intros Hclear.
    specialize (Hclear _ Hin).
    pose proof (candidate_near_first params cone i Hr). lra.
Qed.

Lemma ring_first_only (params : TreeSearchParams) (cones : list Cone.t)
    (cone : Cone.t) (waypoints : list Point) :
  0 <= triangulation_radius params ->
  2 * triangulation_radius params <= triangulation_min_waypoint_dist params ->
  clear_of_cones params cones (candidate_position params cone 0) ->
  clear_of_waypoints params waypoints (candidate_position params cone 0) ->
  foldl (triangulate_candidate params cones cone) waypoints (seq 0 8)
  = waypoints ++ [candidate_position params cone 0].
Proof.
  intros Hr Hwide Hcones Hwps.
  change (seq 0 8) with (0%nat :: seq 1 7).
  cbn [foldl]. rewrite triangulate_candidate_unfold.
  rewrite (bool_decide_eq_true_2 _ Hcones), (bool_decide_eq_true_2 _ Hwps).
  cbn [andb].
  apply ring_rest_rejected; [exact Hr | exact Hwide |].
  apply elem_of_app. right. apply list_elem_of_here.
Qed.

(** *** Scenes on the axis of the vehicle *)

Lemma pi_bounds_0 : - PI <= 0 <= PI.
Proof. pose proof PI_RGT_0. lra. Qed.

Lemma cones_on_axis_in_view (cones : list Cone.t) :
  Forall (fun c => Cone.y c = 0 /\ -10 <= Cone.x c <= 10) cones ->
  filterLocal_cones cones (2 * PI) 10 0 0 0 = cones.
Proof.
  intros Hall. rewrite filterLocal_cones_filter.
  induction Hall as [| c cones [Hy Hx] _ IH]; [reflexivity |].
  rewrite filter_cons_True; [now rewrite IH |].
  apply spec_accepts_full_turn; [apply pi_bounds_0 |].
  rewrite Hy. apply within_distance_axis. lra.
Qed.

Ltac axis_distance :=
  unfold cone_point; simpl;
  rewrite distance_between_axis; unfold Rabs;
  destruct (Rcase_abs _); lra.

Ltac each_member H :=
  repeat (apply elem_of_cons in H as [-> | H]); [.. | inversion H].

Ltac clear_on_axis :=
  rewrite candidate_position_0;
  first [ apply clear_of_cones_iff | apply clear_of_waypoints_iff ];
  let c := fresh "c" in
  let Hc := fresh "Hc" in
  intros c Hc; each_member Hc; axis_distance.

Ltac first_of_ring :=
  match goal with
  | |- context [foldl (triangulate_candidate ?p ?cs ?c) ?wps (seq 0 8)] =>
      lazymatch wps with
      | context [triangulate_candidate] => fail
      | _ =>
          rewrite (ring_first_only p cs c wps);
          [ rewrite candidate_position_0;
            cbn [app Cone.x Cone.y triangulation_radius]
          | simpl; lra | simpl; lra | clear_on_axis | clear_on_axis ]
      end
  end.

(** *** Tactics that run the search on a scene *)

Ltac decide_costs :=
  repeat match goal with
    | |- context [decide (xgt (finite ?a) (finite ?b))] =>
        first [ rewrite (decide_True (P := xgt (finite a) (finite b)))
                  by (unfold xgt; simpl; lra)
              | rewrite (decide_False (P := xgt (finite a) (finite b)))
                  by (unfold xgt; simpl; lra) ]
    | |- context [decide (xlt (finite ?a) (finite ?b))] =>
        first [ rewrite (decide_True (P := xlt (finite a) (finite b)))
                  by (simpl; lra)
              | rewrite (decide_False (P := xlt (finite a) (finite b)))
                  by (simpl; lra) ]
    end.

Ltac tidy :=
  unfold addWaypoint, Path.createCopy, Path.new;
  cbn [PathQueue.paths PathQueue.costs PathQueue.PATH_QUEUE_LIMIT
       PathQueue.size app fst snd Path.waypoints path_queue history
       length negb back List.last Waypoint.x Waypoint.y
       Waypoint.heading Waypoint.make TreeSearch.waypoints TreeSearch.params
       waypoint_field_of_view waypoint_distance max_waypoints_per_path
       getCost heading_of root_pose INR].

Ltac same_pos :=
  unfold Path.same_position; simpl;
  first [ split; lra | intros [? ?]; lra ].

Ltac eval_has :=
  tidy; repeat rewrite hasWaypoint_cons; rewrite hasWaypoint_nil;
  repeat first [ rewrite bool_decide_eq_true_2 by same_pos
               | rewrite bool_decide_eq_false_2 by same_pos ];
  reflexivity.

Ltac eval_below :=
  tidy; apply addNewPath_below; unfold PathQueue.size; simpl; lia.

Ltac crunch :=
  cbn [foldl seq length PathQueue.costs PathQueue.paths
       PathQueue.PATH_QUEUE_LIMIT mbind mret result_bind result_ret at_
       lookup list_lookup set_at insert list_insert].

Ltac eval_full :=
  tidy; unfold PathQueue.addNewPath;
  rewrite decide_True by (simpl; lia);
  unfold PathQueue.getWorstPath, for_range;
  repeat (crunch; decide_costs);
  unfold set_at;
  repeat rewrite decide_True by (simpl; lia);
  crunch; reflexivity.

Ltac loop1 :=
  eapply for_each_run_S; [apply for_each_run_0 |].
Ltac loop2 :=
  eapply for_each_run_S; [eapply for_each_run_S; [apply for_each_run_0 |] |].
Ltac loop3 :=
  eapply for_each_run_S;
  [eapply for_each_run_S; [eapply for_each_run_S; [apply for_each_run_0 |] |] |].

Ltac offer_below :=
  tidy; eapply branch_offer; [reflexivity | eval_has | reflexivity | eval_below].
Ltac offer_full :=
  tidy; eapply branch_offer; [reflexivity | eval_has | reflexivity | eval_full].
Ltac skip_known :=
  tidy; eapply branch_skip; [reflexivity | eval_has].

(** *** The row: three cones and a frontier of two *)

Lemma row_all_visible (x h : R) :
  - PI <= h <= PI -> -4 <= x <= 7 ->
  filterLocal row_pool (2 * PI) 10 x 0 h = row_pool.
Proof.
  intros Hh Hx. rewrite filterLocal_full_turn by exact Hh.
  unfold row_pool.
  repeat (rewrite filter_cons_True by (apply within_distance_axis; lra)).
  reflexivity.
Qed.

Ltac open_row_entry :=
  tidy; eapply expand_run;
  [ simpl; lia
  | tidy; unfold eager_externals; tidy;
    apply row_all_visible; [apply pi_bounds_0 | lra]
  | simpl length
  | ].

(** *** A scene where the visible candidates are not a prefix of the pool *)

Lemma lane_scene_constructed :
  TreeSearch.new lane_cones (scene_params 8 (9 / 2)) = lane_scene.
Proof.
  unfold TreeSearch.new, lane_scene.
  change (field_of_view (scene_params 8 (9 / 2))) with (2 * PI).
  change (distance (scene_params 8 (9 / 2))) with 10.
  rewrite cones_on_axis_in_view
    by (repeat constructor; simpl; lra).
  f_equal. unfold triangulate, lane_cones. cbn [foldl].
  do 3 first_of_ring.
  unfold lane_pool. repeat f_equal; simpl; lra.
Qed.

(** From the origin, and from (4,0), the reach of 9/2 covers (4,0) and
    (3/2,0) and not (9,0). *)
Lemma lane_visible_near (x h : R) :
  - PI <= h <= PI -> -1 / 2 <= x <= 4 ->
  filterLocal lane_pool (2 * PI) (9 / 2) x 0 h = [(4, 0); (3 / 2, 0)].
Proof.
  intros Hh Hx. rewrite filterLocal_full_turn by exact Hh.
  unfold lane_pool.
  rewrite filter_cons_False by (rewrite within_distance_axis; lra).
  repeat (rewrite filter_cons_True by (apply within_distance_axis; lra)).
  reflexivity.
Qed.

(** From (9,0) it covers (9,0) alone. *)
Lemma lane_visible_far (h : R) :
  - PI <= h <= PI ->
  filterLocal lane_pool (2 * PI) (9 / 2) 9 0 h = [(9, 0)].
Proof.
  intros Hh. rewrite filterLocal_full_turn by exact Hh.
  unfold lane_pool.
  rewrite filter_cons_True by (apply within_distance_axis; lra).
  repeat (rewrite filter_cons_False by (rewrite within_distance_axis; lra)).
  reflexivity.
Qed.

Lemma bind_assoc_run {A B C} (m : search A) (k : A -> search B)
    (g : B -> search C) (s s2 : search_state) (b : B) :
  (m ≫= k) s = Ok (b, s2) -> (m ≫= fun a => k a ≫= g) s = g b s2.
Proof.
  unfold mbind, search_bind.
  destruct (m s) as [[a s1] |]; [| discriminate].
  now intros ->.
Qed.

Lemma select_best_run_inv (s s' : search_state) (p : Path.t) :
  select_best s = Ok (p, s') ->
  exists b, history s' = history s ++ [Selected (path_queue s) b]
            /\ PathQueue.paths (path_queue s) !! b = Some p.
Proof.
  destruct s as [q h]. unfold select_best.
  erewrite bind_run by reflexivity. simpl.
  unfold mbind, search_bind, lift, record.
  destruct (PathQueue.getBestPath q) as [b |]; [| discriminate].
  simpl. unfold at_.
  destruct (PathQueue.paths q !! b) as [best |] eqn:Hbest; [| discriminate].
  intros [= <- <-]. exists b. simpl. split; [reflexivity |].
  rewrite Hbest. now destruct best.
Qed.

Section Lane.
Context `{PathExternals}.
Hypothesis root_at_origin :
  Waypoint.x root_pose = 0 /\ Waypoint.y root_pose = 0.
Hypothesis root_heading : - PI <= Waypoint.heading root_pose <= PI.
Hypothesis headings_are_angles : forall p x y, - PI <= heading_of p x y <= PI.

Ltac open_lane_entry vis :=
  tidy; eapply expand_run;
  [ simpl; lia
  | tidy; try (destruct root_at_origin as [-> ->]); apply vis; auto; lra
  | simpl length
  | ].

Ltac find_event :=
  repeat first [ apply list_elem_of_here | apply list_elem_of_further ].

(** The two rounds of the search on the lane. *)
Lemma lane_rounds :
  exists s2,
    (_ ← addNewPath Path.new infinity; rounds lane_scene 2)
      (@initial_state lane_scene) = Ok (tt, s2)
    /\ path_queue s2 = lane_frontier
    /\ (exists after,
          Offered (PathQueue.make [] [] 8) to_far (getCost to_far) true after
          ∈ history s2)
    /\ (exists before,
          Offered before near_twice (getCost near_twice) true lane_frontier
          ∈ history s2).
Proof.
  eexists. split.
  - unfold initial_state.
    erewrite bind_run by (apply addNewPath_run; eval_below).
    simpl rounds.
    erewrite bind_run.
    2:{ tidy. rewrite round_unfold. simpl length. loop1.
        open_lane_entry lane_visible_near.
        - loop2; [offer_below | offer_below].
        - tidy. reflexivity. }
    cbv iota.
    erewrite bind_run.
    2:{ tidy. rewrite round_unfold. simpl length. loop2.
        - open_lane_entry lane_visible_far.
          + loop1. skip_known.
          + tidy. erewrite bind_run by (apply addNewPath_run; eval_below).
            reflexivity.
        - open_lane_entry lane_visible_near.
          + loop2; [skip_known | offer_below].
          + tidy. reflexivity. }
    cbv iota. reflexivity.
  - cbn [path_queue history]. split; [reflexivity |].
    split; eexists; find_event.
Qed.

(** The whole run: it ends, and its history extends that of the rounds. *)
Lemma lane_run :
  exists p log s2,
    getPath_run lane_scene = Ok (p, log)
    /\ path_queue s2 = lane_frontier
    /\ (forall e, e ∈ history s2 -> e ∈ log)
    /\ (exists after,
          Offered (PathQueue.make [] [] 8) to_far (getCost to_far) true after
          ∈ history s2)
    /\ (exists before,
          Offered before near_twice (getCost near_twice) true lane_frontier
          ∈ history s2)
    /\ (exists b, PathQueue.paths lane_frontier !! b = Some p).
Proof.
  destruct lane_rounds as (s2 & Hrounds & Hq & Hfar & Htwice).
  assert (1 <= path_queue_limit (TreeSearch.params lane_scene))%nat as HK
    by (simpl; lia).
  destruct (getPath_run_ok lane_scene HK) as (p & log & Hrun & _).
  exists p, log, s2. split; [exact Hrun |].
  unfold getPath_run in Hrun.
  destruct (getPath_search lane_scene (initial_state lane_scene))
    as [[p' s'] |] eqn:Hsearch; [| discriminate].
  injection Hrun as <- <-.
  unfold getPath_search in Hsearch. cbv zeta in Hsearch.
  erewrite bind_assoc_run in Hsearch by exact Hrounds.
  apply select_best_run_inv in Hsearch as (b & Hh & Hb).
  split; [exact Hq |]. split; [| split; [exact Hfar | split; [exact Htwice |]]].
  - intros e He. rewrite Hh. apply elem_of_app. now left.
  - exists b. now rewrite <- Hq.
Qed.
End Lane.

(** C1, on the lane: from the root the visible candidates are (4,0) and
    (3/2,0), in that order, while the pool starts with (9,0).  The body of
    the loop over the candidates, run for the first of them on the frontier
    emptied by the dequeue of the root, offers the path to (9,0): the entry
    of the pool at the candidate's index, not the candidate; and the run of
    getPath records that offer.  This holds for every cost metric and every
    rule of headings within the half-turn, the search starting at the
    origin. *)
Theorem C1_lane_branch_appends_pool_entry `{PathExternals} :
  Waypoint.x root_pose = 0 /\ Waypoint.y root_pose = 0 ->
  - PI <= Waypoint.heading root_pose <= PI ->
  (forall p x y, - PI <= heading_of p x y <= PI) ->
  let ts := TreeSearch.new lane_cones (scene_params 8 (9 / 2)) in
  TreeSearch.waypoints ts = [(9, 0); (4, 0); (3 / 2, 0)]
  /\ filterLocal (TreeSearch.waypoints ts)
                 (waypoint_field_of_view (TreeSearch.params ts))
                 (waypoint_distance (TreeSearch.params ts))
                 (Waypoint.x (back Path.new)) (Waypoint.y (back Path.new))
                 (Waypoint.heading (back Path.new))
     = [(4, 0); (3 / 2, 0)]
  /\ (forall flags h,
        exists after,
          branch ts Path.new [(4, 0); (3 / 2, 0)] 0 flags
            {| path_queue := PathQueue.make [] [] 8; history := h |}
          = Ok ((false, true),
                {| path_queue := after;
                   history := h ++ [Offered (PathQueue.make [] [] 8) to_far
                                            (getCost to_far) true after] |})
          /\ positions to_far = [(9, 0)])
  /\ exists p log,
      getPath_run ts = Ok (p, log)
      /\ exists new_path cost after,
          Offered (PathQueue.make [] [] 8) new_path cost true after ∈ log
          /\ positions new_path = [(9, 0)].
Proof.
  intros Hroot Hrh Hheadings ts. subst ts.
  rewrite lane_scene_constructed.
  split; [reflexivity |]. split; [| split].
  - simpl. unfold back. simpl. destruct Hroot as [-> ->].
    now apply lane_visible_near; [| lra].
  - intros flags h. eexists. split; [| reflexivity].
    eapply (branch_offer lane_scene Path.new [(4, 0); (3 / 2, 0)] 0 flags
              (PathQueue.make [] [] 8) _ h (4, 0) (9, 0) true);
      [reflexivity | apply hasWaypoint_nil | reflexivity |].
    apply addNewPath_below. unfold PathQueue.size. simpl. lia.
  - destruct (lane_run Hroot Hrh Hheadings)
      as (p & log & s2 & Hrun & _ & Hsub & (after & Hfar) & _).
    exists p, log. split; [exact Hrun |].
    exists to_far, (getCost to_far), after.
    split; [now apply Hsub | reflexivity].
Qed.

Lemma plain_root_at_origin :
  Waypoint.x (@root_pose plain_externals) = 0
  /\ Waypoint.y (@root_pose plain_externals) = 0.
Proof. split; reflexivity. Qed.

Lemma plain_headings (p : Path.t) (x y : R) :
  - PI <= @heading_of plain_externals p x y <= PI.
Proof. apply pi_bounds_0. Qed.

(** C1 with the plain collaborator. *)
Lemma C1_lane_branch_appends_pool_entry_witness :
  let ts := TreeSearch.new lane_cones (scene_params 8 (9 / 2)) in
  TreeSearch.waypoints ts = [(9, 0); (4, 0); (3 / 2, 0)]
  /\ filterLocal (TreeSearch.waypoints ts)
                 (waypoint_field_of_view (TreeSearch.params ts))
                 (waypoint_distance (TreeSearch.params ts))
                 (Waypoint.x (@back plain_externals Path.new))
                 (Waypoint.y (@back plain_externals Path.new))
                 (Waypoint.heading (@back plain_externals Path.new))
     = [(4, 0); (3 / 2, 0)]
  /\ (forall flags h,
        exists after,
          @branch plain_externals ts Path.new [(4, 0); (3 / 2, 0)] 0 flags
            {| path_queue := PathQueue.make [] [] 8; history := h |}
          = Ok ((false, true),
                {| path_queue := after;
                   history :=
                     h ++ [Offered (PathQueue.make [] [] 8)
                                   (@to_far plain_externals)
                                   (@getCost plain_externals
                                             (@to_far plain_externals))
                                   true after] |})
          /\ positions (@to_far plain_externals) = [(9, 0)])
  /\ exists p log,
      @getPath_run plain_externals ts = Ok (p, log)
      /\ exists new_path cost after,
          Offered (PathQueue.make [] [] 8) new_path cost true after ∈ log
          /\ positions new_path = [(9, 0)].
Proof.
  exact (@C1_lane_branch_appends_pool_entry plain_externals
           plain_root_at_origin pi_bounds_0 plain_headings).
Defined.

(** ** The search with [back()] checked *)

Lemma bind_inv {A B} (m : search A) (k : A -> search B) (s s' : search_state)
    (b : B) :
  (m ≫= k) s = Ok (b, s') ->
  exists a s1, m s = Ok (a, s1) /\ k a s1 = Ok (b, s').
Proof.
  unfold mbind, search_bind.
  destruct (m s) as [[a s1] |]; [| discriminate].
  intros Hk. now exists a, s1.
Qed.

Lemma bind_fault {A B} (m : search A) (k : A -> search B) (s : search_state)
    (f : fault) :
  m s = Fault f -> (m ≫= k) s = Fault f.
Proof. unfold mbind, search_bind. now intros ->. Qed.

Lemma ptriple_lift_value {A} (P : search_state -> Prop) (r : result A) :
  ptriple P (lift r) (fun a s => P s /\ r = Ok a).
Proof.
  intros s a s' HP. unfold lift. destruct r; [| discriminate].
  intros [= <- <-]. auto.
Qed.

Lemma createCopy_same (p : Path.t) : Path.createCopy p = p.
Proof. now destruct p. Qed.

Lemma dequeue_run_pure (s s' : search_state) (p : Path.t) (c : xfloat) :
  dequeue s = Ok ((p, c), s') ->
  PathQueue.dequeue (path_queue s) = Ok (p, c, path_queue s')
  /\ history s' = history s ++ [Dequeued (path_queue s) p c (path_queue s')].
Proof.
  destruct s as [q h]. unfold dequeue.
  erewrite bind_run by reflexivity. simpl.
  unfold mbind at 1, search_bind, lift.
  destruct (PathQueue.dequeue q) as [[[p' c'] q'] |]; [| discriminate].
  simpl. intros [= <- <- <-]. auto.
Qed.

Lemma dequeue_pure_front (q q' : PathQueue.t) (p : Path.t) (c : xfloat) :
  PathQueue.dequeue q = Ok (p, c, q') ->
  PathQueue.paths q = p :: PathQueue.paths q'
  /\ PathQueue.costs q = c :: PathQueue.costs q'
  /\ PathQueue.PATH_QUEUE_LIMIT q' = PathQueue.PATH_QUEUE_LIMIT q.
Proof.
  destruct q as [ps cs K]. unfold PathQueue.dequeue. simpl.
  destruct ps as [| p0 ps]; [discriminate |].
  destruct cs as [| c0 cs]; [discriminate |].
  simpl. intros [= <- <- <-]. auto.
Qed.

Lemma last_List_last {A} (l : list A) (w d : A) :
  last l = Some w -> List.last l d = w.
Proof.
  induction l as [| a [| b l] IH]; [discriminate | now intros [= ->] |].
  intros Hlast. now apply IH.
Qed.

Section StrictSteps.
Context `{PathExternals}.
Variable ts : TreeSearch.t.

(** On a front entry with waypoints the two readings of the loop body
    agree. *)
Lemma strict_expand_live (no_new_paths : bool) (s s1 : search_state)
    (p : Path.t) (c : xfloat) :
  dequeue s = Ok ((p, c), s1) ->
  Path.waypoints p <> [] ->
  Strict.expand ts no_new_paths s = expand ts no_new_paths s.
Proof.
  intros Hdeq Hlive. unfold Strict.expand, expand.
  rewrite !(bind_run _ _ _ _ _ Hdeq). cbv beta iota zeta.
  case_decide; [reflexivity |].
  unfold Strict.back.
  destruct (last (Path.waypoints p)) as [w |] eqn:Hlast.
  - unfold back. rewrite (last_List_last _ w root_pose Hlast). reflexivity.
  - now apply last_None in Hlast.
Qed.

(** On a front entry without waypoints the source reads [back()] of an
    empty vector. *)
Lemma strict_expand_root (no_new_paths : bool) (s s1 : search_state)
    (p : Path.t) (c : xfloat) :
  dequeue s = Ok ((p, c), s1) ->
  Path.waypoints p = [] ->
  Strict.expand ts no_new_paths s = Fault BackOfEmpty.
Proof.
  intros Hdeq Hroot. unfold Strict.expand.
  rewrite (bind_run _ _ _ _ _ Hdeq). cbv beta iota.
  case_decide as Hcap; [rewrite Hroot in Hcap; simpl in Hcap; lia |].
  unfold Strict.back. rewrite Hroot. reflexivity.
Qed.

(** What the checked loop body returns, the other returns too. *)
Lemma strict_expand_sound (no_new_paths : bool) (s : search_state)
    (r : bool * search_state) :
  Strict.expand ts no_new_paths s = Ok r ->
  expand ts no_new_paths s = Ok r.
Proof.
  intros Hrun.
  destruct (dequeue s) as [[[p c] s1] |] eqn:Hdeq.
  - destruct (decide (Path.waypoints p = [])) as [Hroot | Hlive].
    + rewrite (strict_expand_root _ _ _ _ _ Hdeq Hroot) in Hrun. discriminate.
    + now rewrite (strict_expand_live _ _ _ _ _ Hdeq Hlive) in Hrun.
  - unfold Strict.expand in Hrun.
    rewrite (bind_fault _ _ _ _ Hdeq) in Hrun. discriminate.
Qed.

Lemma for_each_sound {A} (n : nat) (body body' : nat -> A -> search A)
    (init : A) (s : search_state) (r : A * search_state) :
  (forall i a s r, body' i a s = Ok r -> body i a s = Ok r) ->
  for_each n body' init s = Ok r -> for_each n body init s = Ok r.
Proof.
  intros Hbody. revert r. induction n as [| n IH]; intros [b s']; [auto |].
  rewrite !for_each_S. intros Hrun.
  apply bind_inv in Hrun as (a & s1 & Hn & Hlast).
  rewrite (bind_run _ _ _ _ _ (IH _ Hn)). now apply Hbody.
Qed.

Lemma strict_round_unfold (q : PathQueue.t) (h : list event) :
  Strict.round ts {| path_queue := q; history := h |}
  = for_each (length (PathQueue.paths q)) (fun _ => Strict.expand ts) true
      {| path_queue := q; history := h ++ [RoundStart q] |}.
Proof. reflexivity. Qed.

Lemma strict_round_sound (s : search_state) (r : bool * search_state) :
  Strict.round ts s = Ok r -> round ts s = Ok r.
Proof.
  destruct s as [q h]. rewrite strict_round_unfold, round_unfold.
  apply for_each_sound. intros _ a s r'. apply strict_expand_sound.
Qed.

(** The checked loop body on a front entry with waypoints, run through
    the unchecked one. *)
Lemma strict_expand_front (no_new_paths : bool) (p : Path.t)
    (ps : list Path.t) (c : xfloat) (cs : list xfloat) (L : nat)
    (h : list event) :
  Path.waypoints p <> [] ->
  Strict.expand ts no_new_paths
    {| path_queue := PathQueue.make (p :: ps) (c :: cs) L; history := h |}
  = expand ts no_new_paths
      {| path_queue := PathQueue.make (p :: ps) (c :: cs) L; history := h |}.
Proof. intros Hlive. eapply strict_expand_live; [apply dequeue_run | exact Hlive]. Qed.

(** getPath with a capacity and at least one iteration: the first
    expansion takes the root path off the frontier and reads [back()] of
    its empty vector of waypoints. *)
Lemma strict_getPath_reads_back_of_root :
  (1 <= path_queue_limit (TreeSearch.params ts))%nat ->
  (1 <= max_search_iterations (TreeSearch.params ts))%nat ->
  Strict.getPath ts = Fault BackOfEmpty.
Proof.
  intros HK Hit. unfold Strict.getPath, Strict.getPath_search, initial_state.
  cbv zeta.
  destruct (max_search_iterations (TreeSearch.params ts)) as [| n]; [lia |].
  erewrite bind_run
    by (apply addNewPath_run, addNewPath_below;
        unfold PathQueue.size; simpl; lia).
  erewrite bind_fault; [reflexivity |].
  simpl Strict.rounds. apply bind_fault.
  unfold PathQueue.new. cbn [PathQueue.paths PathQueue.costs app
                             PathQueue.PATH_QUEUE_LIMIT].
  rewrite strict_round_unfold. cbn [PathQueue.paths length].
  eapply for_each_run_S; [apply for_each_run_0 |].
  eapply strict_expand_root; [apply dequeue_run | reflexivity].
Qed.

(** getPath with a capacity and no iteration: no expansion, and the root
    path, the one entry of the frontier, is selected. *)
Lemma strict_getPath_without_rounds :
  (1 <= path_queue_limit (TreeSearch.params ts))%nat ->
  max_search_iterations (TreeSearch.params ts) = 0%nat ->
  Strict.getPath ts = Ok Path.new.
Proof.
  intros HK Hzero.
  unfold Strict.getPath, Strict.getPath_search, initial_state. cbv zeta.
  rewrite Hzero.
  erewrite bind_run
    by (apply addNewPath_run, addNewPath_below;
        unfold PathQueue.size; simpl; lia).
  simpl Strict.rounds.
  erewrite bind_run by reflexivity.
  unfold select_best.
  erewrite bind_run by reflexivity.
  unfold PathQueue.new.
  cbn [PathQueue.paths PathQueue.costs app path_queue
       PathQueue.PATH_QUEUE_LIMIT].
  erewrite bind_run
    by (unfold lift; now rewrite getBestPath_single).
  reflexivity.
Qed.
End StrictSteps.

(** *** One expansion on the row, at capacity *)

(** The path to (1,0) is taken off the front; its branch to (7/2,0) fills
    the free slot, and its branch to (6,0) finds the frontier full and
    overwrites the worst entry, the waiting path to (7/2,0). *)
Lemma row_expansion :
  exists s1 q1 q2 c1 c2,
    @Strict.expand eager_externals row_scene true row_before = Ok (false, s1)
    /\ path_queue s1
       = PathQueue.make [through [(1, 0); (6, 0)]; through [(1, 0); (7 / 2, 0)]]
                        [c2; c1] 2
    /\ history s1
       = [RoundStart row_start;
          Dequeued row_start (through [(1, 0)]) (finite (- (1))) q1;
          Offered q1 (through [(1, 0); (7 / 2, 0)]) c1 true q2;
          Offered q2 (through [(1, 0); (6, 0)]) c2 true (path_queue s1)]
    /\ q1 = PathQueue.make [through [(7 / 2, 0)]] [finite (- (1))] 2
    /\ q2 = PathQueue.make [through [(7 / 2, 0)]; through [(1, 0); (7 / 2, 0)]]
                           [finite (- (1)); c1] 2
    /\ PathQueue.getWorstPath q2 = Ok 0%nat.
Proof.
  eexists. eexists. eexists. eexists. eexists. split.
  - unfold row_before, row_start, through. cbn [fmap list_fmap fst snd].
    rewrite strict_expand_front by discriminate.
    open_row_entry.
    + unfold eager_externals.
      loop3; [skip_known | offer_below | offer_full].
    + tidy. reflexivity.
  - cbn [path_queue history].
    split; [reflexivity |]. split; [reflexivity |]. split; [reflexivity |].
    split; [reflexivity |].
    unfold PathQueue.getWorstPath, for_range.
    repeat (crunch; decide_costs). reflexivity.
Qed.



(** *** The loop body on the lane *)



(** *** The frontier across one expansion *)

Section Expansion.
Context `{PathExternals}.
Variable ts : TreeSearch.t.
Variable K : nat.
Hypothesis capacity_positive : (1 <= K)%nat.

(** An expansion that returns started from a frontier with an entry. *)
Lemma strict_expand_nonempty (no_new_paths b : bool) (s s' : search_state) :
  Strict.expand ts no_new_paths s = Ok (b, s') -> size_at_least 1 s.
Proof.
  unfold Strict.expand. intros Hrun.
  apply bind_inv in Hrun as ([p c] & s1 & Hdeq & _).
  apply dequeue_run_inv in Hdeq as [Hpaths _].
  unfold size_at_least, PathQueue.size. rewrite Hpaths. simpl. lia.
Qed.

(** The invariant of the search across one expansion. *)
Lemma strict_expand_inv (no_new_paths b : bool) (s s' : search_state) :
  frontier_inv K s ->
  Strict.expand ts no_new_paths s = Ok (b, s') ->
  frontier_inv K s' /\ size_at_least 1 s'.
Proof.
  intros Hinv Hrun.
  pose proof (strict_expand_nonempty _ _ _ _ Hrun) as Hsize.
  apply strict_expand_sound in Hrun.
  destruct (expand_triple ts K capacity_positive no_new_paths s
              (conj Hinv Hsize)) as (b' & s'' & Hrun' & Hpost).
  rewrite Hrun in Hrun'. now injection Hrun' as <- <-.
Qed.

(** The loop body on a frontier with an entry: it returns when the front
    path has waypoints, and reads [back()] of an empty vector when it has
    none. *)
Lemma strict_expand_total (no_new_paths : bool) (s : search_state) :
  frontier_inv K s -> size_at_least 1 s ->
  exists p c s1,
    dequeue s = Ok ((p, c), s1)
    /\ (Path.waypoints p <> [] ->
        exists b s', Strict.expand ts no_new_paths s = Ok (b, s')
                     /\ frontier_inv K s' /\ size_at_least 1 s')
    /\ (Path.waypoints p = [] ->
        Strict.expand ts no_new_paths s = Fault BackOfEmpty).
Proof.
  intros Hinv Hsize.
  destruct (dequeue_triple K capacity_positive s (conj Hinv Hsize)) as ([p c] & s1 & Hdeq & _).
  exists p, c, s1. split; [exact Hdeq |]. split.
  - intros Hlive.
    destruct (expand_triple ts K capacity_positive no_new_paths s
                (conj Hinv Hsize)) as (b & s' & Hrun & Hpost).
    exists b, s'. split; [| exact Hpost].
    now rewrite (strict_expand_live ts _ _ _ _ _ Hdeq Hlive).
  - intros Hroot. exact (strict_expand_root ts _ _ _ _ _ Hdeq Hroot).
Qed.
End Expansion.

Lemma frontier_inv_sizes (K : nat) (s : search_state) :
  frontier_inv K s ->
  (PathQueue.size (path_queue s) <= K)%nat
  /\ forall q, q ∈ observed (history s) -> (PathQueue.size q <= K)%nat.
Proof.
  intros (_ & _ & Hsize & Hh). split; [exact Hsize |].
  intros q Hq. unfold observed in Hq.
  apply list_elem_of_bind in Hq as (e & Hq & He).
  rewrite Forall_forall in Hh.
  now destruct (event_ok_frontiers K e q (Hh e He) Hq).
Qed.

Lemma row_before_inv : frontier_inv 2 row_before.
Proof.
  split; [reflexivity |]. split; [reflexivity |].
  split; [unfold PathQueue.size; simpl; lia |].
  repeat constructor; unfold PathQueue.size; simpl; lia.
Qed.

(** C5: a frontier within its capacity stays within it across any call
    of addNewPath; and across one run of the body of the loop over the
    frontier, from any state that satisfies the invariant of the search,
    every frontier recorded (before and after each dequeue and each
    addNewPath) holds at most the capacity. *)
Theorem C5_frontier_stays_within_capacity `{PathExternals}
    (ts : TreeSearch.t) (K : nat) :
  (1 <= K)%nat ->
  (forall q p c accepted q',
      (PathQueue.size q <= PathQueue.PATH_QUEUE_LIMIT q)%nat ->
      PathQueue.addNewPath p c q = Ok (accepted, q') ->
      PathQueue.PATH_QUEUE_LIMIT q' = PathQueue.PATH_QUEUE_LIMIT q
      /\ (PathQueue.size q' <= PathQueue.PATH_QUEUE_LIMIT q)%nat)
  /\ (forall s no_new_paths b s',
        frontier_inv K s ->
        Strict.expand ts no_new_paths s = Ok (b, s') ->
        frontier_inv K s'
        /\ (PathQueue.size (path_queue s') <= K)%nat
        /\ (forall q, q ∈ observed (history s') ->
                      (PathQueue.size q <= K)%nat)
        /\ (forall before new_path new_cost accepted after,
              Offered before new_path new_cost accepted after ∈ history s' ->
              (PathQueue.size after <= K)%nat)).
Proof.
  intros HK. split.
  - intros q p c accepted q' Hsize Hadd.
    destruct (addNewPath_pure_size _ _ _ _ _ Hadd) as (HL & _ & _ & Hle & _).
    auto.
  - intros s no_new_paths b s' Hinv Hrun.
    destruct (strict_expand_inv ts K HK _ _ _ _ Hinv Hrun) as [Hinv' _].
    destruct (frontier_inv_sizes K s' Hinv') as [Hsize Hobs].
    split; [exact Hinv' |]. split; [exact Hsize |]. split; [exact Hobs |].
    intros before p c accepted after Hin. apply Hobs.
    unfold observed. apply list_elem_of_bind.
    eexists. split; [| exact Hin].
    simpl. apply list_elem_of_further, list_elem_of_here.
Qed.

(** C5 on the row: the expansion whose second branch finds the frontier
    at its capacity of two. *)
Lemma C5_frontier_stays_within_capacity_witness :
  exists s1,
    @Strict.expand eager_externals row_scene true row_before = Ok (false, s1)
    /\ PathQueue.size (path_queue s1) = 2%nat
    /\ (forall q, q ∈ observed (history s1) -> (PathQueue.size q <= 2)%nat)
    /\ (forall before new_path new_cost accepted after,
          Offered before new_path new_cost accepted after ∈ history s1 ->
          (PathQueue.size after <= 2)%nat).
Proof.
  destruct row_expansion as (s1 & q1 & q2 & c1 & c2 & Hrun & Hq & _).
  exists s1. split; [exact Hrun |]. split; [now rewrite Hq |].
  assert (1 <= 2)%nat as HK by lia.
  destruct (@C5_frontier_stays_within_capacity eager_externals row_scene 2 HK)
    as [_ Hexpand].
  destruct (Hexpand row_before true false s1 row_before_inv Hrun)
    as (_ & _ & Hobs & Hoffers).
  split; [exact Hobs | exact Hoffers].
Defined.

(** C6: with no cone triangulate returns no waypoint, and the pool is
    empty.  With a capacity and at least one iteration getPath then takes
    the root path off the frontier and reads [back()] of its empty vector
    of waypoints. *)
Theorem C6_no_cones_getPath_reads_back_of_root `{PathExternals}
    (params : TreeSearchParams) :
  (1 <= path_queue_limit params)%nat ->
  (1 <= max_search_iterations params)%nat ->
  triangulate params [] = []
  /\ TreeSearch.waypoints (TreeSearch.new [] params) = []
  /\ Strict.getPath (TreeSearch.new [] params) = Fault BackOfEmpty.
Proof.
  intros HK Hit. split; [reflexivity |]. split; [reflexivity |].
  now apply strict_getPath_reads_back_of_root.
Qed.

Lemma C6_no_cones_getPath_reads_back_of_root_witness :
  triangulate (ring_params 1 2) [] = []
  /\ TreeSearch.waypoints (TreeSearch.new [] (ring_params 1 2)) = []
  /\ @Strict.getPath plain_externals (TreeSearch.new [] (ring_params 1 2))
     = Fault BackOfEmpty.
Proof.
  apply (@C6_no_cones_getPath_reads_back_of_root plain_externals
           (ring_params 1 2)); simpl; lia.
Defined.

Lemma select_best_total (K : nat) (s : search_state) :
  frontier_inv K s -> size_at_least 1 s ->
  exists best_path_index best,
    PathQueue.getBestPath (path_queue s) = Ok best_path_index
    /\ (best_path_index < PathQueue.size (path_queue s))%nat
    /\ PathQueue.paths (path_queue s) !! best_path_index = Some best
    /\ select_best s
       = Ok (Path.createCopy best,
             {| path_queue := path_queue s;
                history := history s
                           ++ [Selected (path_queue s) best_path_index] |}).
Proof.
  intros (Hpar & _ & _ & _) Hsize.
  unfold size_at_least, parallel, PathQueue.size in *.
  assert (PathQueue.costs (path_queue s) <> []) as Hne.
  { intros Hnil. rewrite Hnil in Hpar. simpl in Hpar. lia. }
  destruct (getBestPath_spec _ Hne) as (b & Hscan & Hb & _).
  rewrite <- Hpar in Hb.
  destruct (lookup_lt_is_Some_2 _ _ Hb) as [best Hbest].
  exists b, best. split; [exact Hscan |]. split; [exact Hb |].
  split; [exact Hbest |].
  destruct s as [q h]. unfold select_best.
  erewrite bind_run by reflexivity. simpl in *.
  unfold mbind, search_bind, lift, record. rewrite Hscan. simpl.
  unfold at_. rewrite Hbest. reflexivity.
Qed.

(** C10: from any state that satisfies the invariant of the search and
    holds an entry, the body of the loop over the frontier finds a front
    entry in both vectors; when that path has waypoints it returns, with
    the invariant kept and an entry in the frontier for the next dequeue or
    for the selection, and when it has none the read of [back()] is the
    fault.  On such a state the selection finds a best index that
    addresses an entry.  The first addNewPath of getPath establishes such
    a state, and no run of getPath with that capacity ends in the fault of
    a front or an index past the end. *)
Theorem C10_front_and_selection_in_bounds `{PathExternals}
    (ts : TreeSearch.t) (K : nat) :
  (1 <= K)%nat ->
  (exists s1,
      addNewPath Path.new infinity
        {| path_queue := PathQueue.new K; history := [] |} = Ok (true, s1)
      /\ frontier_inv K s1
      /\ (1 <= PathQueue.size (path_queue s1))%nat)
  /\ (forall s no_new_paths,
        frontier_inv K s ->
        (1 <= PathQueue.size (path_queue s))%nat ->
        exists curr_path curr_cost s1,
          dequeue s = Ok ((curr_path, curr_cost), s1)
          /\ PathQueue.paths (path_queue s)
             = curr_path :: PathQueue.paths (path_queue s1)
          /\ PathQueue.costs (path_queue s)
             = curr_cost :: PathQueue.costs (path_queue s1)
          /\ (Path.waypoints curr_path <> [] ->
              exists b s',
                Strict.expand ts no_new_paths s = Ok (b, s')
                /\ frontier_inv K s'
                /\ (1 <= PathQueue.size (path_queue s'))%nat)
          /\ (Path.waypoints curr_path = [] ->
              Strict.expand ts no_new_paths s = Fault BackOfEmpty))
  /\ (forall s,
        frontier_inv K s ->
        (1 <= PathQueue.size (path_queue s))%nat ->
        exists best_path_index best s',
          PathQueue.getBestPath (path_queue s) = Ok best_path_index
          /\ (best_path_index < length (PathQueue.paths (path_queue s)))%nat
          /\ PathQueue.paths (path_queue s) !! best_path_index = Some best
          /\ select_best s = Ok (Path.createCopy best, s'))
  /\ (path_queue_limit (TreeSearch.params ts) = K ->
      Strict.getPath ts <> Fault FrontOfEmpty
      /\ Strict.getPath ts <> Fault IndexOutOfRange).
Proof.
  intros HK. split; [| split; [| split]].
  - eexists. split; [| split].
    + apply addNewPath_run, addNewPath_below.
      unfold PathQueue.size. simpl. lia.
    + split; [reflexivity |]. split; [reflexivity |].
      split; [unfold PathQueue.size; simpl; lia |].
      repeat constructor; unfold PathQueue.size; simpl; lia.
    + unfold PathQueue.size. simpl. lia.
  - intros s no_new_paths Hinv Hsize.
    destruct (strict_expand_total ts K HK no_new_paths s Hinv Hsize)
      as (p & c & s1 & Hdeq & Hlive & Hroot).
    exists p, c, s1. split; [exact Hdeq |].
    pose proof Hdeq as Hpure. apply dequeue_run_pure in Hpure as [Hpure _].
    apply dequeue_pure_front in Hpure as (Hps & Hcs & _).
    auto.
  - intros s Hinv Hsize.
    destruct (select_best_total K s Hinv Hsize)
      as (b & best & Hscan & Hb & Hbest & Hsel).
    exists b, best. eexists. eauto.
  - intros Hlimit. rewrite <- Hlimit in HK.
    destruct (max_search_iterations (TreeSearch.params ts)) as [| n] eqn:Hit.
    + rewrite (strict_getPath_without_rounds ts HK Hit).
      split; discriminate.
    + rewrite (strict_getPath_reads_back_of_root ts HK) by lia.
      split; discriminate.
Qed.

(** C10 on the row, with the frontier at its capacity of two. *)
Lemma C10_front_and_selection_in_bounds_witness :
  exists curr_path curr_cost s1 b s' best_path_index best s'',
    dequeue row_before = Ok ((curr_path, curr_cost), s1)
    /\ curr_path = through [(1, 0)]
    /\ @Strict.expand eager_externals row_scene true row_before = Ok (b, s')
    /\ (1 <= PathQueue.size (path_queue s'))%nat
    /\ PathQueue.getBestPath (path_queue row_before) = Ok best_path_index
    /\ (best_path_index < length (PathQueue.paths (path_queue row_before)))%nat
    /\ PathQueue.paths (path_queue row_before) !! best_path_index = Some best
    /\ select_best row_before = Ok (Path.createCopy best, s'').
Proof.
  assert (1 <= 2)%nat as HK by lia.
  assert (1 <= PathQueue.size (path_queue row_before))%nat as Hsize
    by (unfold PathQueue.size; simpl; lia).
  destruct (@C10_front_and_selection_in_bounds eager_externals row_scene 2 HK)
    as (_ & Hexpand & Hselect & _).
  destruct (Hexpand row_before true row_before_inv Hsize)
    as (p & c & s1 & Hdeq & Hps & _ & Hlive & _).
  destruct (Hselect row_before row_before_inv Hsize)
    as (i & best & s'' & Hscan & Hi & Hbest & Hsel).
  assert (p = through [(1, 0)]) as Hp by (simpl in Hps; now injection Hps).
  destruct Hlive as (b & s' & Hrun & _ & Hsize');
    [rewrite Hp; discriminate |].
  exists p, c, s1, b, s', i, best, s''. auto 10.
Defined.

(** * Further properties of the code *)

(** ** The frontier *)

Lemma addNewPath_unfold_full (q : PathQueue.t) (p : Path.t) (c : xfloat)
    (accepted : bool) (q' : PathQueue.t) :
  (PathQueue.PATH_QUEUE_LIMIT q <= PathQueue.size q)%nat ->
  PathQueue.addNewPath p c q = Ok (accepted, q') ->
  exists w cw,
    PathQueue.getWorstPath q = Ok w
    /\ PathQueue.costs q !! w = Some cw
    /\ ((xlt c cw /\ accepted = true
         /\ (w < length (PathQueue.paths q))%nat
         /\ q' = PathQueue.make (<[w := p]> (PathQueue.paths q))
                                (<[w := c]> (PathQueue.costs q))
                                (PathQueue.PATH_QUEUE_LIMIT q))
        \/ (~ xlt c cw /\ accepted = false /\ q' = q)).
Proof.
  intros Hfull. unfold PathQueue.addNewPath, PathQueue.size in *.
  rewrite decide_True by exact Hfull.
  destruct (PathQueue.getWorstPath q) as [w |]; [| discriminate].
  simpl. unfold at_.
  destruct (PathQueue.costs q !! w) as [cw |] eqn:Hcw; [| discriminate].
  simpl. intros H. exists w, cw. split; [reflexivity |]. split; [exact Hcw |].
  destruct (decide (xgt cw c)) as [Hgt | Hngt].
  - unfold set_at in H.
    destruct (decide (w < length (PathQueue.paths q))%nat) as [Hw |];
      [| discriminate].
    destruct (decide (w < length (PathQueue.costs q))%nat); [| discriminate].
    simpl in H. injection H as <- <-. left. auto.
  - injection H as <- <-. right. auto.
Qed.

Lemma addNewPath_unfold_below (q : PathQueue.t) (p : Path.t) (c : xfloat)
    (accepted : bool) (q' : PathQueue.t) :
  ~ (PathQueue.PATH_QUEUE_LIMIT q <= PathQueue.size q)%nat ->
  PathQueue.addNewPath p c q = Ok (accepted, q') ->
  accepted = true
  /\ q' = PathQueue.make (PathQueue.paths q ++ [p]) (PathQueue.costs q ++ [c])
                         (PathQueue.PATH_QUEUE_LIMIT q).
Proof.
  intros Hbelow. unfold PathQueue.addNewPath, PathQueue.size in *.
  rewrite decide_False by exact Hbelow.
  intros [= <- <-]. auto.
Qed.

(** X1: on a frontier with at least one cost, getBestPath returns the index
    of a least cost, and the lowest such index: no cost is below the one it
    addresses, and every cost before it is strictly above. *)
Theorem X1_getBestPath_first_least_cost (q : PathQueue.t) :
  PathQueue.costs q <> [] ->
  exists b cb,
    PathQueue.getBestPath q = Ok b
    /\ PathQueue.costs q !! b = Some cb
    /\ (forall i ci, PathQueue.costs q !! i = Some ci -> xle cb ci)
    /\ (forall i ci, (i < b)%nat -> PathQueue.costs q !! i = Some ci ->
                     xlt cb ci).
Proof.
  intros Hne.
  destruct (getBestPath_spec q Hne) as (b & Hb & _ & cb & Hcb & Hmin & Hfirst).
  exists b, cb. repeat split; auto.
Qed.

Lemma X1_getBestPath_first_least_cost_witness :
  exists b cb,
    PathQueue.getBestPath full_frontier = Ok b
    /\ PathQueue.costs full_frontier !! b = Some cb
    /\ (forall i ci, PathQueue.costs full_frontier !! i = Some ci -> xle cb ci)
    /\ (forall i ci, (i < b)%nat ->
                     PathQueue.costs full_frontier !! i = Some ci -> xlt cb ci).
Proof. apply (X1_getBestPath_first_least_cost full_frontier). discriminate. Defined.

(** X2: with no cost stored, both scans return index 0, which addresses no
    entry; an addNewPath that finds such a frontier at its capacity reads
    costs[0] past the end. *)
Theorem X2_scans_of_empty_costs (q : PathQueue.t) :
  PathQueue.costs q = [] ->
  PathQueue.getBestPath q = Ok 0%nat
  /\ PathQueue.getWorstPath q = Ok 0%nat
  /\ ((PathQueue.PATH_QUEUE_LIMIT q <= PathQueue.size q)%nat ->
      forall p c, PathQueue.addNewPath p c q = Fault IndexOutOfRange).
Proof.
  intros Hempty.
  assert (PathQueue.getWorstPath q = Ok 0%nat) as Hworst
    by (unfold PathQueue.getWorstPath; now rewrite Hempty).
  split; [unfold PathQueue.getBestPath; now rewrite Hempty |].
  split; [exact Hworst |].
  intros Hfull p c. unfold PathQueue.addNewPath, PathQueue.size in *.
  rewrite decide_True by exact Hfull.
  rewrite Hworst. simpl. now rewrite Hempty.
Qed.

Lemma X2_scans_of_empty_costs_witness :
  PathQueue.getBestPath (PathQueue.new 0) = Ok 0%nat
  /\ PathQueue.getWorstPath (PathQueue.new 0) = Ok 0%nat
  /\ ((PathQueue.PATH_QUEUE_LIMIT (PathQueue.new 0)
       <= PathQueue.size (PathQueue.new 0))%nat ->
      forall p c,
        PathQueue.addNewPath p c (PathQueue.new 0) = Fault IndexOutOfRange).
Proof. apply (X2_scans_of_empty_costs (PathQueue.new 0)). reflexivity. Defined.

(** X3: with a capacity of 0, getPath faults on every scene: its first
    addNewPath, of the root path, finds the empty frontier at capacity and
    reads costs[0] of an empty vector. *)
Theorem X3_getPath_capacity_zero_faults `{PathExternals} (ts : TreeSearch.t) :
  path_queue_limit (TreeSearch.params ts) = 0%nat ->
  getPath_run ts = Fault IndexOutOfRange
  /\ getPath ts = Fault IndexOutOfRange.
Proof.
  intros HK.
  assert (getPath_run ts = Fault IndexOutOfRange) as Hrun.
  { unfold getPath_run, getPath_search, initial_state. rewrite HK. reflexivity. }
  split; [exact Hrun |]. unfold getPath. now rewrite Hrun.
Qed.

Lemma X3_getPath_capacity_zero_faults_witness :
  @getPath_run plain_externals (TreeSearch.new row_cones (scene_params 0 10))
  = Fault IndexOutOfRange
  /\ @getPath plain_externals (TreeSearch.new row_cones (scene_params 0 10))
     = Fault IndexOutOfRange.
Proof.
  apply (@X3_getPath_capacity_zero_faults plain_externals
           (TreeSearch.new row_cones (scene_params 0 10))).
  reflexivity.
Defined.

(** X4: addNewPath returns false exactly when it leaves the frontier as it
    was. *)
Theorem X4_addNewPath_false_iff_unchanged (q q' : PathQueue.t) (p : Path.t)
    (c : xfloat) (accepted : bool) :
  PathQueue.addNewPath p c q = Ok (accepted, q') ->
  accepted = false <-> q' = q.
Proof.
  intros Hadd.
  destruct (decide (PathQueue.PATH_QUEUE_LIMIT q <= PathQueue.size q)%nat)
    as [Hfull | Hbelow].
  - destruct (addNewPath_unfold_full q p c accepted q' Hfull Hadd)
      as (w & cw & _ & Hcw & [(Hlt & -> & Hw & ->) | (_ & -> & ->)]).
    + split; [discriminate |]. intros Heq.
      apply (f_equal PathQueue.costs) in Heq. simpl in Heq.
      apply (f_equal (fun l => l !! w)) in Heq.
      rewrite list_lookup_insert_eq in Heq
        by (apply lookup_lt_is_Some_1; eauto).
      rewrite Hcw in Heq. injection Heq as ->.
      now apply xlt_irrefl in Hlt.
    + tauto.
  - destruct (addNewPath_unfold_below q p c accepted q' Hbelow Hadd) as [-> ->].
    split; [discriminate |]. intros Heq.
    apply (f_equal (fun x => length (PathQueue.paths x))) in Heq.
    simpl in Heq. rewrite length_app in Heq. simpl in Heq. lia.
Qed.

Lemma X4_addNewPath_false_iff_unchanged_witness :
  false = false <-> full_frontier = full_frontier.
Proof.
  apply (X4_addNewPath_false_iff_unchanged full_frontier full_frontier Path.new
           (finite 5) false).
  unfold PathQueue.addNewPath, full_frontier.
  rewrite decide_True by (simpl; lia).
  unfold PathQueue.getWorstPath, for_range.
  repeat (crunch; decide_costs). reflexivity.
Defined.

(** X5: after an accepted addNewPath on a frontier whose vectors run in
    parallel, the new path and the new cost sit at the same index of the two
    vectors, and every other index holds what it held. *)
Theorem X5_addNewPath_accepted_entry_present (q q' : PathQueue.t) (p : Path.t)
    (c : xfloat) :
  parallel q ->
  PathQueue.addNewPath p c q = Ok (true, q') ->
  exists i,
    PathQueue.paths q' !! i = Some p
    /\ PathQueue.costs q' !! i = Some c
    /\ forall j, j <> i ->
         PathQueue.paths q' !! j = PathQueue.paths q !! j
         /\ PathQueue.costs q' !! j = PathQueue.costs q !! j.
Proof.
  intros Hpar Hadd.
  destruct (decide (PathQueue.PATH_QUEUE_LIMIT q <= PathQueue.size q)%nat)
    as [Hfull | Hbelow].
  - destruct (addNewPath_unfold_full q p c true q' Hfull Hadd)
      as (w & cw & _ & Hcw & [(_ & _ & Hw & ->) | (_ & [=] & _)]).
    exists w. simpl. split; [| split].
    + now apply list_lookup_insert_eq.
    + apply list_lookup_insert_eq. apply lookup_lt_is_Some_1. eauto.
    + intros j Hj. split; now apply list_lookup_insert_ne.
  - destruct (addNewPath_unfold_below q p c true q' Hbelow Hadd) as [_ ->].
    exists (length (PathQueue.paths q)). simpl. split; [| split].
    + rewrite lookup_app_r by lia. now rewrite Nat.sub_diag.
    + rewrite Hpar. rewrite lookup_app_r by lia. now rewrite Nat.sub_diag.
    + intros j Hj.
      destruct (decide (j < length (PathQueue.paths q))%nat) as [Hlt | Hge].
      * split; apply lookup_app_l; [| rewrite <- Hpar]; exact Hlt.
      * split.
        -- rewrite lookup_ge_None_2 by (rewrite length_app; simpl; lia).
           symmetry. apply lookup_ge_None_2. lia.
        -- rewrite lookup_ge_None_2
             by (rewrite length_app, <- Hpar; simpl; lia).
           symmetry. apply lookup_ge_None_2. rewrite <- Hpar. lia.
Qed.

Lemma X5_addNewPath_accepted_entry_present_witness :
  exists i,
    PathQueue.paths (PathQueue.make [Path.new] [infinity] 2) !! i
    = Some Path.new
    /\ PathQueue.costs (PathQueue.make [Path.new] [infinity] 2) !! i
       = Some infinity
    /\ forall j, j <> i ->
         PathQueue.paths (PathQueue.make [Path.new] [infinity] 2) !! j
         = PathQueue.paths (PathQueue.new 2) !! j
         /\ PathQueue.costs (PathQueue.make [Path.new] [infinity] 2) !! j
            = PathQueue.costs (PathQueue.new 2) !! j.
Proof.
  apply (X5_addNewPath_accepted_entry_present (PathQueue.new 2)
           (PathQueue.make [Path.new] [infinity] 2) Path.new infinity);
    reflexivity.
Defined.

(** X6: at capacity addNewPath never raises a cost: each cost of the
    resulting frontier is at most the cost at the same index before, and at
    most the worst cost the frontier had. *)
Theorem X6_addNewPath_at_capacity_costs_never_rise (q q' : PathQueue.t)
    (p : Path.t) (c : xfloat) (accepted : bool) :
  (PathQueue.PATH_QUEUE_LIMIT q <= PathQueue.size q)%nat ->
  PathQueue.addNewPath p c q = Ok (accepted, q') ->
  exists w cw,
    first_extreme xgt (PathQueue.costs q) w
    /\ PathQueue.costs q !! w = Some cw
    /\ (forall i ci', PathQueue.costs q' !! i = Some ci' ->
          xle ci' cw
          /\ exists ci, PathQueue.costs q !! i = Some ci /\ xle ci' ci).
Proof.
  intros Hfull Hadd.
  destruct (addNewPath_unfold_full q p c accepted q' Hfull Hadd)
    as (w & cw & Hworst & Hcw & Hcases).
  assert (PathQueue.costs q <> []) as Hne
    by (intros Hnil; rewrite Hnil in Hcw; discriminate).
  destruct (getWorstPath_spec q Hne) as (w' & Hworst' & _ & Hext).
  rewrite Hworst in Hworst'. injection Hworst' as <-.
  exists w, cw. split; [exact Hext |]. split; [exact Hcw |].
  destruct Hext as (cw' & Hcw' & Hmax & _).
  rewrite Hcw in Hcw'. injection Hcw' as <-.
  assert (forall i ci, PathQueue.costs q !! i = Some ci -> xle ci cw) as Hle.
  { intros i ci Hi. unfold xle. exact (Hmax i ci Hi). }
  destruct Hcases as [(Hlt & _ & _ & ->) | (_ & _ & ->)].
  - intros i ci' Hi. simpl in Hi.
    destruct (decide (i = w)) as [-> | Hne'].
    + rewrite list_lookup_insert_eq in Hi
        by (apply lookup_lt_is_Some_1; eauto).
      injection Hi as <-.
      split; [now apply xlt_xle |]. exists cw. split; [exact Hcw |].
      now apply xlt_xle.
    + rewrite list_lookup_insert_ne in Hi by auto.
      split; [eauto |]. exists ci'. split; [exact Hi | apply xle_refl].
  - intros i ci' Hi. split; [eauto |]. exists ci'. split; [exact Hi |].
    apply xle_refl.
Qed.

Lemma X6_addNewPath_at_capacity_costs_never_rise_witness :
  exists w cw,
    first_extreme xgt (PathQueue.costs full_frontier) w
    /\ PathQueue.costs full_frontier !! w = Some cw
    /\ (forall i ci',
          PathQueue.costs
            (PathQueue.make [Path.new; Path.new] [finite 1; finite 2] 2) !! i
          = Some ci' ->
          xle ci' cw
          /\ exists ci, PathQueue.costs full_frontier !! i = Some ci
                        /\ xle ci' ci).
Proof.
  apply (X6_addNewPath_at_capacity_costs_never_rise full_frontier
           (PathQueue.make [Path.new; Path.new] [finite 1; finite 2] 2)
           Path.new (finite 2) true).
  - unfold PathQueue.size. simpl. lia.
  - unfold full_frontier. eval_full.
Defined.

(** X7: addNewPath leaves the capacity alone, keeps the two vectors
    parallel, never shrinks the frontier, and grows it by one entry exactly
    when it was below capacity. *)
Theorem X7_addNewPath_keeps_shape (q q' : PathQueue.t) (p : Path.t) (c : xfloat)
    (accepted : bool) :
  PathQueue.addNewPath p c q = Ok (accepted, q') ->
  PathQueue.PATH_QUEUE_LIMIT q' = PathQueue.PATH_QUEUE_LIMIT q
  /\ (parallel q -> parallel q')
  /\ (PathQueue.size q <= PathQueue.size q' <= S (PathQueue.size q))%nat
  /\ (PathQueue.size q' = S (PathQueue.size q)
      <-> (PathQueue.size q < PathQueue.PATH_QUEUE_LIMIT q)%nat).
Proof.
  intros Hadd.
  destruct (decide (PathQueue.PATH_QUEUE_LIMIT q <= PathQueue.size q)%nat)
    as [Hfull | Hbelow].
  - destruct (addNewPath_unfold_full q p c accepted q' Hfull Hadd)
      as (w & cw & _ & Hcw & [(_ & _ & Hw & ->) | (_ & _ & ->)]).
    + unfold parallel, PathQueue.size in *. simpl. rewrite !length_insert.
      repeat split; auto; lia.
    + unfold PathQueue.size in *. repeat split; auto; lia.
  - destruct (addNewPath_unfold_below q p c accepted q' Hbelow Hadd) as [_ ->].
    unfold parallel, PathQueue.size in *. simpl. rewrite !length_app. simpl.
    repeat split; auto; lia.
Qed.

Lemma X7_addNewPath_keeps_shape_witness :
  PathQueue.PATH_QUEUE_LIMIT (PathQueue.make [Path.new] [infinity] 2)
  = PathQueue.PATH_QUEUE_LIMIT (PathQueue.new 2)
  /\ (parallel (PathQueue.new 2)
      -> parallel (PathQueue.make [Path.new] [infinity] 2))
  /\ (PathQueue.size (PathQueue.new 2)
      <= PathQueue.size (PathQueue.make [Path.new] [infinity] 2)
      <= S (PathQueue.size (PathQueue.new 2)))%nat
  /\ (PathQueue.size (PathQueue.make [Path.new] [infinity] 2)
      = S (PathQueue.size (PathQueue.new 2))
      <-> (PathQueue.size (PathQueue.new 2)
           < PathQueue.PATH_QUEUE_LIMIT (PathQueue.new 2))%nat).
Proof.
  apply (X7_addNewPath_keeps_shape (PathQueue.new 2)
           (PathQueue.make [Path.new] [infinity] 2) Path.new infinity true).
  reflexivity.
Defined.

(** X8: below capacity the frontier is first-in first-out: an offer does
    not change the entry taken off the front next, and offering then
    dequeuing gives the frontier that dequeuing then offering gives. *)
Theorem X8_offer_below_capacity_keeps_front (q q0 : PathQueue.t)
    (p0 p : Path.t) (c0 c : xfloat) :
  PathQueue.dequeue q = Ok (p0, c0, q0) ->
  (PathQueue.size q < PathQueue.PATH_QUEUE_LIMIT q)%nat ->
  exists q1 q2,
    PathQueue.addNewPath p c q = Ok (true, q1)
    /\ PathQueue.dequeue q1 = Ok (p0, c0, q2)
    /\ PathQueue.addNewPath p c q0 = Ok (true, q2).
Proof.
  intros Hdeq Hbelow. destruct q as [ps cs K].
  unfold PathQueue.dequeue in Hdeq. simpl in Hdeq.
  destruct ps as [| p0' ps]; [discriminate |].
  destruct cs as [| c0' cs]; [discriminate |].
  simpl in Hdeq. injection Hdeq as <- <- <-.
  unfold PathQueue.size in Hbelow. simpl in Hbelow.
  eexists. eexists. split; [| split].
  - apply addNewPath_below. unfold PathQueue.size. simpl. lia.
  - reflexivity.
  - rewrite addNewPath_below by (unfold PathQueue.size; simpl; lia).
    reflexivity.
Qed.

Lemma X8_offer_below_capacity_keeps_front_witness :
  exists q1 q2,
    PathQueue.addNewPath Path.new (finite 2)
      (PathQueue.make [Path.new] [infinity] 2) = Ok (true, q1)
    /\ PathQueue.dequeue q1 = Ok (Path.new, infinity, q2)
    /\ PathQueue.addNewPath Path.new (finite 2) (PathQueue.new 2)
       = Ok (true, q2).
Proof.
  apply (X8_offer_below_capacity_keeps_front
           (PathQueue.make [Path.new] [infinity] 2) (PathQueue.new 2)).
  - reflexivity.
  - unfold PathQueue.size. simpl. lia.
Defined.

(** ** filterLocal *)

Lemma spec_accepts_window (fov D x y h px py : R) :
  spec_accepts fov D x y h px py -> 0 <= fov /\ 0 <= D.
Proof.
  intros [Hangle Hdist]. split.
  - pose proof (Rabs_pos (spec_normalize (atan2 (py - y) (px - x) - h))). lra.
  - pose proof (sqrt_pos ((px - x) * (px - x) + (py - y) * (py - y))). lra.
Qed.

Lemma spec_accepts_mono (fov fov' D D' x y h px py : R) :
  fov <= fov' -> D <= D' ->
  spec_accepts fov D x y h px py -> spec_accepts fov' D' x y h px py.
Proof. intros Hf Hd [Hangle Hdist]. split; lra. Qed.

Lemma filter_none {A} (P : A -> Prop) `{!forall a, Decision (P a)} (l : list A) :
  (forall a, ~ P a) -> filter P l = [].
Proof.
  intros Hnone. induction l as [| a l IH]; [reflexivity |].
  now rewrite filter_cons_False by apply Hnone.
Qed.

(** X9: with a negative field of view or a negative distance both overloads
    of filterLocal return nothing. *)
Theorem X9_filterLocal_negative_window (fov D x y h : R) :
  fov < 0 \/ D < 0 ->
  (forall points : list Point, filterLocal points fov D x y h = [])
  /\ (forall points : list Cone.t, filterLocal_cones points fov D x y h = []).
Proof.
  intros Hneg. split; intros points.
  - rewrite filterLocal_filter. apply filter_none.
    intros p Hp. apply spec_accepts_window in Hp. lra.
  - rewrite filterLocal_cones_filter. apply filter_none.
    intros c Hc. apply spec_accepts_window in Hc. lra.
Qed.

Lemma X9_filterLocal_negative_window_witness :
  (forall points : list Point, filterLocal points (2 * PI) (-1) 0 0 0 = [])
  /\ (forall points : list Cone.t,
        filterLocal_cones points (2 * PI) (-1) 0 0 0 = []).
Proof. apply (X9_filterLocal_negative_window (2 * PI) (-1) 0 0 0). right. lra. Defined.

(** X10: widening the field of view or the distance never loses a point: for
    the same pose the result for the narrower window is a subsequence of the
    result for the wider one. *)
Theorem X10_filterLocal_monotone (fov fov' D D' x y h : R) :
  fov <= fov' -> D <= D' ->
  (forall points : list Point,
      filterLocal points fov D x y h
      `sublist_of` filterLocal points fov' D' x y h)
  /\ (forall points : list Cone.t,
        filterLocal_cones points fov D x y h
        `sublist_of` filterLocal_cones points fov' D' x y h).
Proof.
  intros Hf Hd. split; intros points.
  - rewrite !filterLocal_filter.
    rewrite <- (list_filter_filter_l
                  (fun p : Point => spec_accepts fov D x y h p.1 p.2)
                  (fun p : Point => spec_accepts fov' D' x y h p.1 p.2))
      by (intros p; now apply spec_accepts_mono).
    apply sublist_filter.
  - rewrite !filterLocal_cones_filter.
    rewrite <- (list_filter_filter_l
                  (fun c => spec_accepts fov D x y h (Cone.x c) (Cone.y c))
                  (fun c => spec_accepts fov' D' x y h (Cone.x c) (Cone.y c)))
      by (intros p; now apply spec_accepts_mono).
    apply sublist_filter.
Qed.

Lemma X10_filterLocal_monotone_witness :
  (forall points : list Point,
      filterLocal points 1 2 0 0 0 `sublist_of` filterLocal points 2 3 0 0 0)
  /\ (forall points : list Cone.t,
        filterLocal_cones points 1 2 0 0 0
        `sublist_of` filterLocal_cones points 2 3 0 0 0).
Proof. apply (X10_filterLocal_monotone 1 2 2 3 0 0 0); lra. Defined.

(** X11: filtering twice with one window is filtering once, and two
    windows can be applied in either order. *)
Theorem X11_filterLocal_windows_compose (points : list Point)
    (fov1 D1 x1 y1 h1 fov2 D2 x2 y2 h2 : R) :
  filterLocal (filterLocal points fov1 D1 x1 y1 h1) fov1 D1 x1 y1 h1
  = filterLocal points fov1 D1 x1 y1 h1
  /\ filterLocal (filterLocal points fov1 D1 x1 y1 h1) fov2 D2 x2 y2 h2
     = filterLocal (filterLocal points fov2 D2 x2 y2 h2) fov1 D1 x1 y1 h1.
Proof.
  rewrite !filterLocal_filter. split.
  - apply list_filter_filter_l. intros p Hp. exact Hp.
  - rewrite !list_filter_filter. apply list_filter_iff. intros p. tauto.
Qed.

(** X12: the two corrections of the angle bring it into [-pi, pi] exactly
    when it starts within [-3 pi, 3 pi]. *)
Theorem X12_normalize_angle_in_range_iff (angle : R) :
  - M_PI <= normalize_angle angle <= M_PI
  <-> - (3 * M_PI) <= angle <= 3 * M_PI.
Proof.
  unfold normalize_angle, M_PI. cbv zeta. pose proof PI_RGT_0 as Hpi.
  destruct (decide (angle < - PI)) as [Hlow | Hlow];
    [destruct (decide (angle + 2 * PI > PI)) | destruct (decide (angle > PI))];
    split; lra.
Qed.

Lemma atan2_origin : atan2 0 0 = 0.
Proof.
  unfold atan2.
  repeat (rewrite (decide_False (P := 0 < 0)) by lra).
  reflexivity.
Qed.

(** X13: a point at the position of the pose passes the filter whenever the
    distance is not negative and the heading, within the half-turn, is within
    half the field of view of 0. *)
Theorem X13_filterLocal_keeps_own_position (points : list Point)
    (fov D x y h : R) :
  0 <= D -> - PI <= h <= PI -> Rabs h <= fov / 2 ->
  (x, y) ∈ points ->
  (x, y) ∈ filterLocal points fov D x y h.
Proof.
  intros HD Hh Hfov Hin. rewrite filterLocal_filter.
  apply list_elem_of_filter. split; [| exact Hin].
  unfold spec_accepts. simpl.
  replace (y - y) with 0 by lra. replace (x - x) with 0 by lra.
  rewrite atan2_origin. split.
  - unfold spec_normalize.
    destruct (decide (0 - h <= - PI));
      [| destruct (decide (PI < 0 - h))];
      revert Hfov; unfold Rabs;
      repeat destruct (Rcase_abs _); lra.
  - replace (0 * 0 + 0 * 0) with 0 by lra. rewrite sqrt_0. exact HD.
Qed.

Lemma X13_filterLocal_keeps_own_position_witness :
  ((4, 0) : Point) ∈ filterLocal lane_pool (2 * PI) (9 / 2) 4 0 0.
Proof.
  apply (X13_filterLocal_keeps_own_position lane_pool (2 * PI) (9 / 2) 4 0 0).
  - lra.
  - apply pi_bounds_0.
  - rewrite Rabs_R0. pose proof PI_RGT_0. lra.
  - apply list_elem_of_further, list_elem_of_here.
Defined.

Lemma filter_fmap_pre {A B} (f : A -> B) (P : B -> Prop)
    `{!forall b, Decision (P b)} (l : list A) :
  filter P (f <$> l) = f <$> filter (fun a => P (f a)) l.
Proof.
  induction l as [| a l IH]; [reflexivity |].
  rewrite fmap_cons, (filter_cons P), (filter_cons (fun a => P (f a))).
  destruct (decide (P (f a))); [rewrite fmap_cons |]; now rewrite IH.
Qed.

(** X14: the two overloads make the same selection: filtering the positions
    of cones gives the positions of the filtered cones. *)
Theorem X14_filterLocal_overloads_agree (cones : list Cone.t)
    (fov D x y h : R) :
  filterLocal (cone_point <$> cones) fov D x y h
  = cone_point <$> filterLocal_cones cones fov D x y h.
Proof.
  rewrite filterLocal_filter, filterLocal_cones_filter, filter_fmap_pre.
  reflexivity.
Qed.

(** ** triangulate *)

Lemma foldl_cons_eq {A B} (f : A -> B -> A) (a : A) (x : B) (l : list B) :
  foldl f a (x :: l) = foldl f (f a x) l.
Proof. reflexivity. Qed.

(** A candidate is appended when it passes both tests, and dropped
    otherwise. *)
Lemma triangulate_candidate_cases params cones cone waypoints i :
  (triangulate_candidate params cones cone waypoints i
   = waypoints ++ [candidate_position params cone i]
   /\ clear_of_cones params cones (candidate_position params cone i)
   /\ clear_of_waypoints params waypoints (candidate_position params cone i))
  \/ (triangulate_candidate params cones cone waypoints i = waypoints
      /\ ~ (clear_of_cones params cones (candidate_position params cone i)
            /\ clear_of_waypoints params waypoints
                                  (candidate_position params cone i))).
Proof.
  rewrite triangulate_candidate_unfold.
  destruct (decide (clear_of_cones params cones
                                   (candidate_position params cone i)))
    as [Hc | Hc];
    [destruct (decide (clear_of_waypoints params waypoints
                         (candidate_position params cone i))) as [Hw | Hw] |].
  - left. rewrite !bool_decide_eq_true_2 by assumption. auto.
  - right. rewrite (bool_decide_eq_false_2 _ Hw), andb_false_r. tauto.
  - right. rewrite (bool_decide_eq_false_2 _ Hc). simpl. tauto.
Qed.

(** Induction over the run of [triangulate]: what holds of the empty pool
    and survives every accepted candidate holds of the result. *)
Lemma ring_invariant params cones cone (Inv : list Point -> Prop)
    (steps : list nat) (waypoints : list Point) :
  (forall wps i, i ∈ steps -> Inv wps ->
     clear_of_cones params cones (candidate_position params cone i) ->
     clear_of_waypoints params wps (candidate_position params cone i) ->
     Inv (wps ++ [candidate_position params cone i])) ->
  Inv waypoints ->
  Inv (foldl (triangulate_candidate params cones cone) waypoints steps).
Proof.
  revert waypoints. induction steps as [| i steps IH]; intros waypoints Hstep Hinv;
    [exact Hinv |].
  simpl. apply IH.
  - intros wps j Hj. apply Hstep. now apply list_elem_of_further.
  - destruct (triangulate_candidate_cases params cones cone waypoints i)
      as [(-> & Hc & Hw) | (-> & _)]; [| exact Hinv].
    apply Hstep; auto. apply list_elem_of_here.
Qed.

Lemma triangulate_invariant_over params cones (Inv : list Point -> Prop)
    (todo : list Cone.t) (waypoints : list Point) :
  (forall wps cone i, cone ∈ todo -> (i < 8)%nat -> Inv wps ->
     clear_of_cones params cones (candidate_position params cone i) ->
     clear_of_waypoints params wps (candidate_position params cone i) ->
     Inv (wps ++ [candidate_position params cone i])) ->
  Inv waypoints ->
  Inv (foldl (fun waypoints cone =>
                foldl (triangulate_candidate params cones cone) waypoints
                      (seq 0 8))
             waypoints todo).
Proof.
  revert waypoints. induction todo as [| cone todo IH]; intros waypoints Hstep Hinv;
    [exact Hinv |].
  rewrite foldl_cons_eq. apply IH.
  - intros wps c i Hc. apply Hstep. now apply list_elem_of_further.
  - apply (ring_invariant params cones cone Inv (seq 0 8) waypoints);
      [| exact Hinv].
    intros wps i Hi. apply Hstep; [apply list_elem_of_here |].
    apply elem_of_seq in Hi. lia.
Qed.

Lemma triangulate_invariant params cones (Inv : list Point -> Prop) :
  Inv [] ->
  (forall wps cone i, cone ∈ cones -> (i < 8)%nat -> Inv wps ->
     clear_of_cones params cones (candidate_position params cone i) ->
     clear_of_waypoints params wps (candidate_position params cone i) ->
     Inv (wps ++ [candidate_position params cone i])) ->
  Inv (triangulate params cones).
Proof.
  intros Hnil Hstep.
  exact (triangulate_invariant_over params cones Inv cones [] Hstep Hnil).
Qed.

(** A point of the pool is a ring candidate of one of the cones, and clear
    of them all. *)
Lemma triangulate_point (params : TreeSearchParams) (cones : list Cone.t)
    (p : Point) :
  p ∈ triangulate params cones ->
  (exists cone i, cone ∈ cones /\ (i < 8)%nat
                  /\ p = candidate_position params cone i)
  /\ (forall c, c ∈ cones ->
        triangulation_min_cone_dist params
        < distance_between p (cone_point c)).
Proof.
  revert p.
  apply (triangulate_invariant params cones
           (fun wps => forall p, p ∈ wps ->
              (exists cone i, cone ∈ cones /\ (i < 8)%nat
                              /\ p = candidate_position params cone i)
              /\ (forall c, c ∈ cones ->
                    triangulation_min_cone_dist params
                    < distance_between p (cone_point c)))).
  - intros p Hp. inversion Hp.
  - intros wps cone i Hcone Hi IH Hclear _ p Hp.
    apply elem_of_app in Hp as [Hp | Hp]; [now apply IH |].
    apply list_elem_of_singleton in Hp as ->.
    split; [now exists cone, i |].
    exact (proj1 (clear_of_cones_iff params cones _) Hclear).
Qed.

(** X15: every waypoint triangulate returns is one of the eight ring
    candidates of one of the cones it was given. *)
Theorem X15_triangulate_gives_ring_candidates (params : TreeSearchParams)
    (cones : list Cone.t) (p : Point) :
  p ∈ triangulate params cones ->
  exists cone i, cone ∈ cones /\ (i < 8)%nat
                 /\ p = candidate_position params cone i.
Proof. intros Hp. now apply triangulate_point in Hp as [Hring _]. Qed.

(** What triangulate makes of the lane. *)
Lemma lane_triangulated :
  triangulate (scene_params 8 (9 / 2)) lane_cones = lane_pool.
Proof.
  unfold triangulate, lane_cones. cbn [foldl].
  do 3 first_of_ring.
  unfold lane_pool. repeat f_equal; simpl; lra.
Qed.

Lemma X15_triangulate_gives_ring_candidates_witness :
  exists cone i, cone ∈ lane_cones /\ (i < 8)%nat
                 /\ ((9, 0) : Point)
                    = candidate_position (scene_params 8 (9 / 2)) cone i.
Proof.
  apply (X15_triangulate_gives_ring_candidates (scene_params 8 (9 / 2)) lane_cones
           (9, 0)).
  rewrite lane_triangulated. apply list_elem_of_here.
Defined.

(** X16: every waypoint triangulate returns is strictly farther than the
    cone threshold from every cone, and any two of them are strictly farther
    apart than the waypoint threshold. *)
Theorem X16_triangulate_keeps_clearances (params : TreeSearchParams)
    (cones : list Cone.t) :
  (forall p c, p ∈ triangulate params cones -> c ∈ cones ->
     triangulation_min_cone_dist params < distance_between p (cone_point c))
  /\ (forall i j a b, (i < j)%nat ->
        triangulate params cones !! i = Some a ->
        triangulate params cones !! j = Some b ->
        triangulation_min_waypoint_dist params < distance_between b a).
Proof.
  apply (triangulate_invariant params cones
           (fun wps =>
              (forall p c, p ∈ wps -> c ∈ cones ->
                 triangulation_min_cone_dist params
                 < distance_between p (cone_point c))
              /\ (forall i j a b, (i < j)%nat ->
                    wps !! i = Some a -> wps !! j = Some b ->
                    triangulation_min_waypoint_dist params
                    < distance_between b a))).
  - split; [intros p c Hp; inversion Hp | intros i j a b _ Hi; inversion Hi].
  - intros wps cone k Hcone Hk [IHc IHw] Hclear_c Hclear_w. split.
    + intros p c Hp Hc. apply elem_of_app in Hp as [Hp | Hp]; [now apply IHc |].
      apply list_elem_of_singleton in Hp as ->.
      exact (proj1 (clear_of_cones_iff params cones _) Hclear_c c Hc).
    + intros i j a b Hij Hi Hj.
      assert (j < length (wps ++ [candidate_position params cone k]))%nat
        as Hlen by (apply lookup_lt_is_Some_1; eauto).
      rewrite length_app in Hlen. simpl in Hlen.
      rewrite lookup_app_l in Hi by lia.
      destruct (decide (j < length wps)%nat) as [Hlt | Hge].
      * rewrite lookup_app_l in Hj by exact Hlt. eauto.
      * rewrite lookup_app_r in Hj by lia.
        replace (j - length wps)%nat with 0%nat in Hj by lia.
        injection Hj as <-.
        apply (proj1 (clear_of_waypoints_iff params wps _) Hclear_w).
        eapply list_elem_of_lookup_2. exact Hi.
Qed.

Lemma ring_length params cones cone (steps : list nat) (waypoints : list Point) :
  (length (foldl (triangulate_candidate params cones cone) waypoints steps)
   <= length waypoints + length steps)%nat.
Proof.
  revert waypoints. induction steps as [| i steps IH]; intros waypoints;
    [simpl; lia |].
  simpl. etransitivity; [apply IH |].
  destruct (triangulate_candidate_cases params cones cone waypoints i)
    as [(-> & _) | (-> & _)]; [rewrite length_app; simpl |]; lia.
Qed.

Lemma triangulate_length_over params cones (todo : list Cone.t)
    (waypoints : list Point) :
  (length (foldl (fun waypoints cone =>
                    foldl (triangulate_candidate params cones cone) waypoints
                          (seq 0 8))
                 waypoints todo)
   <= length waypoints + 8 * length todo)%nat.
Proof.
  revert waypoints. induction todo as [| cone todo IH]; intros waypoints;
    [simpl; lia |].
  rewrite foldl_cons_eq. etransitivity; [apply IH |].
  pose proof (ring_length params cones cone (seq 0 8) waypoints) as Hring.
  rewrite length_seq in Hring. cbn [length]. lia.
Qed.

(** X17: triangulate returns at most eight waypoints per cone. *)
Theorem X17_triangulate_at_most_eight_per_cone (params : TreeSearchParams)
    (cones : list Cone.t) :
  (length (triangulate params cones) <= 8 * length cones)%nat.
Proof. apply (triangulate_length_over params cones cones []). Qed.

(** A candidate stands on the ring of its cone. *)
Lemma candidate_on_ring (params : TreeSearchParams) (cone : Cone.t) (i : nat) :
  distance_between (candidate_position params cone i) (cone_point cone)
  = Rabs (triangulation_radius params).
Proof.
  unfold candidate_position, distance_between, cone_point. simpl.
  set (r := triangulation_radius params).
  set (a := INR i * M_PI / 4).
  pose proof (sin2_cos2 a) as Hunit. unfold Rsqr in Hunit.
  replace ((Cone.x cone + r * cos a - Cone.x cone)
           * (Cone.x cone + r * cos a - Cone.x cone)
           + (Cone.y cone + r * sin a - Cone.y cone)
             * (Cone.y cone + r * sin a - Cone.y cone))
    with (r * r * (sin a * sin a + cos a * cos a)) by ring.
  rewrite Hunit, Rmult_1_r. apply sqrt_Rsqr_abs.
Qed.

(** X18: when every ring candidate is, by the distance computed, within the
    cone threshold of its own cone, triangulate returns nothing. *)
Theorem X18_triangulate_candidates_within_cone_clearance
    (params : TreeSearchParams) (cones : list Cone.t) :
  (forall cone i, cone ∈ cones -> (i < 8)%nat ->
     distance_between (candidate_position params cone i) (cone_point cone)
     <= triangulation_min_cone_dist params) ->
  triangulate params cones = [].
Proof.
  intros Hnear.
  apply (triangulate_invariant params cones (fun wps => wps = []));
    [reflexivity |].
  intros wps cone i Hcone Hi _ Hclear _. exfalso.
  pose proof (proj1 (clear_of_cones_iff params cones _) Hclear cone Hcone)
    as Hfar.
  specialize (Hnear cone i Hcone Hi). lra.
Qed.

Lemma X18_triangulate_candidates_within_cone_clearance_witness :
  triangulate (ring_params 2 2) row_cones = [].
Proof.
  apply (X18_triangulate_candidates_within_cone_clearance (ring_params 2 2)
           row_cones).
  intros cone i _ _. rewrite candidate_on_ring. simpl.
  rewrite Rabs_R1. lra.
Defined.

(** Two candidates of one ring are within its diameter of each other. *)
Lemma candidates_within_diameter (params : TreeSearchParams) (cone : Cone.t)
    (i j : nat) :
  distance_between (candidate_position params cone i)
                   (candidate_position params cone j)
  <= 2 * Rabs (triangulation_radius params).
Proof.
  unfold candidate_position, distance_between. simpl.
  set (r := triangulation_radius params).
  set (a := INR i * M_PI / 4). set (b := INR j * M_PI / 4).
  pose proof (sin2_cos2 a) as Ha. pose proof (sin2_cos2 b) as Hb.
  unfold Rsqr in Ha, Hb.
  pose proof (Rabs_pos r) as Hpos.
  assert (Rabs r * Rabs r = r * r) as Hsq
    by (unfold Rabs; destruct (Rcase_abs r); ring).
  apply sqrt_le_of_square; [lra |].
  replace ((Cone.x cone + r * cos a - (Cone.x cone + r * cos b))
           * (Cone.x cone + r * cos a - (Cone.x cone + r * cos b))
           + (Cone.y cone + r * sin a - (Cone.y cone + r * sin b))
             * (Cone.y cone + r * sin a - (Cone.y cone + r * sin b)))
    with (r * r * ((sin a * sin a + cos a * cos a)
                   + (sin b * sin b + cos b * cos b)
                   - 2 * (cos a * cos b + sin a * sin b))) by ring.
  rewrite Ha, Hb.
  replace (2 * Rabs r * (2 * Rabs r)) with (4 * (r * r)) by lra.
  assert (- 1 <= cos a * cos b + sin a * sin b) as Hdot.
  { rewrite <- cos_minus. apply COS_bound. }
  pose proof (Rle_0_sqr r) as Hr2. unfold Rsqr in Hr2. nra.
Qed.

(** When any two candidates of the ring are within the waypoint threshold
    of each other, the ring gives at most one waypoint. *)
Lemma ring_at_most_one params cones cone (steps : list nat)
    (waypoints : list Point) :
  (forall i j, i ∈ steps -> j ∈ steps ->
     distance_between (candidate_position params cone i)
                      (candidate_position params cone j)
     <= triangulation_min_waypoint_dist params) ->
  (length (foldl (triangulate_candidate params cones cone) waypoints steps)
   <= S (length waypoints))%nat.
Proof.
  revert waypoints.
  induction steps as [| i steps IH]; intros waypoints Hnear; [simpl; lia |].
  simpl.
  destruct (triangulate_candidate_cases params cones cone waypoints i)
    as [(-> & _) | (-> & _)].
  2:{ apply IH. intros a b Ha Hb.
      apply Hnear; now apply list_elem_of_further. }
  assert (forall rest, (forall j, j ∈ rest -> j ∈ steps) ->
    foldl (triangulate_candidate params cones cone)
          (waypoints ++ [candidate_position params cone i]) rest
    = waypoints ++ [candidate_position params cone i]) as Hrest.
  { induction rest as [| j rest IHrest]; intros Hsub; [reflexivity |].
    simpl.
    destruct (triangulate_candidate_cases params cones cone
                (waypoints ++ [candidate_position params cone i]) j)
      as [(_ & _ & Hclear) | (-> & _)].
    2:{ apply IHrest. intros k Hk. apply Hsub. now apply list_elem_of_further. }
    exfalso.
    assert (candidate_position params cone i
            ∈ waypoints ++ [candidate_position params cone i]) as Hin
      by (apply elem_of_app; right; apply list_elem_of_here).
    pose proof (proj1 (clear_of_waypoints_iff params _ _) Hclear _ Hin).
    assert (distance_between (candidate_position params cone j)
                             (candidate_position params cone i)
            <= triangulation_min_waypoint_dist params) as Hle.
    { apply Hnear; [| apply list_elem_of_here].
      apply list_elem_of_further, Hsub, list_elem_of_here. }
    lra. }
  rewrite Hrest by auto. rewrite length_app. simpl. lia.
Qed.

(** X19: when any two candidates of one ring are, by the distance computed,
    within the waypoint threshold of each other, triangulate returns at most
    one waypoint per cone. *)
Theorem X19_triangulate_at_most_one_per_cone (params : TreeSearchParams)
    (cones : list Cone.t) :
  (forall cone i j, cone ∈ cones -> (i < 8)%nat -> (j < 8)%nat ->
     distance_between (candidate_position params cone i)
                      (candidate_position params cone j)
     <= triangulation_min_waypoint_dist params) ->
  (length (triangulate params cones) <= length cones)%nat.
Proof.
  intros Hnear. unfold triangulate.
  assert (forall todo waypoints,
    (forall cone, cone ∈ todo -> cone ∈ cones) ->
    (length (foldl (fun waypoints cone =>
                      foldl (triangulate_candidate params cones cone)
                            waypoints (seq 0 8))
                   waypoints todo)
     <= length waypoints + length todo)%nat) as Hover.
  { induction todo as [| cone todo IH]; intros waypoints Hsub; [simpl; lia |].
    rewrite foldl_cons_eq. etransitivity.
    - apply IH. intros c Hc. apply Hsub. now apply list_elem_of_further.
    - pose proof (ring_at_most_one params cones cone (seq 0 8) waypoints)
        as Hring.
      cbn [length]. cut (length
               (foldl (triangulate_candidate params cones cone) waypoints
                  (seq 0 8)) <= S (length waypoints))%nat; [lia |].
      apply Hring. intros i j Hi Hj.
      apply elem_of_seq in Hi, Hj.
      apply Hnear; [apply Hsub, list_elem_of_here | lia | lia]. }
  apply (Hover cones []). auto.
Qed.

Lemma X19_triangulate_at_most_one_per_cone_witness :
  (length (triangulate (scene_params 2 10) row_cones) <= length row_cones)%nat.
Proof.
  apply (X19_triangulate_at_most_one_per_cone (scene_params 2 10) row_cones).
  intros cone i j _ _ _.
  pose proof (candidates_within_diameter (scene_params 2 10) cone i j) as Hd.
  simpl in *. rewrite Rabs_R1 in Hd. lra.
Defined.

(** ** The constructor *)

(** X20: the constructor stores the parameters, keeps exactly the cones in
    view from the origin of the vehicle frame, in their order, and builds the
    pool from the kept cones: each pool waypoint is a ring candidate of a kept
    cone and clear of every kept cone. *)
Theorem X20_constructor_keeps_cones_in_view (cones : list Cone.t)
    (params : TreeSearchParams) :
  let ts := TreeSearch.new cones params in
  TreeSearch.params ts = params
  /\ TreeSearch.cones ts `sublist_of` cones
  /\ (forall c, c ∈ TreeSearch.cones ts <->
                c ∈ cones
                /\ spec_accepts (field_of_view params) (distance params) 0 0 0
                                (Cone.x c) (Cone.y c))
  /\ (forall p, p ∈ TreeSearch.waypoints ts ->
        exists cone i,
          cone ∈ TreeSearch.cones ts /\ (i < 8)%nat
          /\ p = candidate_position params cone i
          /\ forall c, c ∈ TreeSearch.cones ts ->
               triangulation_min_cone_dist params
               < distance_between p (cone_point c)).
Proof.
  intros ts. subst ts. unfold TreeSearch.new. simpl.
  rewrite filterLocal_cones_filter.
  split; [reflexivity |]. split; [apply sublist_filter |]. split.
  - intros c. rewrite list_elem_of_filter. tauto.
  - intros p Hp. apply triangulate_point in Hp as [(cone & i & Hc & Hi & ->) Hclear].
    exists cone, i. auto.
Qed.

(** ** The selection *)

(** X21: the final selection of getPath, on a frontier with parallel vectors
    and an entry, returns a copy of the entry at the first index of least
    stored cost, and leaves the frontier as it is. *)
Theorem X21_select_best_returns_first_least_cost_entry (s : search_state) :
  parallel (path_queue s) ->
  PathQueue.costs (path_queue s) <> [] ->
  exists best_path_index cb best s',
    PathQueue.getBestPath (path_queue s) = Ok best_path_index
    /\ PathQueue.paths (path_queue s) !! best_path_index = Some best
    /\ PathQueue.costs (path_queue s) !! best_path_index = Some cb
    /\ (forall i ci, PathQueue.costs (path_queue s) !! i = Some ci -> xle cb ci)
    /\ (forall i ci, (i < best_path_index)%nat ->
                     PathQueue.costs (path_queue s) !! i = Some ci -> xlt cb ci)
    /\ select_best s = Ok (Path.createCopy best, s')
    /\ path_queue s' = path_queue s.
Proof.
  intros Hpar Hne.
  destruct (getBestPath_spec _ Hne)
    as (b & Hscan & Hb & cb & Hcb & Hmin & Hfirst).
  unfold parallel in Hpar. rewrite <- Hpar in Hb.
  destruct (lookup_lt_is_Some_2 _ _ Hb) as [best Hbest].
  exists b, cb, best,
    {| path_queue := path_queue s;
       history := history s ++ [Selected (path_queue s) b] |}.
  split; [exact Hscan |]. split; [exact Hbest |]. split; [exact Hcb |].
  split; [exact Hmin |]. split; [exact Hfirst |].
  destruct s as [q h]. unfold select_best.
  erewrite bind_run by reflexivity. simpl in *.
  unfold mbind, search_bind, lift, record. rewrite Hscan. simpl.
  unfold at_. rewrite Hbest. split; reflexivity.
Qed.

Lemma X21_select_best_returns_first_least_cost_entry_witness :
  exists s',
    select_best {| path_queue := tied_frontier; history := [] |}
    = Ok (through [(7 / 2, 0)], s')
    /\ path_queue s' = tied_frontier.
Proof.
  destruct (X21_select_best_returns_first_least_cost_entry
              {| path_queue := tied_frontier; history := [] |})
    as (b & cb & best & s' & _ & Hbest & Hcb & Hmin & Hfirst & Hsel & Hq);
    [reflexivity | discriminate |].
  exists s'. split; [| exact Hq].
  rewrite Hsel, createCopy_same. do 2 f_equal.
  simpl in Hbest, Hcb, Hmin, Hfirst.
  destruct b as [| [| [| b]]].
  - injection Hcb as <-.
    exfalso. apply (Hmin 1%nat (finite 1) eq_refl). simpl. lra.
  - now injection Hbest as <-.
  - injection Hcb as <-.
    exfalso. pose proof (Hfirst 1%nat (finite 1) ltac:(lia) eq_refl) as Hlt.
    simpl in Hlt. lra.
  - discriminate.
Defined.

(** ** getPath without a round *)

(** X23: with no iteration allowed, getPath returns the root path, whatever
    the pool. *)
Theorem X23_getPath_without_iterations `{PathExternals} (ts : TreeSearch.t) :
  (1 <= path_queue_limit (TreeSearch.params ts))%nat ->
  max_search_iterations (TreeSearch.params ts) = 0%nat ->
  getPath ts = Ok Path.new.
Proof.
  intros HK Hzero.
  unfold getPath, getPath_run, getPath_search, initial_state. cbv zeta.
  rewrite Hzero.
  erewrite bind_run
    by (apply addNewPath_run, addNewPath_below;
        unfold PathQueue.size; simpl; lia).
  simpl rounds.
  erewrite bind_run by reflexivity.
  unfold select_best.
  erewrite bind_run by reflexivity.
  unfold PathQueue.new. tidy.
  erewrite bind_run
    by (unfold lift; now rewrite getBestPath_single).
  reflexivity.
Qed.

Lemma X23_getPath_without_iterations_witness :
  @getPath plain_externals idle_scene = Ok Path.new.
Proof.
  apply (@X23_getPath_without_iterations plain_externals idle_scene).
  - simpl. lia.
  - reflexivity.
Defined.

(** ** The offers of one expansion *)

Section Offers.
Context `{PathExternals}.
Variable ts : TreeSearch.t.
Variable good : Path.t -> xfloat -> Prop.
Variable curr_path : Path.t.
Variable curr_cost : xfloat.
Variable h0 : list event.
Hypothesis good_back : good curr_path curr_cost.
Hypothesis good_step : forall pt,
  ~ (max_waypoints_per_path (TreeSearch.params ts)
     < length (Path.waypoints curr_path))%nat ->
  pt ∈ TreeSearch.waypoints ts ->
  good (addWaypoint (Path.createCopy curr_path) pt.1 pt.2)
       (getCost (addWaypoint (Path.createCopy curr_path) pt.1 pt.2)).

Lemma addNewPath_offered (p : Path.t) (c : xfloat) :
  good p c ->
  ptriple (offered_since good h0) (addNewPath p c)
          (fun _ => offered_since good h0).
Proof.
  intros Hp s accepted s' (events & Hh & Hall) Hrun.
  apply addNewPath_run_inv in Hrun as [_ Hh'].
  exists (events ++ [Offered (path_queue s) p c accepted (path_queue s')]).
  split; [rewrite Hh', Hh; now rewrite app_assoc |].
  intros before p' c' accepted' after Hin.
  apply elem_of_app in Hin as [Hin | Hin]; [exact (Hall _ _ _ _ _ Hin) |].
  apply list_elem_of_singleton in Hin. now injection Hin as _ -> -> _ _.
Qed.

Lemma branch_offered (possible : list Point) (k : nat) (flags : bool * bool) :
  ~ (max_waypoints_per_path (TreeSearch.params ts)
     < length (Path.waypoints curr_path))%nat ->
  ptriple (offered_since good h0) (branch ts curr_path possible k flags)
          (fun _ => offered_since good h0).
Proof.
  intros Hcap. unfold branch.
  eapply ptriple_bind; [apply ptriple_lift |].
  intros cand. cbv beta.
  destruct (Path.hasWaypoint curr_path _).
  { apply ptriple_ret. auto. }
  eapply ptriple_bind; [apply ptriple_lift_value |].
  intros w. cbv beta zeta.
  intros s r s' [Hs Hw]. revert s r s' Hs.
  change (ptriple (offered_since good h0)
            (added_path ←
               addNewPath
                 (addWaypoint (Path.createCopy curr_path) w.1 w.2)
                 (getCost (addWaypoint (Path.createCopy curr_path) w.1 w.2));
             if added_path : bool then mret (false, true) else mret flags)
            (fun _ => offered_since good h0)).
  eapply ptriple_bind.
  - apply addNewPath_offered. apply good_step; [exact Hcap |].
    unfold at_ in Hw.
    destruct (TreeSearch.waypoints ts !! k) as [w' |] eqn:Hk; [| discriminate].
    injection Hw as ->. eapply list_elem_of_lookup_2. exact Hk.
  - intros [|]; apply ptriple_ret; auto.
Qed.

(** The loop body, from the state [s] whose front entry is [curr_path]:
    after the dequeue, every offer is [good]. *)
Lemma expand_offered (no_new_paths b : bool) (s s1 s' : search_state) :
  dequeue s = Ok ((curr_path, curr_cost), s1) ->
  history s1 = h0 ->
  expand ts no_new_paths s = Ok (b, s') ->
  offered_since good h0 s'.
Proof.
  intros Hdeq Hh0 Hrun. unfold expand in Hrun.
  rewrite (bind_run _ _ _ _ _ Hdeq) in Hrun. cbv beta iota in Hrun.
  assert (offered_since good h0 s1) as Hs1.
  { exists []. split; [now rewrite app_nil_r |].
    intros ? ? ? ? ? Hin. inversion Hin. }
  revert Hrun. case_decide as Hcap.
  { intros Hrun.
    refine (ptriple_bind _ _ _ _ (fun _ => offered_since good h0)
              (addNewPath_offered curr_path curr_cost good_back) _
              s1 b s' Hs1 Hrun).
    intros ?. apply ptriple_ret. auto. }
  cbv zeta.
  set (possible := filterLocal _ _ _ _ _ _).
  intros Hrun.
  refine (ptriple_bind (offered_since good h0) _
            (fun _ => offered_since good h0) _
            (fun _ => offered_since good h0) _ _ s1 b s' Hs1 Hrun).
  { apply (ptriple_for_each (length possible)
             (branch ts curr_path possible) (no_new_paths, false)
             (fun _ _ => offered_since good h0)).
    intros k flags _. now apply branch_offered. }
  intros [no_new added]. cbv beta iota.
  destruct added; simpl.
  - apply ptriple_ret. auto.
  - eapply ptriple_bind; [now apply addNewPath_offered |].
    intros ?. apply ptriple_ret. auto.
Qed.
End Offers.

Lemma positions_addWaypoint `{PathExternals} (p : Path.t) (x y : R) :
  positions (addWaypoint p x y) = positions p ++ [(x, y)].
Proof. unfold positions, addWaypoint. simpl. now rewrite fmap_app. Qed.

(** The expansion of the row, with the events after the dequeue. *)
Lemma row_expansion_offers :
  exists s1 s' q2 c1 c2,
    dequeue row_before = Ok ((through [(1, 0)], finite (- (1))), s1)
    /\ @Strict.expand eager_externals row_scene true row_before
       = Ok (false, s')
    /\ history s'
       = history s1
         ++ [Offered (path_queue s1) (through [(1, 0); (7 / 2, 0)]) c1 true q2;
             Offered q2 (through [(1, 0); (6, 0)]) c2 true (path_queue s')]
    /\ PathQueue.size (path_queue s') = 2%nat
    /\ PathQueue.PATH_QUEUE_LIMIT (path_queue s') = 2%nat.
Proof.
  destruct row_expansion
    as (s' & q1 & q2 & c1 & c2 & Hrun & Hq & Hh & Hq1 & _ & _).
  pose proof (strict_expand_sound _ _ _ _ Hrun) as Hloose.
  unfold expand in Hloose.
  apply bind_inv in Hloose as ([p c] & s1 & Hdeq & _).
  pose proof Hdeq as Hfront.
  unfold row_before, row_start in Hfront. rewrite dequeue_run in Hfront.
  injection Hfront as <- <- Hs1.
  exists s1, s', q2, c1, c2.
  split; [exact Hdeq |]. split; [exact Hrun |].
  split; [| rewrite Hq; split; reflexivity].
  subst s1 q1. rewrite Hh. reflexivity.
Qed.

(** X24: one run of the body of the loop over the frontier, on a front path
    whose waypoints stand on points of the pool: every path it offers to
    addNewPath has its waypoints on points of the pool. *)
Theorem X24_expansion_offers_stay_on_pool `{PathExternals} (ts : TreeSearch.t)
    (s s1 s' : search_state) (curr_path : Path.t) (curr_cost : xfloat)
    (no_new_paths b : bool) :
  dequeue s = Ok ((curr_path, curr_cost), s1) ->
  (forall pt, pt ∈ positions curr_path -> pt ∈ TreeSearch.waypoints ts) ->
  Strict.expand ts no_new_paths s = Ok (b, s') ->
  exists events,
    history s' = history s1 ++ events
    /\ forall before new_path new_cost accepted after,
         Offered before new_path new_cost accepted after ∈ events ->
         forall pt, pt ∈ positions new_path -> pt ∈ TreeSearch.waypoints ts.
Proof.
  intros Hdeq Hcurr Hrun. apply strict_expand_sound in Hrun.
  refine (expand_offered ts
            (fun p _ => on_pool (TreeSearch.waypoints ts) p)
            curr_path curr_cost (history s1) Hcurr _
            no_new_paths b s s1 s' Hdeq eq_refl Hrun).
  intros pt _ Hpt pt' Hpt'.
  rewrite positions_addWaypoint in Hpt'.
  apply elem_of_app in Hpt' as [Hin | Hin].
  - apply Hcurr. now rewrite createCopy_same in Hin.
  - apply list_elem_of_singleton in Hin as ->. now destruct pt.
Qed.

Lemma X24_expansion_offers_stay_on_pool_witness :
  exists s' q cost,
    @Strict.expand eager_externals row_scene true row_before = Ok (false, s')
    /\ Offered q (through [(1, 0); (6, 0)]) cost true (path_queue s')
       ∈ history s'
    /\ forall pt, pt ∈ positions (through [(1, 0); (6, 0)]) ->
                  pt ∈ TreeSearch.waypoints row_scene.
Proof.
  destruct row_expansion_offers
    as (s1 & s' & q2 & c1 & c2 & Hdeq & Hrun & Hh & _).
  destruct (@X24_expansion_offers_stay_on_pool eager_externals row_scene
              row_before s1 s' (through [(1, 0)]) (finite (- (1))) true false
              Hdeq)
    as (events & Hh' & Hall); [| exact Hrun |].
  { intros pt Hpt. apply list_elem_of_singleton in Hpt as ->.
    apply list_elem_of_here. }
  rewrite Hh in Hh'. apply app_inv_head in Hh'. subst events.
  exists s', q2, c2. split; [exact Hrun |]. split.
  - rewrite Hh. apply elem_of_app. right.
    apply list_elem_of_further, list_elem_of_here.
  - apply (Hall q2 _ c2 true (path_queue s')).
    apply list_elem_of_further, list_elem_of_here.
Defined.

(** X25: one run of the body of the loop over the frontier offers the front
    path itself, or the front path with one waypoint appended; the latter
    only when the front path has at most max_waypoints_per_path waypoints. *)
Theorem X25_expansion_offers_one_waypoint_more `{PathExternals}
    (ts : TreeSearch.t) (s s1 s' : search_state) (curr_path : Path.t)
    (curr_cost : xfloat) (no_new_paths b : bool) :
  dequeue s = Ok ((curr_path, curr_cost), s1) ->
  Strict.expand ts no_new_paths s = Ok (b, s') ->
  exists events,
    history s' = history s1 ++ events
    /\ forall before new_path new_cost accepted after,
         Offered before new_path new_cost accepted after ∈ events ->
         new_path = curr_path
         \/ ((length (Path.waypoints curr_path)
              <= max_waypoints_per_path (TreeSearch.params ts))%nat
             /\ exists w, Path.waypoints new_path
                          = Path.waypoints curr_path ++ [w]).
Proof.
  intros Hdeq Hrun. apply strict_expand_sound in Hrun.
  refine (expand_offered ts
            (fun p _ =>
               p = curr_path
               \/ ((length (Path.waypoints curr_path)
                    <= max_waypoints_per_path (TreeSearch.params ts))%nat
                   /\ exists w, Path.waypoints p
                                = Path.waypoints curr_path ++ [w]))
            curr_path curr_cost (history s1) (or_introl eq_refl) _
            no_new_paths b s s1 s' Hdeq eq_refl Hrun).
  intros pt Hcap _. right. split; [lia |].
  unfold addWaypoint. simpl. eexists. reflexivity.
Qed.

Lemma X25_expansion_offers_one_waypoint_more_witness :
  exists s' q cost,
    @Strict.expand eager_externals row_scene true row_before = Ok (false, s')
    /\ Offered q (through [(1, 0); (6, 0)]) cost true (path_queue s')
       ∈ history s'
    /\ (through [(1, 0); (6, 0)] = through [(1, 0)]
        \/ ((1 <= max_waypoints_per_path (TreeSearch.params row_scene))%nat
            /\ exists w, Path.waypoints (through [(1, 0); (6, 0)])
                         = Path.waypoints (through [(1, 0)]) ++ [w])).
Proof.
  destruct row_expansion_offers
    as (s1 & s' & q2 & c1 & c2 & Hdeq & Hrun & Hh & _).
  destruct (@X25_expansion_offers_one_waypoint_more eager_externals row_scene
              row_before s1 s' (through [(1, 0)]) (finite (- (1))) true false
              Hdeq Hrun)
    as (events & Hh' & Hall).
  rewrite Hh in Hh'. apply app_inv_head in Hh'. subst events.
  exists s', q2, c2. split; [exact Hrun |]. split.
  - rewrite Hh. apply elem_of_app. right.
    apply list_elem_of_further, list_elem_of_here.
  - apply (Hall q2 _ c2 true (path_queue s')).
    apply list_elem_of_further, list_elem_of_here.
Defined.

(** X27: one run of the body of the loop over the frontier offers the front
    path with the cost it was dequeued with, or a path with the cost the
    oracle gives for it. *)
Theorem X27_expansion_offers_carry_their_cost `{PathExternals}
    (ts : TreeSearch.t) (s s1 s' : search_state) (curr_path : Path.t)
    (curr_cost : xfloat) (no_new_paths b : bool) :
  dequeue s = Ok ((curr_path, curr_cost), s1) ->
  Strict.expand ts no_new_paths s = Ok (b, s') ->
  exists events,
    history s' = history s1 ++ events
    /\ forall before new_path new_cost accepted after,
         Offered before new_path new_cost accepted after ∈ events ->
         (new_path = curr_path /\ new_cost = curr_cost)
         \/ new_cost = getCost new_path.
Proof.
  intros Hdeq Hrun. apply strict_expand_sound in Hrun.
  refine (expand_offered ts
            (fun p c => (p = curr_path /\ c = curr_cost) \/ c = getCost p)
            curr_path curr_cost (history s1)
            (or_introl (conj eq_refl eq_refl)) _
            no_new_paths b s s1 s' Hdeq eq_refl Hrun).
  intros pt _ _. now right.
Qed.

Lemma X27_expansion_offers_carry_their_cost_witness :
  exists s' q cost,
    @Strict.expand eager_externals row_scene true row_before = Ok (false, s')
    /\ Offered q (through [(1, 0); (6, 0)]) cost true (path_queue s')
       ∈ history s'
    /\ ((through [(1, 0); (6, 0)] = through [(1, 0)]
         /\ cost = finite (- (1)))
        \/ cost = @getCost eager_externals (through [(1, 0); (6, 0)])).
Proof.
  destruct row_expansion_offers
    as (s1 & s' & q2 & c1 & c2 & Hdeq & Hrun & Hh & _).
  destruct (@X27_expansion_offers_carry_their_cost eager_externals row_scene
              row_before s1 s' (through [(1, 0)]) (finite (- (1))) true false
              Hdeq Hrun)
    as (events & Hh' & Hall).
  rewrite Hh in Hh'. apply app_inv_head in Hh'. subst events.
  exists s', q2, c2. split; [exact Hrun |]. split.
  - rewrite Hh. apply elem_of_app. right.
    apply list_elem_of_further, list_elem_of_here.
  - apply (Hall q2 _ c2 true (path_queue s')).
    apply list_elem_of_further, list_elem_of_here.
Defined.

(** *** A round that finds nothing new *)

Lemma addNewPath_rejected_same (q q' : PathQueue.t) (p : Path.t) (c : xfloat) :
  PathQueue.addNewPath p c q = Ok (false, q') -> q' = q.
Proof.
  intros Hadd.
  destruct (addNewPath_pure_cases _ _ _ _ _ Hadd)
    as [([=] & _) | [([=] & _) | (_ & Heq)]].
  exact Heq.
Qed.

Section Converged.
Context `{PathExternals}.
Variable ts : TreeSearch.t.

(** While [no_new_paths] stands, the loop over the candidates has left the
    frontier alone and [added_point] is unset. *)
Lemma branch_untouched (q1 : PathQueue.t) (curr_path : Path.t)
    (possible : list Point) (k : nat) (flags : bool * bool) :
  ptriple (fun s => flags.1 = true -> flags.2 = false /\ path_queue s = q1)
          (branch ts curr_path possible k flags)
          (fun flags' s' =>
             flags'.1 = true ->
             flags.1 = true /\ flags'.2 = false /\ path_queue s' = q1).
Proof.
  unfold branch.
  eapply ptriple_bind; [apply ptriple_lift |].
  intros cand. cbv beta.
  destruct (Path.hasWaypoint curr_path _).
  { apply ptriple_ret. intros s Hs Hflag. destruct (Hs Hflag). auto. }
  eapply ptriple_bind; [apply ptriple_lift |].
  intros w. cbv beta zeta.
  intros s r s' Hs Hrun.
  apply bind_inv in Hrun as (accepted & s1 & Hadd & Hret).
  apply addNewPath_run_inv in Hadd as [Hpure _].
  destruct accepted; injection Hret as <- <-; [discriminate |].
  intros Hflag. destruct (Hs Hflag) as [Hadded Hq].
  apply addNewPath_rejected_same in Hpure. rewrite Hpure. auto.
Qed.

(** An expansion that hands [no_new_paths] on as true took the front entry
    and put it back. *)
Lemma expand_converged (no_new_paths : bool) (s s' : search_state) :
  expand ts no_new_paths s = Ok (true, s') ->
  no_new_paths = true
  /\ exists p c q1 accepted,
       PathQueue.dequeue (path_queue s) = Ok (p, c, q1)
       /\ PathQueue.addNewPath p c q1 = Ok (accepted, path_queue s').
Proof.
  unfold expand. intros Hrun.
  apply bind_inv in Hrun as ([p c] & s1 & Hdeq & Hrest).
  apply dequeue_run_pure in Hdeq as [Hdeq _].
  cbv beta iota in Hrest.
  case_decide as Hcap.
  { apply bind_inv in Hrest as (accepted & s2 & Hadd & Hret).
    injection Hret as -> <-.
    apply addNewPath_run_inv in Hadd as [Hpure _].
    split; [reflexivity |]. now exists p, c, (path_queue s1), accepted. }
  cbv zeta in Hrest.
  set (possible := filterLocal _ _ _ _ _ _) in Hrest.
  apply bind_inv in Hrest as ([no_new added] & s2 & Hloop & Hrest).
  pose proof (ptriple_for_each (length possible)
                (branch ts p possible) (no_new_paths, false)
                (fun _ flags s2 =>
                   flags.1 = true ->
                   no_new_paths = true /\ flags.2 = false
                   /\ path_queue s2 = path_queue s1)) as Hinv.
  specialize (Hinv ltac:(
    intros k flags _ sa flags' sb Hpre Hb;
    pose proof (branch_untouched (path_queue s1) p possible k flags
                  sa flags' sb) as Hstep;
    simpl in *; intros Hflag;
    destruct Hstep as (Hf & Hadded & Hq);
      [intros Hf; destruct (Hpre Hf) as (_ & ? & ?); auto
      | exact Hb | exact Hflag
      | destruct (Hpre Hf) as (? & _); auto ])).
  specialize (Hinv s1 (no_new, added) s2
                   ltac:(simpl; intros ->; auto) Hloop).
  simpl in Hinv. cbv beta iota in Hrest.
  destruct added; simpl in Hrest.
  - injection Hrest as -> <-. destruct (Hinv eq_refl) as (_ & [=] & _).
  - apply bind_inv in Hrest as (accepted & s3 & Hadd & Hret).
    injection Hret as -> <-.
    destruct (Hinv eq_refl) as (-> & _ & Hq).
    apply addNewPath_run_inv in Hadd as [Hpure _]. rewrite Hq in Hpure.
    split; [reflexivity |]. now exists p, c, (path_queue s1), accepted.
Qed.

(** One converged expansion moves the front entry to the back. *)
Lemma expand_rotates (q0 : PathQueue.t) (j : nat) (no_new_paths : bool)
    (s s' : search_state) :
  parallel q0 ->
  (PathQueue.size q0 <= PathQueue.PATH_QUEUE_LIMIT q0)%nat ->
  (j < PathQueue.size q0)%nat ->
  (no_new_paths = true -> rotated q0 j (path_queue s)) ->
  expand ts no_new_paths s = Ok (true, s') ->
  rotated q0 (S j) (path_queue s').
Proof.
  unfold parallel, PathQueue.size. intros Hpar Hsize Hj Hrot Hrun.
  apply expand_converged in Hrun
    as (-> & p & c & q1 & accepted & Hdeq & Hadd).
  destruct (Hrot eq_refl) as (Hps & Hcs & HK).
  destruct (lookup_lt_is_Some_2 (PathQueue.paths q0) j Hj) as [x Hx].
  destruct (lookup_lt_is_Some_2 (PathQueue.costs q0) j) as [y Hy]; [lia |].
  rewrite (drop_S _ _ _ Hx) in Hps. rewrite (drop_S _ _ _ Hy) in Hcs.
  unfold PathQueue.dequeue in Hdeq. rewrite Hps, Hcs in Hdeq. simpl in Hdeq.
  injection Hdeq as <- <- <-.
  rewrite addNewPath_below in Hadd.
  2:{ unfold PathQueue.size. simpl.
      rewrite length_app, length_drop, length_take. lia. }
  injection Hadd as _ <-. unfold rotated. simpl.
  rewrite (take_S_r _ _ _ Hx), (take_S_r _ _ _ Hy), <- !app_assoc.
  rewrite HK. auto.
Qed.
End Converged.

(** A round of the unchecked loop body that ends with [no_new_paths] set
    has rotated the frontier once around. *)
Lemma round_converged `{PathExternals} (ts : TreeSearch.t)
    (s s' : search_state) :
  parallel (path_queue s) ->
  (PathQueue.size (path_queue s)
   <= PathQueue.PATH_QUEUE_LIMIT (path_queue s))%nat ->
  round ts s = Ok (true, s') ->
  path_queue s' = path_queue s.
Proof.
  destruct s as [q0 h0]. simpl. intros Hpar Hsize Hrun.
  unfold round in Hrun.
  erewrite bind_run in Hrun by reflexivity.
  erewrite bind_run in Hrun by reflexivity.
  simpl in Hrun.
  pose proof (ptriple_for_each (length (PathQueue.paths q0))
                (fun _ => expand ts) true
                (fun j flag s =>
                   (j <= PathQueue.size q0)%nat
                   /\ (flag = true -> rotated q0 j (path_queue s)))) as Hloop.
  specialize (Hloop ltac:(
    intros j a Hj sa b sb [_ Hrot] Hexp;
    split; [unfold PathQueue.size; lia |];
    intros ->;
    exact (expand_rotates ts q0 j a sa sb Hpar Hsize Hj Hrot Hexp))).
  specialize (Hloop {| path_queue := q0; history := h0 ++ [RoundStart q0] |}
                    true s').
  destruct Hloop as [_ Hrot]; [| exact Hrun |].
  - split; [lia |]. intros _. simpl. unfold rotated.
    now rewrite !drop_0, !take_0, !app_nil_r.
  - destruct (Hrot eq_refl) as (Hps & Hcs & HK).
    rewrite drop_all, take_ge in Hps by lia.
    unfold parallel in Hpar. rewrite Hpar in Hcs.
    rewrite drop_all, take_ge in Hcs by lia.
    simpl in Hps, Hcs.
    destruct (path_queue s') as [ps cs K], q0 as [ps0 cs0 K0].
    simpl in *. now subst.
Qed.

(** The round on the two settled paths of the lane: from (9,0) only (9,0)
    is in reach, which both paths hold, so each is put back. *)
Lemma lane_settled_round :
  exists s',
    @Strict.round plain_externals lane_scene
      {| path_queue := lane_settled; history := [] |}
    = Ok (true, s').
Proof.
  eexists. unfold lane_settled, through. cbn [fmap list_fmap fst snd].
  rewrite strict_round_unfold. cbn [PathQueue.paths length].
  loop2.
  - rewrite strict_expand_front by discriminate.
    tidy. eapply expand_run;
      [ simpl; lia
      | tidy; apply lane_visible_far; apply pi_bounds_0
      | simpl length
      | ].
    + loop1. skip_known.
    + tidy. erewrite bind_run by (apply addNewPath_run; eval_below).
      reflexivity.
  - tidy. rewrite strict_expand_front by discriminate.
    tidy. eapply expand_run;
      [ simpl; lia
      | tidy; apply lane_visible_far; apply pi_bounds_0
      | simpl length
      | ].
    + loop1. skip_known.
    + tidy. erewrite bind_run by (apply addNewPath_run; eval_below).
      reflexivity.
Qed.

(** X26: a round that ends with no_new_paths still set leaves the frontier
    exactly as it found it, given parallel vectors within the capacity. *)
Theorem X26_converged_round_leaves_frontier `{PathExternals} (ts : TreeSearch.t)
    (s s' : search_state) :
  parallel (path_queue s) ->
  (PathQueue.size (path_queue s)
   <= PathQueue.PATH_QUEUE_LIMIT (path_queue s))%nat ->
  Strict.round ts s = Ok (true, s') ->
  path_queue s' = path_queue s.
Proof.
  intros Hpar Hsize Hrun. apply strict_round_sound in Hrun.
  now apply (round_converged ts).
Qed.

Lemma X26_converged_round_leaves_frontier_witness :
  exists s',
    @Strict.round plain_externals lane_scene
      {| path_queue := lane_settled; history := [] |}
    = Ok (true, s')
    /\ path_queue s' = lane_settled.
Proof.
  destruct lane_settled_round as [s' Hrun].
  exists s'. split; [exact Hrun |].
  apply (@X26_converged_round_leaves_frontier plain_externals lane_scene
           {| path_queue := lane_settled; history := [] |} s').
  - reflexivity.
  - unfold PathQueue.size. simpl. lia.
  - exact Hrun.
Defined.

(** *** The width of the frontier *)

Section Width.
Context `{PathExternals}.
Variable ts : TreeSearch.t.
Variables K m : nat.

(** After an offer to a frontier that missed at most one entry, none is
    missing: below capacity the offer is appended. *)
Lemma addNewPath_fills (p : Path.t) (c : xfloat) (added_point : bool) :
  ptriple (holds_all_but_one K m added_point) (addNewPath p c)
          (fun _ => holds_all_but_one K m true).
Proof.
  intros s accepted s' (HK & Hlow & Hhigh & HmK & Hadded) Hrun.
  apply addNewPath_run_inv in Hrun as [Hpure _].
  destruct (addNewPath_pure_size _ _ _ _ _ Hpure)
    as (HK' & _ & Hge & Hle & Hbelow & _).
  rewrite HK in *.
  assert (m <= PathQueue.size (path_queue s'))%nat as Hfilled.
  { destruct (decide (PathQueue.size (path_queue s) < K)%nat) as [Hlt | Hfull].
    - destruct (Hbelow Hlt) as [_ ->]. lia.
    - lia. }
  repeat split; auto; lia.
Qed.

Lemma holds_all_but_one_weaken (added_point : bool) (s : search_state) :
  holds_all_but_one K m true s -> holds_all_but_one K m added_point s.
Proof. intros (HK & Hlow & Hhigh & HmK & Hadded). repeat split; auto. Qed.

Lemma branch_width (curr_path : Path.t) (possible : list Point) (k : nat)
    (flags : bool * bool) :
  ptriple (holds_all_but_one K m flags.2)
          (branch ts curr_path possible k flags)
          (fun flags' => holds_all_but_one K m flags'.2).
Proof.
  unfold branch.
  eapply ptriple_bind; [apply ptriple_lift |].
  intros cand. cbv beta.
  destruct (Path.hasWaypoint curr_path _).
  { apply ptriple_ret. auto. }
  eapply ptriple_bind; [apply ptriple_lift |].
  intros w. cbv beta zeta.
  eapply ptriple_bind; [apply addNewPath_fills |].
  intros [|]; apply ptriple_ret; simpl; intros s Hs;
    [exact Hs | now apply holds_all_but_one_weaken].
Qed.

Lemma expand_width (no_new_paths : bool) :
  ptriple (holds_at_least K m) (expand ts no_new_paths)
          (fun _ => holds_at_least K m).
Proof.
  unfold expand.
  eapply ptriple_bind.
  { instantiate (1 := fun _ => holds_all_but_one K m false).
    intros s [p c] s' (HK & Hlow & Hhigh) Hrun.
    apply dequeue_run_pure in Hrun as [Hpure _].
    apply dequeue_pure_front in Hpure as (Hps & _ & HK').
    unfold holds_all_but_one, PathQueue.size in *.
    rewrite Hps in Hlow, Hhigh. simpl in Hlow, Hhigh.
    split; [congruence |]. split; [lia |]. split; [lia |].
    split; [lia | discriminate]. }
  assert (forall curr_path curr_cost (flag : bool),
            ptriple (holds_all_but_one K m false)
                    (_ ← addNewPath curr_path curr_cost; mret flag)
                    (fun _ => holds_at_least K m)) as Hback.
  { intros curr_path curr_cost flag.
    eapply ptriple_bind; [apply addNewPath_fills |].
    intros accepted. apply ptriple_ret.
    intros s (HK & _ & Hhigh & _ & Hfilled). split; auto. }
  intros [curr_path curr_cost]. cbv beta iota.
  case_decide as Hcap; [apply Hback |].
  cbv zeta.
  set (possible := filterLocal _ _ _ _ _ _).
  eapply ptriple_bind.
  { apply (ptriple_for_each (length possible)
             (branch ts curr_path possible) (no_new_paths, false)
             (fun _ flags => holds_all_but_one K m flags.2)).
    intros k flags _. apply branch_width. }
  intros [no_new added]. cbv beta iota.
  destruct added; simpl.
  - apply ptriple_ret.
    intros s (HK & _ & Hhigh & _ & Hadded). split; auto.
  - apply Hback.
Qed.

End Width.

(** X29: one run of the body of the loop over the frontier never shrinks the
    frontier: started within the capacity, it ends with at least as many
    entries, still within the capacity, and with the capacity unchanged. *)
Theorem X29_expansion_never_shrinks_frontier `{PathExternals} (ts : TreeSearch.t)
    (s s' : search_state) (no_new_paths b : bool) :
  (PathQueue.size (path_queue s)
   <= PathQueue.PATH_QUEUE_LIMIT (path_queue s))%nat ->
  Strict.expand ts no_new_paths s = Ok (b, s') ->
  (PathQueue.size (path_queue s) <= PathQueue.size (path_queue s')
   <= PathQueue.PATH_QUEUE_LIMIT (path_queue s))%nat
  /\ PathQueue.PATH_QUEUE_LIMIT (path_queue s')
     = PathQueue.PATH_QUEUE_LIMIT (path_queue s).
Proof.
  intros Hsize Hrun. apply strict_expand_sound in Hrun.
  destruct (expand_width ts (PathQueue.PATH_QUEUE_LIMIT (path_queue s))
              (PathQueue.size (path_queue s)) no_new_paths s b s')
    as (HK & Hlow & Hhigh); [| exact Hrun | auto].
  split; [reflexivity | lia].
Qed.

Lemma X29_expansion_never_shrinks_frontier_witness :
  exists s',
    @Strict.expand eager_externals row_scene true row_before = Ok (false, s')
    /\ (2 <= PathQueue.size (path_queue s') <= 2)%nat
    /\ PathQueue.PATH_QUEUE_LIMIT (path_queue s') = 2%nat.
Proof.
  destruct row_expansion_offers as (s1 & s' & q2 & c1 & c2 & _ & Hrun & _).
  exists s'. split; [exact Hrun |].
  apply (@X29_expansion_never_shrinks_frontier eager_externals row_scene
           row_before s' true false).
  - unfold PathQueue.size. simpl. lia.
  - exact Hrun.
Defined.

(** ** getPath with [back()] checked *)

(** X30: getPath, with [back()] of an empty vector a fault: with a capacity
    of 0 the first addNewPath reads costs[0] of an empty vector; with a
    capacity and no iteration the root path is returned; with a capacity
    and an iteration the first expansion reads [back()] of the root path. *)
Theorem X30_getPath_reads_back_of_root `{PathExternals} (ts : TreeSearch.t) :
  (path_queue_limit (TreeSearch.params ts) = 0%nat ->
   Strict.getPath ts = Fault IndexOutOfRange)
  /\ ((1 <= path_queue_limit (TreeSearch.params ts))%nat ->
      max_search_iterations (TreeSearch.params ts) = 0%nat ->
      Strict.getPath ts = Ok Path.new)
  /\ ((1 <= path_queue_limit (TreeSearch.params ts))%nat ->
      (1 <= max_search_iterations (TreeSearch.params ts))%nat ->
      Strict.getPath ts = Fault BackOfEmpty).
Proof.
  split; [| split].
  - intros Hzero.
    unfold Strict.getPath, Strict.getPath_search, initial_state. cbv zeta.
    rewrite Hzero. reflexivity.
  - apply strict_getPath_without_rounds.
  - apply strict_getPath_reads_back_of_root.
Qed.

(** ** The cap on the waypoints of a path *)

(** X31: the body of the loop over the frontier on a front path over the cap
    puts it back at the end with its cost, and leaves no_new_paths as it
    was. *)
Theorem X31_expansion_over_cap_puts_back `{PathExternals} (ts : TreeSearch.t)
    (curr_path : Path.t) (paths : list Path.t) (curr_cost : xfloat)
    (costs : list xfloat) (limit : nat) (h : list event)
    (no_new_paths : bool) :
  (max_waypoints_per_path (TreeSearch.params ts)
   < length (Path.waypoints curr_path))%nat ->
  (S (length paths) <= limit)%nat ->
  let before := PathQueue.make (curr_path :: paths) (curr_cost :: costs) limit in
  let popped := PathQueue.make paths costs limit in
  let after := PathQueue.make (paths ++ [curr_path]) (costs ++ [curr_cost])
                              limit in
  Strict.expand ts no_new_paths {| path_queue := before; history := h |}
  = Ok (no_new_paths,
        {| path_queue := after;
           history := (h ++ [Dequeued before curr_path curr_cost popped])
                      ++ [Offered popped curr_path curr_cost true after] |}).
Proof.
  intros Hcap Hroom before popped after. unfold Strict.expand.
  erewrite bind_run by apply dequeue_run. cbv beta iota.
  rewrite decide_True by exact Hcap.
  erewrite bind_run
    by (apply addNewPath_run, addNewPath_below;
        unfold PathQueue.size; simpl; lia).
  reflexivity.
Qed.

Lemma X31_expansion_over_cap_puts_back_witness :
  exists s',
    @Strict.expand eager_externals capped_scene true
      {| path_queue :=
           PathQueue.make [through [(1, 0); (7 / 2, 0)]; through [(6, 0)]]
                          [finite (- (2)); finite (- (1))] 2;
         history := [] |}
    = Ok (true, s')
    /\ PathQueue.paths (path_queue s')
       = [through [(6, 0)]; through [(1, 0); (7 / 2, 0)]]
    /\ PathQueue.costs (path_queue s') = [finite (- (1)); finite (- (2))].
Proof.
  eexists. split.
  - apply (@X31_expansion_over_cap_puts_back eager_externals capped_scene
             (through [(1, 0); (7 / 2, 0)]) [through [(6, 0)]]
             (finite (- (2))) [finite (- (1))] 2 [] true).
    + simpl. lia.
    + simpl. lia.
  - split; reflexivity.
Defined.
